(** * emotion-folding: camera presets, alignment trigger and narrative state

    A shallow embedding of the scene, camera, controls and UI managers and of
    the application's frame loop.  JavaScript numbers are read as real
    numbers; meshes live in a store indexed by reference, because tweens and
    managers share them; a pending [requestAnimationFrame] closure is a
    [Callback] value holding what the closure captured; the arithmetic of a
    tween's last sample is repeated over binary64 numbers in the module
    [Binary64].  The application
    state leaves out the renderer, the static geometry and the optional
    orbit-controls object of the 3D library: the controls manager is the one
    with its fallback pointer controller.  The lights, the models of the
    objects manager, the image export, the page's temporary elements, the
    fallback pointer controller and the start of the application have
    models of their own, in modules after the application's. *)

From Stdlib Require Import Floats Reals Lra Lia Bool List String Ascii Arith.
Import ListNotations.
Open Scope R_scope.

(** ** The part of the 3D library the managers use *)

Module THREE.

Record Vector3 : Type := mkVector3 { x : R; y : R; z : R }.

(** [Vector3.distanceTo] *)
Definition distanceTo (a b : Vector3) : R :=
  sqrt ((x a - x b) * (x a - x b) + (y a - y b) * (y a - y b)
        + (z a - z b) * (z a - z b)).

(** [Vector3.lerpVectors(v1, v2, alpha)], in exact arithmetic;
    [Binary64.lerpVectors] below is the same over binary64 numbers. *)
Definition lerpVectors (v1 v2 : Vector3) (alpha : R) : Vector3 :=
  {| x := x v1 + (x v2 - x v1) * alpha;
     y := y v1 + (y v2 - y v1) * alpha;
     z := z v1 + (z v2 - z v1) * alpha |}.

Definition add (a b : Vector3) : Vector3 :=
  {| x := x a + x b; y := y a + y b; z := z a + z b |}.

Definition sub (a b : Vector3) : Vector3 :=
  {| x := x a - x b; y := y a - y b; z := z a - z b |}.

Definition multiplyScalar (a : Vector3) (k : R) : Vector3 :=
  {| x := x a * k; y := y a * k; z := z a * k |}.

Definition length (a : Vector3) : R :=
  sqrt (x a * x a + y a * y a + z a * z a).

(** A camera: where it stands and the unit vector it looks along (what
    [getWorldDirection] returns).  Roll is not represented. *)
Record Camera : Type := mkCamera { position : Vector3; direction : Vector3 }.

(** The direction from [eye] to [target], as [lookAt] followed by
    [getWorldDirection] gives it with the camera's up vector (0, 1, 0).
    When both points coincide the library takes the default view axis.  When
    the view is straight up or down, parallel to the up vector, it moves the
    axis by 0.0001 along z before normalising again, so the camera then
    looks a little towards -z. *)
Definition directionTo (eye target : Vector3) : Vector3 :=
  let d := sub target eye in
  if Req_dec_T (length d) 0 then mkVector3 0 0 (-1)
  else
    let ahead := multiplyScalar d (/ length d) in
    if Req_dec_T (x ahead) 0 then
      if Req_dec_T (z ahead) 0 then
        let nudged := mkVector3 (x ahead) (y ahead) (z ahead - 0.0001) in
        multiplyScalar nudged (/ length nudged)
      else ahead
    else ahead.

(** [camera.lookAt(target)] *)
Definition lookAt (c : Camera) (target : Vector3) : Camera :=
  {| position := position c; direction := directionTo (position c) target |}.

(** [camera.position.lerpVectors(...)]: only the position is written. *)
Definition setPosition (c : Camera) (p : Vector3) : Camera :=
  {| position := p; direction := direction c |}.

(** [new THREE.PerspectiveCamera(...)]: at the origin, looking down -z. *)
Definition PerspectiveCamera : Camera :=
  {| position := mkVector3 0 0 0; direction := mkVector3 0 0 (-1) |}.

End THREE.

Import THREE.

(** ** Shared pieces *)

(** A reference to a mesh; its position is in the store of the application. *)
Definition ref : Type := nat.

Definition Store : Type := ref -> Vector3.

Definition write (h : Store) (r : ref) (v : Vector3) : Store :=
  fun r' => if Nat.eqb r' r then v else h r'.

(** The object literal a tween is given as target: [{ x: .. }], [{ z: .. }];
    an absent key reads [undefined]. *)
Module Target.
Record t : Type := mk { x : option R; y : option R; z : option R }.
End Target.

Definition Rltb (a b : R) : bool := if Rlt_dec a b then true else false.

(** [Math.min(elapsed / duration, 1)] *)
Definition progressAt (startTime duration now : R) : R :=
  Rmin ((now - startTime) / duration) 1.

(** [0.5 - 0.5 * Math.cos(progress * Math.PI)] *)
Definition easeProgress (progress : R) : R := 0.5 - 0.5 * cos (progress * PI).

(** One coordinate of a tween step:
    [if (target.k !== undefined)
       position.k = start.k + (target.k - start.k) * easeProgress] *)
Definition tweenAxis (target : option R) (start easing current : R) : R :=
  match target with
  | Some goal => start + (goal - start) * easing
  | None => current
  end.

Definition tweenPosition (current start : Vector3) (target : Target.t) (easing : R)
  : Vector3 :=
  {| x := tweenAxis (Target.x target) (x start) easing (x current);
     y := tweenAxis (Target.y target) (y start) easing (y current);
     z := tweenAxis (Target.z target) (z start) easing (z current) |}.

(** ** State of the managers *)

Record Bridge : Type := mkBridge
  { bridge_left : ref; bridge_right : ref; isAligned : bool }.

Record SceneManager : Type := mkSceneManager
  { bridgeSegments : list ref;
    bridge : option Bridge;
    mother : option ref;
    child : option ref }.

Record ViewPreset : Type := mkViewPreset
  { preset_position : Vector3; preset_target : Vector3; preset_name : string }.

Record CameraManager : Type := mkCameraManager
  { camera : Camera;
    currentPreset : option string;
    isAnimating : bool }.

Inductive NarrativeState : Type := searching | aligning | connected | reunited.

Record UIManager : Type := mkUIManager
  { currentState : NarrativeState;
    statusText : string;
    hintText : string }.

Record SceneState : Type := mkSceneState
  { bridgeAligned : bool; bridgeTriggered : bool; motherChildReunited : bool }.

(** A closure handed to [requestAnimationFrame], with what it captured. *)
Inductive Callback : Type :=
| AppAnimate
| CameraAnimate (startPosition targetPosition startTarget targetLookAt : Vector3)
                (startTime : R)
| CharacterAnimate (character : ref) (start : Vector3) (target : Target.t)
                   (startTime : R) (onComplete : option string)
| BridgeSegmentAnimate (segment : ref) (start : Vector3) (target : Target.t)
                       (startTime : R).

Record App : Type := mkApp
  { store : Store;
    nextRef : ref;
    sceneManager : SceneManager;
    cameraManager : CameraManager;
    uiManager : UIManager;
    rafQueue : list Callback;
    console : list string }.

Definition setStore (h : Store) (w : App) : App :=
  mkApp h (nextRef w) (sceneManager w) (cameraManager w) (uiManager w)
        (rafQueue w) (console w).

Definition setSceneManager (sm : SceneManager) (w : App) : App :=
  mkApp (store w) (nextRef w) sm (cameraManager w) (uiManager w)
        (rafQueue w) (console w).

Definition setCameraManager (cm : CameraManager) (w : App) : App :=
  mkApp (store w) (nextRef w) (sceneManager w) cm (uiManager w)
        (rafQueue w) (console w).

Definition setUIManager (ui : UIManager) (w : App) : App :=
  mkApp (store w) (nextRef w) (sceneManager w) (cameraManager w) ui
        (rafQueue w) (console w).

Definition setRafQueue (q : list Callback) (w : App) : App :=
  mkApp (store w) (nextRef w) (sceneManager w) (cameraManager w) (uiManager w)
        q (console w).

(** [requestAnimationFrame(cb)] *)
Definition requestAnimationFrame (cb : Callback) (w : App) : App :=
  setRafQueue (rafQueue w ++ [cb]) w.

(** [console.log] / [console.warn] *)
Definition consoleLog (msg : string) (w : App) : App :=
  mkApp (store w) (nextRef w) (sceneManager w) (cameraManager w) (uiManager w)
        (rafQueue w) (console w ++ [msg]).

(** ** CameraManager *)

Definition motherPreset : ViewPreset :=
  mkViewPreset (mkVector3 (-15) 8 12) (mkVector3 (-12) 1 0) "母亲视角".

Definition childPreset : ViewPreset :=
  mkViewPreset (mkVector3 15 6 10) (mkVector3 12 1 0) "孩子视角".

Definition emotionalPreset : ViewPreset :=
  mkViewPreset (mkVector3 0 5 20) (mkVector3 0 0.5 0) "情感视角对齐".

(** The own properties of [this.presets]: the three keys of the object
    literal. *)
Definition presets (presetName : string) : option ViewPreset :=
  if String.eqb presetName "mother" then Some motherPreset
  else if String.eqb presetName "child" then Some childPreset
  else if String.eqb presetName "emotional" then Some emotionalPreset
  else None.

(** The properties every object literal inherits from [Object.prototype].
    [this.presets[presetName]] finds them too: a function, or the prototype
    itself under [__proto__]; none of them is a preset, and none is
    undefined. *)
Definition inheritedProperty (name : string) : bool :=
  existsb (String.eqb name)
    ["constructor"; "toString"; "toLocaleString"; "valueOf"; "hasOwnProperty";
     "isPrototypeOf"; "propertyIsEnumerable"; "__proto__"; "__defineGetter__";
     "__defineSetter__"; "__lookupGetter__"; "__lookupSetter__"]%string.

Definition getCameraLookAt (cm : CameraManager) : Vector3 :=
  add (position (camera cm)) (multiplyScalar (direction (camera cm)) 10).

(** [isNearEmotionalView(threshold = 2.0)]; [None] is the omitted argument. *)
Definition isNearEmotionalView (threshold : option R) (cm : CameraManager) : bool :=
  let threshold := match threshold with Some v => v | None => 2.0 end in
  let emotionalPos := preset_position emotionalPreset in
  let currentPos := position (camera cm) in
  let distance := distanceTo currentPos emotionalPos in
  Rltb distance threshold.

(** ** UIManager *)

(** The two display strings of each state (the quotation marks inside two of
    the hints are left out). *)

Definition statusMessages (state : NarrativeState) : string * string :=
  match state with
  | searching => ("状态：母亲在为孩子寻找一条路。",
                  "提示：旋转视角，也许断裂只是误会。")
  | aligning => ("状态：调整视角，寻找连接的可能。",
                 "提示：点击情感视角对齐，换个角度看世界。")
  | connected => ("状态：桥已连接，路在眼前。",
                  "提示：触发机关，让母亲为孩子引路。")
  | reunited => ("状态：母子重逢，共同前行。",
                 "提示：这一刻值得被记住，点击保存此刻记忆。")
  end%string.

Definition updateStatus (state : NarrativeState) (ui : UIManager) : UIManager :=
  let message := statusMessages state in
  {| currentState := state; statusText := fst message; hintText := snd message |}.

Definition updateFromSceneState (sceneState : SceneState) (ui : UIManager)
  : UIManager :=
  if motherChildReunited sceneState then updateStatus reunited ui
  else if bridgeTriggered sceneState then updateStatus connected ui
  else if bridgeAligned sceneState then updateStatus aligning ui
  else updateStatus searching ui.

(** ** SceneManager *)

(** [this.sceneManager.bridge?.isAligned], read as a condition. *)
Definition bridgeIsAligned (sm : SceneManager) : bool :=
  match bridge sm with Some b => isAligned b | None => false end.

Definition setBridgeAligned (aligned : bool) (sm : SceneManager) : SceneManager :=
  match bridge sm with
  | Some b =>
      mkSceneManager (bridgeSegments sm)
        (Some (mkBridge (bridge_left b) (bridge_right b) aligned))
        (mother sm) (child sm)
  | None => sm
  end.

Definition setMother (mesh : option ref) (w : App) : App :=
  let sm := sceneManager w in
  let w1 := setSceneManager
              (mkSceneManager (bridgeSegments sm) (bridge sm) mesh (child sm)) w in
  match mesh with
  | Some m => setStore (write (store w1) m (mkVector3 (-12) 1 0)) w1
  | None => w1
  end.

Definition setChild (mesh : option ref) (w : App) : App :=
  let sm := sceneManager w in
  let w1 := setSceneManager
              (mkSceneManager (bridgeSegments sm) (bridge sm) (mother sm) mesh) w in
  match mesh with
  | Some m => setStore (write (store w1) m (mkVector3 12 1 0)) w1
  | None => w1
  end.

(** ** The frame callbacks *)

(** The sceneState object built by [App.animate]. *)
Definition sceneStateOf (w : App) : SceneState :=
  let sm := sceneManager w in
  let motherChildReunited :=
    match mother sm, child sm with
    | Some m, Some c =>
        let distance := distanceTo (store w m) (store w c) in
        Rltb distance 5
    | _, _ => false
    end in
  {| bridgeAligned := bridgeIsAligned sm || false;
     bridgeTriggered := false;
     motherChildReunited := motherChildReunited |}.

(** One run of a pending closure, the clock reading [now].
    - [AppAnimate] is [App.animate]: it re-registers itself first, the two
      [update] calls change nothing (no orbit controls object), then the UI
      is refreshed from the scene;
    - [CameraAnimate] is the [animate] closure of [animateToPosition], whose
      [onComplete] is always the one [setPresetView] passes;
    - [CharacterAnimate] and [BridgeSegmentAnimate] are the [animate]
      closures of [animateCharacter] (2000 ms) and [animateBridgeSegment]
      (1000 ms). *)
Definition runCallback (now : R) (cb : Callback) (w : App) : App :=
  match cb with
  | AppAnimate =>
      let w1 := requestAnimationFrame AppAnimate w in
      setUIManager (updateFromSceneState (sceneStateOf w1) (uiManager w1)) w1
  | CameraAnimate startPosition targetPosition startTarget targetLookAt startTime =>
      let progress := progressAt startTime 2000 now in
      let easing := easeProgress progress in
      let cm := cameraManager w in
      let moved := setPosition (camera cm)
                     (lerpVectors startPosition targetPosition easing) in
      let currentTarget := lerpVectors startTarget targetLookAt easing in
      let cm1 := mkCameraManager (lookAt moved currentTarget)
                   (currentPreset cm) (isAnimating cm) in
      let w1 := setCameraManager cm1 w in
      if Rltb progress 1 then requestAnimationFrame cb w1
      else
        (* the flag is cleared by the closure, then again by [onComplete] *)
        let cm2 := mkCameraManager (camera cm1) (currentPreset cm1) false in
        setCameraManager
          (mkCameraManager (camera cm2) (currentPreset cm2) false) w1
  | CharacterAnimate character start target startTime onComplete =>
      let progress := progressAt startTime 2000 now in
      let easing := easeProgress progress in
      let w1 := setStore (write (store w) character
                            (tweenPosition (store w character) start target easing))
                         w in
      if Rltb progress 1 then requestAnimationFrame cb w1
      else match onComplete with
           | Some msg => consoleLog msg w1
           | None => w1
           end
  | BridgeSegmentAnimate segment start target startTime =>
      let progress := progressAt startTime 1000 now in
      let easing := easeProgress progress in
      let w1 := setStore (write (store w) segment
                            (tweenPosition (store w segment) start target easing))
                         w in
      if Rltb progress 1 then requestAnimationFrame cb w1 else w1
  end.

(** A display frame: the closures registered so far run in order, all with
    the same clock reading; what they register is for the next frame. *)
Definition frame (now : R) (w : App) : App :=
  fold_left (fun a cb => runCallback now cb a) (rafQueue w) (setRafQueue [] w).

Definition frames (times : list R) (w : App) : App :=
  fold_left (fun a now => frame now a) times w.

(** ** Starting tweens *)

(** [animateToPosition]: the closure is built and called once on the spot. *)
Definition animateToPosition (targetPosition targetLookAt : Vector3) (now : R)
  (w : App) : App :=
  let startPosition := position (camera (cameraManager w)) in
  let startTarget := getCameraLookAt (cameraManager w) in
  let startTime := now in
  runCallback now
    (CameraAnimate startPosition targetPosition startTarget targetLookAt startTime) w.

Definition setPresetView (presetName : string) (now : R) (w : App) : App :=
  let cm := cameraManager w in
  if isAnimating cm then w
  else match presets presetName with
       | None =>
           if inheritedProperty presetName then
             (* what is found passes the [!preset] test; its [position] is
                undefined, and the closure's first run throws on it in
                [lerpVectors], before the camera is written and before
                anything is registered: the two assignments stay *)
             setCameraManager (mkCameraManager (camera cm) (Some presetName) true) w
           else consoleLog ("未知的预设视角: " ++ presetName) w
       | Some preset =>
           let cm1 := mkCameraManager (camera cm) (Some presetName) true in
           animateToPosition (preset_position preset) (preset_target preset) now
             (setCameraManager cm1 w)
       end.

Definition animateCharacter (character : ref) (target : Target.t)
  (onComplete : option string) (now : R) (w : App) : App :=
  let start := store w character in
  let startTime := now in
  runCallback now (CharacterAnimate character start target startTime onComplete) w.

Definition animateBridgeSegment (segment : ref) (target : Target.t) (now : R)
  (w : App) : App :=
  let start := store w segment in
  let startTime := now in
  runCallback now (BridgeSegmentAnimate segment start target startTime) w.

Definition triggerReunion (now : R) (w : App) : App :=
  match mother (sceneManager w), child (sceneManager w) with
  | Some m, Some c =>
      let motherTargetX := -2 in
      let w1 := animateCharacter m (Target.mk (Some motherTargetX) None None)
                  (Some "母子会合完成"%string) now w in
      let childTargetX := 2 in
      animateCharacter c (Target.mk (Some childTargetX) None None) None now w1
  | _, _ => w
  end.

Definition triggerBridgeMovement (now : R) (w : App) : App :=
  match bridge (sceneManager w) with
  | None => w
  | Some b =>
      if isAligned b then
        let leftTargetZ := z (store w (bridge_left b)) + 0.3 in
        let rightTargetZ := z (store w (bridge_right b)) + 0.3 in
        let w1 := animateBridgeSegment (bridge_left b)
                    (Target.mk None None (Some leftTargetZ)) now w in
        let w2 := animateBridgeSegment (bridge_right b)
                    (Target.mk None None (Some rightTargetZ)) now w1 in
        triggerReunion now w2
      else w
  end.

(** ** ControlsManager (no orbit controls object: the fallback controller) *)

Definition switchToMotherView (now : R) (w : App) : App :=
  setPresetView "mother" now w.

Definition switchToChildView (now : R) (w : App) : App :=
  setPresetView "child" now w.

Definition switchToEmotionalView (now : R) (w : App) : App :=
  let w1 := setPresetView "emotional" now w in
  setSceneManager (setBridgeAligned true (sceneManager w1)) w1.

Definition triggerBridgeMechanism (now : R) (w : App) : App :=
  let isAligned := isNearEmotionalView (Some 3.0) (cameraManager w) in
  if isAligned || bridgeIsAligned (sceneManager w)
  then triggerBridgeMovement now w
  else consoleLog "请先切换到情感视角对齐" w.

(** ** The application: construction and events *)

Inductive Button : Type :=
| BtnMotherView | BtnChildView | BtnEmotionalView | BtnTriggerBridge.

Inductive Role : Type := MotherRole | ChildRole.

(** What can happen after construction: a button click, a display frame, a
    model (or its placeholder) delivered by the loader, and the pointer
    controller moving the camera.  The save button only reads the renderer
    and is left out. *)
Inductive Event : Type :=
| Click (button : Button) (now : R)
| AnimationFrame (now : R)
| ModelReady (type : Role)
| PointerControl (moved : Camera).

(** A mesh the caller has just created. *)
Definition newMesh (w : App) : ref * App :=
  (nextRef w,
   mkApp (store w) (S (nextRef w)) (sceneManager w) (cameraManager w)
         (uiManager w) (rafQueue w) (console w)).

Definition deliverModel (type : Role) (w : App) : App :=
  let (mesh, w1) := newMesh w in
  match type with
  | MotherRole => setMother (Some mesh) w1
  | ChildRole => setChild (Some mesh) w1
  end.

(** [createBridge]: the two segments are meshes 0 and 1. *)
Definition createBridge : Store * SceneManager :=
  let leftBridge := 0%nat in
  let rightBridge := 1%nat in
  let h0 : Store := fun _ => mkVector3 0 0 0 in
  let h1 := write h0 leftBridge (mkVector3 (-6) 0.5 0) in
  let h2 := write h1 rightBridge (mkVector3 6 0.5 0) in
  (h2, mkSceneManager [leftBridge; rightBridge]
         (Some (mkBridge leftBridge rightBridge false)) None None).

(** The managers as their constructors leave them, before the camera
    manager's [init] asks for the first preset. *)
Definition constructed : App :=
  mkApp (fst createBridge) 2%nat (snd createBridge)
        (mkCameraManager PerspectiveCamera None false)
        (updateStatus searching (mkUIManager searching EmptyString EmptyString)) [] [].

Definition createPlaceholderModels (w : App) : App :=
  deliverModel ChildRole (deliverModel MotherRole w).

(** [loadModels]: with a model loader the models (or, on failure, their
    placeholders) arrive later as [ModelReady] events; without one the
    placeholders are created at once. *)
Definition loadModels (gltfLoader : bool) (w : App) : App :=
  if gltfLoader then w else createPlaceholderModels w.

(** [new App()] at clock reading [now]: the camera manager starts the
    transition to the mother preset, the models are asked for, and
    [animate()] runs once. *)
Definition newApp (now : R) (gltfLoader : bool) : App :=
  runCallback now AppAnimate
    (loadModels gltfLoader (setPresetView "mother" now constructed)).

Definition handle (e : Event) (w : App) : App :=
  match e with
  | Click BtnMotherView now => switchToMotherView now w
  | Click BtnChildView now => switchToChildView now w
  | Click BtnEmotionalView now => switchToEmotionalView now w
  | Click BtnTriggerBridge now => triggerBridgeMechanism now w
  | AnimationFrame now => frame now w
  | ModelReady type => deliverModel type w
  | PointerControl moved =>
      let cm := cameraManager w in
      setCameraManager (mkCameraManager moved (currentPreset cm) (isAnimating cm)) w
  end.

Inductive reachable : App -> Prop :=
| reachable_new : forall now gltfLoader, reachable (newApp now gltfLoader)
| reachable_handle : forall e w, reachable w -> reachable (handle e w).

(** The clock reading an event carries, if any. *)
Definition eventTime (e : Event) : option R :=
  match e with
  | Click _ now => Some now
  | AnimationFrame now => Some now
  | ModelReady _ => None
  | PointerControl _ => None
  end.

(** States reached with a clock that does not run backwards; the index is
    the latest reading. *)
Inductive reachableAt : R -> App -> Prop :=
| reachableAt_new : forall now gltfLoader,
    reachableAt now (newApp now gltfLoader)
| reachableAt_timed : forall clock now e w,
    reachableAt clock w -> eventTime e = Some now -> clock <= now ->
    reachableAt now (handle e w)
| reachableAt_untimed : forall clock e w,
    reachableAt clock w -> eventTime e = None ->
    reachableAt clock (handle e w).

(** The pending camera closures. *)
Definition isCameraAnimate (cb : Callback) : bool :=
  match cb with CameraAnimate _ _ _ _ _ => true | _ => false end.

Definition cameraCallbacks (q : list Callback) : list Callback :=
  filter isCameraAnimate q.

(** The mesh a pending closure writes to, if any. *)
Definition writesTo (cb : Callback) : option ref :=
  match cb with
  | CharacterAnimate character _ _ _ _ => Some character
  | BridgeSegmentAnimate segment _ _ _ => Some segment
  | _ => None
  end.

(** A run of events. *)
Definition handles (events : list Event) (w : App) : App :=
  fold_left (fun a e => handle e a) events w.

(** ** Predicates the properties are stated with *)

(** At most one camera closure is pending, and none when the flag is down. *)
Definition singleCameraTween (w : App) : Prop :=
  (List.length (cameraCallbacks (rafQueue w)) <= 1)%nat /\
  (isAnimating (cameraManager w) = false -> cameraCallbacks (rafQueue w) = []).

(** The scene has its bridge, made of meshes 0 and 1. *)
Definition hasBridge (w : App) : Prop :=
  exists flag, bridge (sceneManager w) = Some (mkBridge 0%nat 1%nat flag).

(** The closure of a transition to [preset] that started at [startTime] from
    [startPosition], the camera then looking at [startTarget]. *)
Definition presetTransition (startPosition startTarget : Vector3) (startTime : R)
  (preset : ViewPreset) : Callback :=
  CameraAnimate startPosition (preset_position preset) startTarget
                (preset_target preset) startTime.

(** The camera transition [cb] towards the preset called [presetName] is the
    one pending. *)
Definition cameraInTransit (cb : Callback) (presetName : string) (w : App) : Prop :=
  cameraCallbacks (rafQueue w) = [cb] /\
  isAnimating (cameraManager w) = true /\
  currentPreset (cameraManager w) = Some presetName.

(** No camera transition is pending; the camera stands at the preset's
    position and faces the preset's target. *)
Definition cameraAtPreset (preset : ViewPreset) (presetName : string) (w : App)
  : Prop :=
  cameraCallbacks (rafQueue w) = [] /\
  camera (cameraManager w)
    = mkCamera (preset_position preset)
               (directionTo (preset_position preset) (preset_target preset)) /\
  isAnimating (cameraManager w) = false /\
  currentPreset (cameraManager w) = Some presetName.

(** Where the camera transition [cb] is while the closures [l] of a frame at
    clock reading [now] are still to run. *)
Definition cameraMidFrame (cb : Callback) (deadline now : R) (preset : ViewPreset)
  (presetName : string) (l : list Callback) (a : App) : Prop :=
  (cameraCallbacks l = [cb] /\ cameraCallbacks (rafQueue a) = [] /\
   isAnimating (cameraManager a) = true /\
   currentPreset (cameraManager a) = Some presetName)
  \/ (cameraCallbacks l = [] /\ now < deadline /\ cameraInTransit cb presetName a)
  \/ (cameraCallbacks l = [] /\ cameraAtPreset preset presetName a).

(** The state derivation as the specification words it: the distance rule
    first, then the bridge-triggered flag, then the alignment flag. *)
Definition narrativeStateOf (distance : R) (bridgeTriggered isAligned : bool)
  : NarrativeState :=
  if Rlt_dec distance 5 then reunited
  else if bridgeTriggered then connected
  else if isAligned then aligning
  else searching.

(** The text on display is not the one of [connected]. *)
Definition notShownConnected (ui : UIManager) : Prop :=
  currentState ui <> connected /\
  statusText ui <> fst (statusMessages connected) /\
  hintText ui <> snd (statusMessages connected).

(** Where a tween with this target leaves a mesh that is at [v]: the
    coordinates the target names take its values, the others stay. *)
Definition landing (target : Target.t) (v : Vector3) : Vector3 :=
  {| x := match Target.x target with Some goal => goal | None => x v end;
     y := match Target.y target with Some goal => goal | None => y v end;
     z := match Target.z target with Some goal => goal | None => z v end |}.

(** A pending closure is compatible with a tween of mesh [r] towards
    [target] that ends by [deadline]: if it writes to [r] at all, it is a
    tween towards the same target that has run its time by then. *)
Definition drives (r : ref) (target : Target.t) (deadline : R) (cb : Callback)
  : Prop :=
  match cb with
  | CharacterAnimate character _ target' startTime _ =>
      character = r -> target' = target /\ startTime + 2000 <= deadline
  | BridgeSegmentAnimate segment _ target' startTime =>
      segment = r -> target' = target /\ startTime + 1000 <= deadline
  | _ => True
  end.

(** Mesh [r] is on its way to [goal]: the pending closures agree on the
    target, the coordinates the target leaves alone are already those of
    [goal], and either a closure still writes to [r] or [r] is at [goal]. *)
Definition tweenPending (r : ref) (target : Target.t) (goal : Vector3)
  (deadline : R) (w : App) : Prop :=
  Forall (drives r target deadline) (rafQueue w) /\
  landing target (store w r) = goal /\
  ((exists cb, In cb (rafQueue w) /\ writesTo cb = Some r) \/ store w r = goal).

(** Mesh [r] rests at [goal]: nothing pending writes to it. *)
Definition settled (r : ref) (goal : Vector3) (w : App) : Prop :=
  (forall cb, In cb (rafQueue w) -> writesTo cb <> Some r) /\ store w r = goal.

(** The same, while the closures [l] of a frame at clock reading [now] are
    still to run. *)
Definition tweenMidFrame (r : ref) (target : Target.t) (goal : Vector3)
  (deadline now : R) (l : list Callback) (a : App) : Prop :=
  Forall (drives r target deadline) l /\
  Forall (drives r target deadline) (rafQueue a) /\
  landing target (store a r) = goal /\
  ((exists cb, In cb (l ++ rafQueue a) /\ writesTo cb = Some r)
   \/ store a r = goal) /\
  (deadline <= now -> forall cb, In cb (rafQueue a) -> writesTo cb <> Some r).

(** What a pending closure can be, in a state whose meshes are numbered below
    [next] and whose characters are [mo] and [ch]: a segment tween is on mesh
    0 or 1; a character tween is on a later mesh, started no later than
    [clock], and heads for x = -2 on the mother and x = 2 on the child. *)
Definition reunionClosure (clock : R) (next : ref) (mo ch : option ref)
  (cb : Callback) : Prop :=
  match cb with
  | CharacterAnimate character _ target startTime _ =>
      (2 <= character < next)%nat /\ startTime <= clock /\
      (mo = Some character -> target = Target.mk (Some (-2)) None None) /\
      (ch = Some character -> target = Target.mk (Some 2) None None)
  | BridgeSegmentAnimate segment _ _ _ => (segment < 2)%nat
  | _ => True
  end.

Definition wellFormed (clock : R) (w : App) : Prop :=
  hasBridge w /\
  (2 <= nextRef w)%nat /\
  (forall m, mother (sceneManager w) = Some m -> (2 <= m < nextRef w)%nat) /\
  (forall c, child (sceneManager w) = Some c -> (2 <= c < nextRef w)%nat) /\
  (forall r, mother (sceneManager w) = Some r -> child (sceneManager w) <> Some r) /\
  Forall (reunionClosure clock (nextRef w) (mother (sceneManager w))
                         (child (sceneManager w)))
         (rafQueue w).

(** ** States the properties are shown on *)

(** The application built without a model loader; a frame at 2000 ms ends
    the opening transition; then the pointer controller brings the camera to
    the emotional preset's position.  The emotional-view button has not been
    pressed. *)
Definition draggedToEmotionalView : App :=
  handle (PointerControl
            (lookAt (mkCamera (preset_position emotionalPreset) (mkVector3 0 0 (-1)))
                    (mkVector3 0 0 0)))
         (handle (AnimationFrame 2000) (newApp 0 false)).

(** The application built without a model loader (placeholders in place),
    the emotional-view button pressed at once. *)
Definition alignedAtStart : App :=
  handle (Click BtnEmotionalView 0) (newApp 0 false).

(** The camera left by the pointer controller [d] units behind the emotional
    preset's position, right after construction. *)
Definition draggedBehind (d : R) : App :=
  handle (PointerControl (mkCamera (mkVector3 0 5 (20 + d)) (mkVector3 0 0 (-1))))
         (newApp 0 false).

(** ** Further predicates *)

(** A character's place: on the line y = 1, z = 0, with x in a range. *)
Definition characterPlace (lo hi : R) (v : Vector3) : Prop :=
  lo <= x v <= hi /\ y v = 1 /\ z v = 0.

(** Mother and child, when present, are on their sides of the bridge. *)
Definition placesOk (mo ch : option ref) (h : Store) : Prop :=
  (forall m, mo = Some m -> characterPlace (-12) (-2) (h m)) /\
  (forall c, ch = Some c -> characterPlace 2 12 (h c)).

(** A pending character tween captured a start on the character's side. *)
Definition stagedClosure (mo ch : option ref) (cb : Callback) : Prop :=
  match cb with
  | CharacterAnimate character start _ _ _ =>
      (mo = Some character -> -12 <= x start <= -2) /\
      (ch = Some character -> 2 <= x start <= 12)
  | _ => True
  end.

Definition staged (w : App) : Prop :=
  placesOk (mother (sceneManager w)) (child (sceneManager w)) (store w) /\
  Forall (stagedClosure (mother (sceneManager w)) (child (sceneManager w)))
         (rafQueue w).

(** No character tween is pending. *)
Definition isCharacterAnimate (cb : Callback) : bool :=
  match cb with CharacterAnimate _ _ _ _ _ => true | _ => false end.

Definition noCharacterTween (q : list Callback) : Prop :=
  Forall (fun cb => isCharacterAnimate cb = false) q.

(** The characters that are present stand where [setMother] and [setChild]
    put them, and no character tween is pending. *)
Definition waitingOnPlatforms (w : App) : Prop :=
  noCharacterTween (rafQueue w) /\
  (forall m, mother (sceneManager w) = Some m -> store w m = mkVector3 (-12) 1 0) /\
  (forall c, child (sceneManager w) = Some c -> store w c = mkVector3 12 1 0).

(** [w'] at clock reading [clock'] is reached from [w] at [clock] by events
    that are not clicks on the trigger button, the clock not running
    backwards. *)
Inductive quietlyAfter (clock : R) (w : App) : R -> App -> Prop :=
| quietly_here : quietlyAfter clock w clock w
| quietly_timed : forall clock' now e w',
    quietlyAfter clock w clock' w' ->
    eventTime e = Some now -> clock' <= now ->
    (forall t, e <> Click BtnTriggerBridge t) ->
    quietlyAfter clock w now (handle e w')
| quietly_untimed : forall clock' e w',
    quietlyAfter clock w clock' w' ->
    eventTime e = None ->
    quietlyAfter clock w clock' (handle e w').


(** The pending runs of [App.animate]. *)
Definition isAppAnimate (cb : Callback) : bool :=
  match cb with AppAnimate => true | _ => false end.

Definition renderLoops (q : list Callback) : nat :=
  List.length (filter isAppAnimate q).


(** [cb] is in [q], and no closure after it in [q] writes to [r]. *)
Definition lastWriter (r : ref) (cb : Callback) (q : list Callback) : Prop :=
  exists before after,
    q = before ++ cb :: after /\
    (forall cb', In cb' after -> writesTo cb' <> Some r).

(** A pending closure gives way on mesh [r] by [deadline]: if it writes to
    [r], it is a segment tween along z alone that has run its time by then. *)
Definition yieldsBy (r : ref) (deadline : R) (cb : Callback) : Prop :=
  match cb with
  | CharacterAnimate character _ _ _ _ => character <> r
  | BridgeSegmentAnimate segment _ target startTime =>
      segment = r ->
      Target.x target = None /\ Target.y target = None /\
      startTime + 1000 <= deadline
  | _ => True
  end.

(** The segment tweens of a state whose clock has reached [clock]: they move
    along z alone and were started no later than [clock]. *)
Definition segmentClosure (clock : R) (cb : Callback) : Prop :=
  match cb with
  | BridgeSegmentAnimate _ _ target startTime =>
      Target.x target = None /\ Target.y target = None /\ startTime <= clock
  | _ => True
  end.

(** The tween of segment [r] from [start] to z = [goalz] that started at
    [startTime] is the last closure to write to [r] in each frame, the others
    give way by its deadline, and [r] is at x = [px], y = [py]. *)
Definition racing (r : ref) (start : Vector3) (goalz startTime px py : R) (w : App)
  : Prop :=
  lastWriter r (BridgeSegmentAnimate r start (Target.mk None None (Some goalz))
                  startTime)
             (rafQueue w) /\
  Forall (yieldsBy r (startTime + 1000)) (rafQueue w) /\
  x (store w r) = px /\ y (store w r) = py.

(** The same, while the closures [l] of a frame at clock reading [now] are
    still to run. *)
Definition racingMidFrame (r : ref) (start : Vector3) (goalz startTime px py : R)
  (now : R) (l : list Callback) (a : App) : Prop :=
  let cb := BridgeSegmentAnimate r start (Target.mk None None (Some goalz))
              startTime in
  Forall (yieldsBy r (startTime + 1000)) l /\
  Forall (yieldsBy r (startTime + 1000)) (rafQueue a) /\
  x (store a r) = px /\ y (store a r) = py /\
  (startTime + 1000 <= now ->
   forall cb', In cb' (rafQueue a) -> writesTo cb' <> Some r) /\
  (lastWriter r cb l
   \/ ((forall cb', In cb' l -> writesTo cb' <> Some r) /\
       (now < startTime + 1000 -> lastWriter r cb (rafQueue a)) /\
       (startTime + 1000 <= now -> z (store a r) = goalz))).


(** ** LightingManager *)

Module Lighting.

Inductive LightKind : Type :=
| AmbientLight
| PointLight (distance : R)
| DirectionalLight.

(** A light: [color] is what [light.color.getHex()] gives, the hex number the
    light was made with; [mapSize] is the width and height of the shadow map,
    for the lights that have one.  The lights are also added to the scene,
    which nothing here reads back. *)
Record Light : Type := mkLight
  { kind : LightKind;
    color : Z;
    intensity : R;
    light_position : Vector3;
    castShadow : bool;
    mapSize : option (Z * Z) }.

Record LightingManager : Type := mkLightingManager { lights : list Light }.

Definition push (light : Light) (lm : LightingManager) : LightingManager :=
  mkLightingManager (lights lm ++ [light]).

Definition init (lm : LightingManager) : LightingManager :=
  let ambientLight :=
    mkLight AmbientLight 0xffffff%Z 0.4 (mkVector3 0 0 0) false None in
  let lm1 := push ambientLight lm in
  let warmLight :=
    mkLight (PointLight 30) 0xffb6c1%Z 1.2 (mkVector3 (-8) 6 5) true
            (Some (2048%Z, 2048%Z)) in
  let lm2 := push warmLight lm1 in
  let coolLight :=
    mkLight (PointLight 35) 0xadd8e6%Z 0.8 (mkVector3 8 5 (-10)) true
            (Some (2048%Z, 2048%Z)) in
  let lm3 := push coolLight lm2 in
  let topLight :=
    mkLight DirectionalLight 0xffffff%Z 0.3 (mkVector3 0 15 0) true
            (Some (2048%Z, 2048%Z)) in
  push topLight lm3.

(** [new LightingManager(scene)] *)
Definition constructor : LightingManager := init (mkLightingManager []).

(** [Array.prototype.find], by the place of the element found: the object
    found is the one in the array, so that writing to it writes there. *)
Fixpoint findIndex (p : Light -> bool) (array : list Light) : option nat :=
  match array with
  | [] => None
  | light :: rest =>
      if p light then Some 0%nat
      else match findIndex p rest with
           | Some i => Some (S i)
           | None => None
           end
  end.

(** [light.intensity = intensity] on the element at place [i]. *)
Fixpoint assignIntensity (i : nat) (intensity : R) (array : list Light)
  : list Light :=
  match array, i with
  | [], _ => []
  | light :: rest, O =>
      mkLight (kind light) (color light) intensity (light_position light)
              (castShadow light) (mapSize light) :: rest
  | light :: rest, S j => light :: assignIntensity j intensity rest
  end.

Definition setLightIntensity (lightType : string) (intensity : R)
  (lm : LightingManager) : LightingManager :=
  if String.eqb lightType "warm" then
    match findIndex (fun light => Z.eqb (color light) 0xffb6c1%Z) (lights lm) with
    | Some warmLight =>
        mkLightingManager (assignIntensity warmLight intensity (lights lm))
    | None => lm
    end
  else if String.eqb lightType "cool" then
    match findIndex (fun light => Z.eqb (color light) 0xadd8e6%Z) (lights lm) with
    | Some coolLight =>
        mkLightingManager (assignIntensity coolLight intensity (lights lm))
    | None => lm
    end
  else lm.

Definition getLights (lm : LightingManager) : list Light := lights lm.

(** [addPointLight(position, color, intensity = 1, distance = 30)]: an
    argument left out is [None]. *)
Definition addPointLight (position : Vector3) (color : Z)
  (intensity distance : option R) (lm : LightingManager)
  : Light * LightingManager :=
  let intensity := match intensity with Some v => v | None => 1 end in
  let distance := match distance with Some v => v | None => 30 end in
  let light :=
    mkLight (PointLight distance) color intensity position true
            (Some (1024%Z, 1024%Z)) in
  (light, push light lm).

(** The calls a user of the manager can make. *)
Inductive Call : Type :=
| CallSetLightIntensity (lightType : string) (intensity : R)
| CallAddPointLight (position : Vector3) (color : Z)
    (intensity distance : option R).

Definition call (c : Call) (lm : LightingManager) : LightingManager :=
  match c with
  | CallSetLightIntensity lightType intensity =>
      setLightIntensity lightType intensity lm
  | CallAddPointLight position color intensity distance =>
      snd (addPointLight position color intensity distance lm)
  end.

Definition calls (cs : list Call) (lm : LightingManager) : LightingManager :=
  fold_left (fun a c => call c a) cs lm.

(** Everything about a light but its intensity. *)
Definition sameButIntensity (a b : Light) : Prop :=
  kind a = kind b /\ color a = color b /\
  light_position a = light_position b /\
  castShadow a = castShadow b /\ mapSize a = mapSize b.

End Lighting.


(** ** Saving the view as an image *)

Module SaveImage.

(** The canvas of a renderer: [toDataURL mime quality] is the data URL, or
    nothing when the call throws. *)
Record Canvas : Type := mkCanvas
  { toDataURL : string -> option R -> option string }.

(** A renderer, as far as [saveCurrentView] looks at it. *)
Record Renderer : Type := mkRenderer { domElement : option Canvas }.

(** The download link, once it has been clicked. *)
Record Link : Type := mkLink { href : string; download : string }.

(** What the function leaves behind: the links clicked, in order, each to be
    taken out of the document 100 ms later, and the console lines. *)
Record Page : Type := mkPage
  { clicked : list Link;
    console : list string }.

(** What a call returns: nothing, [null] or the file name. *)
Inductive Returned : Type :=
| Undefined
| Null
| FileName (filename : string).

(** [s.replace(/[:.]/g, '-')]; the two characters are single bytes in the
    encoding of the string literals here and part of no longer sequence. *)
Fixpoint replaceColonsAndDots (s : string) : string :=
  match s with
  | EmptyString => EmptyString
  | String c rest =>
      String (if Ascii.eqb c ":"%char then "-"%char
              else if Ascii.eqb c "."%char then "-"%char else c)
             (replaceColonsAndDots rest)
  end.

(** The name made from the time stamp [now], which is what
    [new Date().toISOString()] gives. *)
Definition generatedName (extension now : string) : string :=
  let timestamp := replaceColonsAndDots now in
  ("情境折影-" ++ timestamp ++ "." ++ extension)%string.

(** The body shared by the two functions. *)
Definition save (mime : string) (quality : option R) (extension : string)
  (renderer : option Renderer) (filename : option string) (now : string)
  (page : Page) : Returned * Page :=
  match renderer with
  | None =>
      (Undefined,
       mkPage (clicked page) (console page ++ ["渲染器或渲染器 DOM 元素不存在"%string]))
  | Some r =>
      match domElement r with
      | None =>
          (Undefined,
           mkPage (clicked page)
                  (console page ++ ["渲染器或渲染器 DOM 元素不存在"%string]))
      | Some canvas =>
          match toDataURL canvas mime quality with
          | None =>
              (Null, mkPage (clicked page) (console page ++ ["保存图像失败:"%string]))
          | Some dataURL =>
              (* if (!filename): no file name, or the empty one *)
              let filename :=
                match filename with
                | None => generatedName extension now
                | Some given =>
                    if String.eqb given EmptyString
                    then generatedName extension now
                    else given
                end in
              let link := mkLink dataURL filename in
              (FileName filename,
               mkPage (clicked page ++ [link])
                      (console page ++ [("场景已保存为: " ++ filename)%string]))
          end
      end
  end.

Definition saveCurrentView (renderer : option Renderer) (filename : option string)
  (now : string) (page : Page) : Returned * Page :=
  save "image/png" None "png" renderer filename now page.

(** [saveCurrentViewAsJPG(renderer, filename = null, quality = 0.9)] *)
Definition saveCurrentViewAsJPG (renderer : option Renderer)
  (filename : option string) (quality : option R) (now : string) (page : Page)
  : Returned * Page :=
  let quality := match quality with Some q => q | None => 0.9 end in
  save "image/jpeg" (Some quality) "jpg" renderer filename now page.

(** How often the character [c] occurs in [s]. *)
Fixpoint occurrences (c : Ascii.ascii) (s : string) : nat :=
  match s with
  | EmptyString => 0%nat
  | String c' rest =>
      ((if Ascii.eqb c' c then 1 else 0) + occurrences c rest)%nat
  end.

(** [!filename] *)
Definition missing (filename : option string) : bool :=
  match filename with
  | None => true
  | Some s => String.eqb s EmptyString
  end.

(** The call has clicked one link to [dataURL] with the name [name], logged
    the name and returned it. *)
Definition savedAs (dataURL name : string) (page : Page)
  (result : Returned * Page) : Prop :=
  result = (FileName name,
            mkPage (clicked page ++ [mkLink dataURL name])
                   (console page ++ [("场景已保存为: " ++ name)%string])).

(** The name is the one the caller gave or, without one, the name made from
    the time stamp, which has no colon and a single dot. *)
Definition namedFor (extension : string) (filename : option string)
  (now name : string) : Prop :=
  (missing filename = false -> filename = Some name) /\
  (missing filename = true ->
   name = generatedName extension now /\
   occurrences ":"%char name = 0%nat /\
   occurrences "."%char name = 1%nat).

End SaveImage.


(** ** ObjectsManager *)

Module Objects.

Inductive Geometry : Type :=
| CylinderGeometry (radiusTop radiusBottom height : R) (radialSegments : nat)
| BoxGeometry (width height depth : R).

(** A Phong material, with the defaults of the library for what the code
    leaves out (opaque, opacity 1). *)
Record Material : Type := mkMaterial
  { color : Z;
    transparent : bool;
    opacity : R;
    needsUpdate : bool }.

(** An object of the scene graph: a mesh, or a group with children (what a
    loaded file's [scene] is). *)
#[warnings="-register-all"] Inductive Object3D : Type :=
| Mesh (geometry : Geometry) (material : option Material)
       (castShadow receiveShadow : bool)
| Group (children : list Object3D).

(** What reading a property of the [models] object gives: [undefined],
    [null], an object stored there, or what every object inherits under that
    name from [Object.prototype] (a function, or the prototype itself under
    [__proto__]). *)
Inductive Value : Type :=
| Undefined
| Null
| Object (o : Object3D)
| Inherited.

(** The calls made to the callbacks passed in, and the console lines. *)
Inductive Called : Type :=
| OnLoad (model : Object3D) (type : string)
| OnError.

Record ObjectsManager : Type := mkObjectsManager
  { models : string -> Value;
    called : list Called;
    console : list string }.

(** [new ObjectsManager(scene)]: [{ mother: null, child: null }], read
    through its prototype chain. *)
Definition constructor : ObjectsManager :=
  mkObjectsManager
    (fun key => if String.eqb key "mother" then Null
                else if String.eqb key "child" then Null
                else if inheritedProperty key then Inherited
                else Undefined)
    [] [].

Definition createPlaceholder (type : string) : Object3D :=
  if String.eqb type "mother" then
    Mesh (CylinderGeometry 0.3 0.3 1.5 8)
         (Some (mkMaterial 0xffb6c1%Z true 0.9 false)) true false
  else if String.eqb type "child" then
    Mesh (CylinderGeometry 0.25 0.25 1.2 8)
         (Some (mkMaterial 0xffc0cb%Z true 0.9 false)) true false
  else
    Mesh (BoxGeometry 0.5 1 0.5)
         (Some (mkMaterial 0x888888%Z false 1 false)) true false.

(** [model.traverse(child => ...)] with the callback of [loadModel]: every
    mesh of the tree casts and receives shadows, and its material, if it has
    one, is marked for update. *)
Fixpoint traverseShadows (o : Object3D) : Object3D :=
  match o with
  | Mesh geometry material _ _ =>
      Mesh geometry
           (match material with
            | Some m => Some (mkMaterial (color m) (transparent m) (opacity m) true)
            | None => None
            end)
           true true
  | Group children => Group (map traverseShadows children)
  end.

(** [this.models[type] = value].  Under any name but [__proto__] this
    makes or overwrites an own property, which hides an inherited one.
    Under [__proto__] it replaces the prototype of [models] by the object
    assigned: what [models] then answers depends on the members of that
    object, which are not represented, so this case is left without a
    result. *)
Definition assign (type : string) (value : Value) (models : string -> Value)
  : option (string -> Value) :=
  if String.eqb type "__proto__" then None
  else Some (fun key => if String.eqb key type then value else models key).

(** What the loader reports back for one request. *)
Inductive Outcome : Type :=
| Loaded (scene : Object3D)
| Progress (loaded total : R)
| Failed.

(** [loadModel(loader, path, type, onLoad, onError)] once the loader reports
    [outcome]; [onLoad] and [onError] say whether the caller passed the
    callback.  The console lines are kept without the percentage and the
    error object. *)
Definition loadModel (type : string) (onLoad onError : bool) (outcome : Outcome)
  (om : ObjectsManager) : option ObjectsManager :=
  match outcome with
  | Loaded scene =>
      let model := traverseShadows scene in
      match assign type (Object model) (models om) with
      | Some models' =>
          Some (mkObjectsManager models'
                  (if onLoad then called om ++ [OnLoad model type] else called om)
                  (console om))
      | None => None
      end
  | Progress loaded total =>
      Some (mkObjectsManager (models om) (called om)
              (console om ++ [("加载 " ++ type ++ " 模型")%string]))
  | Failed =>
      let placeholder := createPlaceholder type in
      match assign type (Object placeholder) (models om) with
      | Some models' =>
          Some (mkObjectsManager models'
                  (if onError then called om ++ [OnError] else called om)
                  (console om ++ [("加载 " ++ type ++ " 模型失败:")%string]))
      | None => None
      end
  end.

Definition getModel (type : string) (om : ObjectsManager) : Value :=
  models om type.

(** [this.models[type] !== null] *)
Definition isModelLoaded (type : string) (om : ObjectsManager) : bool :=
  match models om type with
  | Null => false
  | _ => true
  end.

(** One report of the loader, for the request made with these arguments. *)
Record Report : Type := mkReport
  { report_type : string;
    report_onLoad : bool;
    report_onError : bool;
    report_outcome : Outcome }.

Definition deliver (r : Report) (om : ObjectsManager) : option ObjectsManager :=
  loadModel (report_type r) (report_onLoad r) (report_onError r)
            (report_outcome r) om.

Fixpoint deliverAll (rs : list Report) (om : ObjectsManager)
  : option ObjectsManager :=
  match rs with
  | [] => Some om
  | r :: rest =>
      match deliver r om with
      | Some om' => deliverAll rest om'
      | None => None
      end
  end.

(** The report ends a request for [type], one way or the other. *)
Definition settles (type : string) (r : Report) : bool :=
  String.eqb (report_type r) type &&
  match report_outcome r with
  | Progress _ _ => false
  | _ => true
  end.

(** Every mesh of the tree casts and receives shadows. *)
Fixpoint shadowed (o : Object3D) : Prop :=
  match o with
  | Mesh _ _ castShadow receiveShadow =>
      castShadow = true /\ receiveShadow = true
  | Group children =>
      (fix all (l : list Object3D) : Prop :=
         match l with
         | [] => True
         | child :: rest => shadowed child /\ all rest
         end) children
  end.

(** The tree without its shadow flags and update marks. *)
Fixpoint shape (o : Object3D) : Object3D :=
  match o with
  | Mesh geometry material _ _ =>
      Mesh geometry
           (match material with
            | Some m => Some (mkMaterial (color m) (transparent m) (opacity m) false)
            | None => None
            end)
           false false
  | Group children => Group (map shape children)
  end.

End Objects.


(** ** Starting the application *)

Module Boot.

(** The globals [initApp] and [new App()] look at; the page's scripts set
    them. *)
Record Window : Type := mkWindow
  { THREE : bool;
    THREE_LOADED : bool;
    GLTFLoader : bool }.

(** The page: its globals, whether the one-time listener for 'three-loaded'
    is registered, when the fallback timer is due, the applications
    constructed so far and the console. *)
Record Page : Type := mkPage
  { window : Window;
    threeLoadedListener : bool;
    fallbackTimer : option R;
    apps : list App;
    console : list string }.

Definition log (msg : string) (p : Page) : Page :=
  mkPage (window p) (threeLoadedListener p) (fallbackTimer p) (apps p)
         (console p ++ [msg]).

(** [new App()] at clock reading [now].  Without the library the
    constructor throws when it makes the renderer, and whoever called it
    stops there. *)
Definition construct (now : R) (p : Page) : option Page :=
  if THREE (window p)
  then Some (mkPage (window p) (threeLoadedListener p) (fallbackTimer p)
                    (apps p ++ [newApp now (GLTFLoader (window p))])
                    (console p))
  else None.

(** [initApp], the listener of 'DOMContentLoaded'. *)
Definition initApp (now : R) (p : Page) : Page :=
  if THREE (window p) && THREE_LOADED (window p) then
    let p1 := log "初始化情境折影..." p in
    match construct now p1 with
    | Some p2 => log "应用初始化完成" p2
    | None => p1
    end
  else
    mkPage (window p) true (Some (now + 2000)) (apps p) (console p).

Inductive Event : Type :=
| ScriptRuns (globals : Window)
| ThreeLoaded (now : R)
| TimerFires (now : R).

Definition handle (e : Event) (p : Page) : Page :=
  match e with
  | ScriptRuns globals =>
      mkPage globals (threeLoadedListener p) (fallbackTimer p) (apps p)
             (console p)
  | ThreeLoaded now =>
      if threeLoadedListener p then
        (* { once: true }: the listener is taken off before it runs *)
        let p0 := mkPage (window p) false (fallbackTimer p) (apps p) (console p) in
        let p1 := log "初始化情境折影..." p0 in
        match construct now p1 with
        | Some p2 => log "应用初始化完成" p2
        | None => p1
        end
      else p
  | TimerFires now =>
      match fallbackTimer p with
      | Some due =>
          if Rltb now due then p
          else
            let p0 := mkPage (window p) (threeLoadedListener p) None (apps p)
                             (console p) in
            if THREE (window p0) then
              let p1 := log "初始化情境折影（延迟）..." p0 in
              match construct now p1 with
              | Some p2 => log "应用初始化完成" p2
              | None => p1
              end
            else log "THREE.js 加载失败，请检查网络连接" p0
      | None => p
      end
  end.

Definition run (events : list Event) (p : Page) : Page :=
  fold_left (fun a e => handle e a) events p.

(** The page before 'DOMContentLoaded'. *)
Definition loading (globals : Window) : Page :=
  mkPage globals false None [] [].

(** The applications there are, and those the listener and the timer may
    still construct. *)
Definition budget (p : Page) : nat :=
  (List.length (apps p)
   + (if threeLoadedListener p then 1 else 0)
   + (match fallbackTimer p with Some _ => 1 | None => 0 end))%nat.

End Boot.


(** ** The fallback pointer controller *)

Module BasicControls.

(** [THREE.Spherical] and the two conversions of the 3D library that the
    controller calls. *)
Record Spherical : Type := mkSpherical { radius : R; phi : R; theta : R }.

(** [Math.atan2(y, x)] over the reals (signed zeros aside). *)
Definition atan2 (y x : R) : R :=
  if Rlt_dec 0 x then atan (y / x)
  else if Rlt_dec x 0 then
    if Rle_dec 0 y then atan (y / x) + PI else atan (y / x) - PI
  else if Rlt_dec 0 y then PI / 2
  else if Rlt_dec y 0 then - PI / 2
  else 0.

(** [MathUtils.clamp(value, min, max)] *)
Definition clamp (value min max : R) : R := Rmax min (Rmin max value).

(** [spherical.setFromVector3(v)] *)
Definition setFromVector3 (v : Vector3) : Spherical :=
  let radius := sqrt (x v * x v + y v * y v + z v * z v) in
  if Req_dec_T radius 0 then mkSpherical radius 0 0
  else mkSpherical radius (acos (clamp (y v / radius) (-1) 1))
                   (atan2 (x v) (z v)).

(** [vector.setFromSpherical(s)] *)
Definition setFromSpherical (s : Spherical) : Vector3 :=
  let sinPhiRadius := sin (phi s) * radius s in
  mkVector3 (sinPhiRadius * sin (theta s))
            (cos (phi s) * radius s)
            (sinPhiRadius * cos (theta s)).

Record MouseEvent : Type := mkMouseEvent { clientX : R; clientY : R }.

(** The two variables the listeners of [setupBasicControls] share, and the
    camera they move. *)
Record State : Type := mkState
  { isDragging : bool;
    previousMousePosition : R * R;
    camera : Camera }.

(** [setupBasicControls] on a camera. *)
Definition setupBasicControls (c : Camera) : State := mkState false (0, 0) c.

Definition mousedown (e : MouseEvent) (s : State) : State :=
  mkState true (clientX e, clientY e) (camera s).

Definition mousemove (e : MouseEvent) (s : State) : State :=
  if negb (isDragging s) then s
  else
    let deltaX := clientX e - fst (previousMousePosition s) in
    let deltaY := clientY e - snd (previousMousePosition s) in
    let spherical := setFromVector3 (position (camera s)) in
    let theta := theta spherical - deltaX * 0.01 in
    let phi := phi spherical + deltaY * 0.01 in
    let phi := Rmax 0.1 (Rmin (PI - 0.1) phi) in
    let moved :=
      setPosition (camera s)
        (setFromSpherical (mkSpherical (radius spherical) phi theta)) in
    mkState (isDragging s) (clientX e, clientY e)
            (lookAt moved (mkVector3 0 0 0)).

Definition mouseup (s : State) : State :=
  mkState false (previousMousePosition s) (camera s).

(** The 'wheel' listener; [deltaY] is the event's. *)
Definition wheel (deltaY : R) (s : State) : State :=
  let delta := deltaY * 0.01 in
  let direction := direction (camera s) in
  mkState (isDragging s) (previousMousePosition s)
          (setPosition (camera s)
             (add (position (camera s)) (multiplyScalar direction delta))).

Inductive Event : Type :=
| MouseDown (e : MouseEvent)
| MouseMove (e : MouseEvent)
| MouseUp
| Wheel (deltaY : R).

Definition handle (e : Event) (s : State) : State :=
  match e with
  | MouseDown e => mousedown e s
  | MouseMove e => mousemove e s
  | MouseUp => mouseup s
  | Wheel deltaY => wheel deltaY s
  end.

Definition run (events : list Event) (s : State) : State :=
  fold_left (fun a e => handle e a) events s.

Definition isWheel (e : Event) : bool :=
  match e with Wheel _ => true | _ => false end.

End BasicControls.


(** ** Temporary elements of the page *)

Module Dom.

(** The two kinds of element the code creates: the download link of
    [saveCurrentView] and the message of [showTemporaryMessage], whose
    [opacity] is set when it starts to fade. *)
Inductive Element : Type :=
| Anchor (href download : string)
| Div (textContent : string) (opacity : option string).

(** A child of [document.body]; [node_id] stands for the identity of the
    object. *)
Record Node : Type := mkNode { node_id : nat; element : Element }.

(** What a [setTimeout] callback of the code does, with the element its
    closure holds. *)
Inductive TimerAction : Type :=
| RemoveLink (link : nat)
| FadeHint (tempHint : nat)
| RemoveHint (tempHint : nat).

Record Timer : Type := mkTimer { due : R; action : TimerAction }.

(** [errors] counts the exceptions that [removeChild] has thrown. *)
Record Document : Type := mkDocument
  { body : list Node;
    timers : list Timer;
    nextId : nat;
    errors : nat }.

Definition appendChild (e : Element) (doc : Document) : nat * Document :=
  (nextId doc,
   mkDocument (body doc ++ [mkNode (nextId doc) e]) (timers doc)
              (S (nextId doc)) (errors doc)).

Definition setTimeout (action : TimerAction) (delay now : R) (doc : Document)
  : Document :=
  mkDocument (body doc) (timers doc ++ [mkTimer (now + delay) action])
             (nextId doc) (errors doc).

(** [body.removeChild(node)]: nothing when the node is not a child (the
    call throws). *)
Fixpoint removeNode (id : nat) (children : list Node) : option (list Node) :=
  match children with
  | [] => None
  | n :: rest =>
      if Nat.eqb (node_id n) id then Some rest
      else match removeNode id rest with
           | Some rest' => Some (n :: rest')
           | None => None
           end
  end.

Definition removeChild (id : nat) (doc : Document) : Document :=
  match removeNode id (body doc) with
  | Some children => mkDocument children (timers doc) (nextId doc) (errors doc)
  | None => mkDocument (body doc) (timers doc) (nextId doc) (S (errors doc))
  end.

(** [tempHint.style.opacity = '0'] *)
Definition fade (id : nat) (children : list Node) : list Node :=
  map (fun n =>
         if Nat.eqb (node_id n) id then
           match element n with
           | Div textContent _ => mkNode (node_id n) (Div textContent (Some "0"%string))
           | Anchor _ _ => n
           end
         else n)
      children.

(** The part of [saveCurrentView] that touches the document, for the link
    the function has made, if it got that far. *)
Definition saveCurrentView (renderer : option SaveImage.Renderer)
  (filename : option string) (iso : string) (now : R) (doc : Document)
  : Document :=
  match SaveImage.clicked
          (snd (SaveImage.saveCurrentView renderer filename iso
                  (SaveImage.mkPage [] []))) with
  | link :: _ =>
      let (id, doc1) :=
        appendChild (Anchor (SaveImage.href link) (SaveImage.download link)) doc in
      setTimeout (RemoveLink id) 100 now doc1
  | [] => doc
  end.

(** [showTemporaryMessage(message, duration = 3000)] *)
Definition showTemporaryMessage (message : string) (duration : option R)
  (now : R) (doc : Document) : Document :=
  let duration := match duration with Some d => d | None => 3000 end in
  let (tempHint, doc1) := appendChild (Div message None) doc in
  setTimeout (FadeHint tempHint) duration now doc1.

(** The click listener that [App.setupSaveButton] registers. *)
Definition clickSaveMemory (renderer : option SaveImage.Renderer) (iso : string)
  (now : R) (doc : Document) : Document :=
  showTemporaryMessage "记忆已保存" (Some 2000) now
    (saveCurrentView renderer None iso now doc).

(** The timer at place [n], taken off the list. *)
Fixpoint takeTimer (n : nat) (pending : list Timer)
  : option (Timer * list Timer) :=
  match pending, n with
  | [], _ => None
  | t :: rest, O => Some (t, rest)
  | t :: rest, S k =>
      match takeTimer k rest with
      | Some (t', rest') => Some (t', t :: rest')
      | None => None
      end
  end.

Definition runTimer (action : TimerAction) (now : R) (doc : Document) : Document :=
  match action with
  | RemoveLink link => removeChild link doc
  | FadeHint tempHint =>
      setTimeout (RemoveHint tempHint) 500 now
        (mkDocument (fade tempHint (body doc)) (timers doc) (nextId doc)
                    (errors doc))
  | RemoveHint tempHint => removeChild tempHint doc
  end.

Inductive Event : Type :=
| ClickSaveMemory (renderer : option SaveImage.Renderer) (iso : string) (now : R)
| SaveCurrentView (renderer : option SaveImage.Renderer)
    (filename : option string) (iso : string) (now : R)
| ShowTemporaryMessage (message : string) (duration : option R) (now : R)
| TimerFires (n : nat) (now : R).

(** A timer runs no earlier than it is due; which of the due timers runs is
    left open. *)
Definition handle (e : Event) (doc : Document) : Document :=
  match e with
  | ClickSaveMemory renderer iso now => clickSaveMemory renderer iso now doc
  | SaveCurrentView renderer filename iso now =>
      saveCurrentView renderer filename iso now doc
  | ShowTemporaryMessage message duration now =>
      showTemporaryMessage message duration now doc
  | TimerFires n now =>
      match takeTimer n (timers doc) with
      | Some (t, rest) =>
          if Rltb now (due t) then doc
          else runTimer (action t) now
                 (mkDocument (body doc) rest (nextId doc) (errors doc))
      | None => doc
      end
  end.

Definition run (events : list Event) (doc : Document) : Document :=
  fold_left (fun a e => handle e a) events doc.

(** The page with the children [children] and nothing temporary. *)
Definition page (children : list Node) (firstFreeId : nat) : Document :=
  mkDocument children [] firstFreeId 0.

Definition target (t : Timer) : nat :=
  match action t with
  | RemoveLink link => link
  | FadeHint tempHint => tempHint
  | RemoveHint tempHint => tempHint
  end.

(** The document holds the children of the page and, after them, one
    temporary element for each pending timer, the one the timer will fade
    or remove. *)
Definition tidy (children : list Node) (firstFreeId : nat) (doc : Document)
  : Prop :=
  exists temps,
    body doc = children ++ temps /\
    errors doc = 0%nat /\
    NoDup (map node_id temps) /\
    NoDup (map target (timers doc)) /\
    (forall id, In id (map node_id temps) <-> In id (map target (timers doc))) /\
    (forall id, In id (map node_id temps) -> (firstFreeId <= id < nextId doc)%nat) /\
    (firstFreeId <= nextId doc)%nat.

End Dom.

(** ** The last sample of a tween in binary64 *)

Module Binary64.

(** JavaScript numbers are binary64 floating-point numbers.  The
    definitions here repeat, over them, what the closure of
    [animateToPosition] computes for the camera position in its last run. *)
Record Vector3 : Type := mkVector3 { x : float; y : float; z : float }.

(** [Math.cos(1 * Math.PI)]: the product is [Math.PI] itself and its cosine
    is -1. *)
Definition cosPI : float := (-1)%float.

(** [0.5 - 0.5 * Math.cos(progress * Math.PI)] at
    [progress = Math.min(elapsed / duration, 1) = 1]. *)
Definition easeProgressAtEnd : float := (0.5 - 0.5 * cosPI)%float.

(** [Vector3.lerpVectors(v1, v2, alpha)] *)
Definition lerpVectors (v1 v2 : Vector3) (alpha : float) : Vector3 :=
  {| x := (x v1 + (x v2 - x v1) * alpha)%float;
     y := (y v1 + (y v2 - y v1) * alpha)%float;
     z := (z v1 + (z v2 - z v1) * alpha)%float |}.

(** The position the last run of the closure writes. *)
Definition lastSample (startPosition targetPosition : Vector3) : Vector3 :=
  lerpVectors startPosition targetPosition easeProgressAtEnd.

Definition motherPosition : Vector3 := mkVector3 (-15) 8 12.
Definition childPosition : Vector3 := mkVector3 15 6 10.
Definition emotionalPosition : Vector3 := mkVector3 0 5 20.

Definition presetPositions : list Vector3 :=
  [motherPosition; childPosition; emotionalPosition].

(** Where a transition can start when only the buttons move the camera: at
    the origin, where the camera is made, or at a preset's position. *)
Definition buttonStarts : list Vector3 := mkVector3 0 0 0 :: presetPositions.

(** A camera below the scene, where the pointer can take it. *)
#[warnings="-inexact-float"] Definition draggedBelow : Vector3 := mkVector3 0 (-3.3) 0.

End Binary64.

(** * Properties *)

(** ** Arithmetic of the tweens *)

Lemma Rltb_true (a b : R) : Rltb a b = true <-> a < b.
Proof.
  unfold Rltb. destruct (Rlt_dec a b) as [H | H]; split; intro K.
  - exact H.
  - reflexivity.
  - discriminate K.
  - contradiction.
Qed.

Lemma Rltb_false (a b : R) : Rltb a b = false <-> b <= a.
Proof.
  unfold Rltb. destruct (Rlt_dec a b) as [H | H]; split; intro K.
  - discriminate K.
  - lra.
  - lra.
  - reflexivity.
Qed.

Lemma easeProgress_0 : easeProgress 0 = 0.
Proof. unfold easeProgress. rewrite Rmult_0_l, cos_0. lra. Qed.

Lemma easeProgress_1 : easeProgress 1 = 1.
Proof. unfold easeProgress. rewrite Rmult_1_l, cos_PI. lra. Qed.

Lemma progressAt_start (duration now : R) :
  0 < duration -> progressAt now duration now = 0.
Proof.
  intro Hd. unfold progressAt.
  replace ((now - now) / duration) with 0 by (field; lra).
  apply Rmin_left. lra.
Qed.

Lemma progressAt_done (startTime duration now : R) :
  0 < duration -> startTime + duration <= now ->
  progressAt startTime duration now = 1.
Proof.
  intros Hd Hn. unfold progressAt. apply Rmin_right.
  apply Rmult_le_reg_r with duration; [exact Hd |].
  unfold Rdiv. rewrite Rmult_assoc, Rinv_l by lra. lra.
Qed.

Lemma progressAt_le_1 (startTime duration now : R) :
  progressAt startTime duration now <= 1.
Proof. unfold progressAt. apply Rmin_r. Qed.

Lemma progressAt_early (startTime duration now : R) :
  0 < duration -> now < startTime + duration ->
  progressAt startTime duration now < 1.
Proof.
  intros Hd Hn. unfold progressAt.
  apply Rle_lt_trans with ((now - startTime) / duration); [apply Rmin_l |].
  apply Rmult_lt_reg_r with duration; [exact Hd |].
  unfold Rdiv. rewrite Rmult_assoc, Rinv_l by lra. lra.
Qed.

Lemma lerpVectors_1 (v1 v2 : Vector3) : lerpVectors v1 v2 1 = v2.
Proof.
  destruct v1, v2. unfold lerpVectors. simpl. f_equal; lra.
Qed.

Lemma lerpVectors_0 (v1 v2 : Vector3) : lerpVectors v1 v2 0 = v1.
Proof.
  destruct v1, v2. unfold lerpVectors. simpl. f_equal; lra.
Qed.

Lemma tweenAxis_done (goal start current : R) :
  tweenAxis (Some goal) start 1 current = goal.
Proof. simpl. lra. Qed.

Lemma write_same (h : Store) (r : ref) (v : Vector3) : write h r v r = v.
Proof. unfold write. rewrite Nat.eqb_refl. reflexivity. Qed.

Lemma write_other (h : Store) (r r' : ref) (v : Vector3) :
  r' <> r -> write h r v r' = h r'.
Proof.
  intro H. unfold write. destruct (Nat.eqb_spec r' r); [contradiction | reflexivity].
Qed.

Lemma distanceTo_nonneg (a b : Vector3) : 0 <= distanceTo a b.
Proof. unfold distanceTo. apply sqrt_pos. Qed.

Lemma sqrt_16 : sqrt 16 = 4.
Proof. replace 16 with (4 * 4) by lra. apply sqrt_square. lra. Qed.

(** ** isNearEmotionalView *)

(** C7. [isNearEmotionalView(threshold)] is true exactly when the Euclidean
    distance from the camera position to the emotional preset's position
    (0, 5, 20) is strictly below the threshold, for every camera position and
    every threshold; without an argument the threshold is 2.0. *)
Theorem isNearEmotionalView_iff_distance_below :
  forall (cm : CameraManager) (threshold : R),
    let p := position (camera cm) in
    preset_position emotionalPreset = mkVector3 0 5 20 /\
    presets "emotional" = Some emotionalPreset /\
    (isNearEmotionalView (Some threshold) cm = true <->
     sqrt ((x p - 0) * (x p - 0) + (y p - 5) * (y p - 5)
           + (z p - 20) * (z p - 20)) < threshold) /\
    (isNearEmotionalView (Some threshold) cm = false <->
     threshold <= distanceTo p (preset_position emotionalPreset)) /\
    isNearEmotionalView None cm = isNearEmotionalView (Some 2.0) cm.
Proof.
  intros cm threshold p.
  split; [reflexivity |]. split; [reflexivity |].
  split; [| split].
  - unfold isNearEmotionalView. rewrite Rltb_true. reflexivity.
  - unfold isNearEmotionalView. rewrite Rltb_false. reflexivity.
  - reflexivity.
Qed.

(** ** What each operation leaves alone *)

Ltac case_if :=
  match goal with
  | |- context [if ?b then _ else _] => destruct b eqn:?
  | |- context [match ?o with Some _ => _ | None => _ end] => destruct o eqn:?
  end.

Lemma runCallback_sceneManager (now : R) (cb : Callback) (w : App) :
  sceneManager (runCallback now cb w) = sceneManager w.
Proof.
  destruct cb; simpl; repeat case_if; reflexivity.
Qed.

Lemma fold_runCallback_sceneManager (now : R) (q : list Callback) (w : App) :
  sceneManager (fold_left (fun a cb => runCallback now cb a) q w) = sceneManager w.
Proof.
  revert w. induction q as [| cb q IH]; intro w; simpl.
  - reflexivity.
  - rewrite IH. apply runCallback_sceneManager.
Qed.

Lemma frame_sceneManager (now : R) (w : App) :
  sceneManager (frame now w) = sceneManager w.
Proof. unfold frame. rewrite fold_runCallback_sceneManager. reflexivity. Qed.

Lemma setPresetView_sceneManager (presetName : string) (now : R) (w : App) :
  sceneManager (setPresetView presetName now w) = sceneManager w.
Proof.
  unfold setPresetView, animateToPosition.
  destruct (isAnimating (cameraManager w)); [reflexivity |].
  destruct (presets presetName);
    [| destruct (inheritedProperty presetName); reflexivity].
  rewrite runCallback_sceneManager. reflexivity.
Qed.

Lemma triggerReunion_sceneManager (now : R) (w : App) :
  sceneManager (triggerReunion now w) = sceneManager w.
Proof.
  unfold triggerReunion, animateCharacter.
  destruct (mother (sceneManager w)); [| reflexivity].
  destruct (child (sceneManager w)); [| reflexivity].
  rewrite !runCallback_sceneManager. reflexivity.
Qed.

Lemma triggerBridgeMovement_sceneManager (now : R) (w : App) :
  sceneManager (triggerBridgeMovement now w) = sceneManager w.
Proof.
  unfold triggerBridgeMovement, animateBridgeSegment.
  destruct (bridge (sceneManager w)) as [b |]; [| reflexivity].
  destruct (isAligned b); [| reflexivity].
  rewrite triggerReunion_sceneManager, !runCallback_sceneManager. reflexivity.
Qed.

Lemma triggerBridgeMechanism_sceneManager (now : R) (w : App) :
  sceneManager (triggerBridgeMechanism now w) = sceneManager w.
Proof.
  unfold triggerBridgeMechanism. case_if.
  - apply triggerBridgeMovement_sceneManager.
  - reflexivity.
Qed.

Lemma deliverModel_bridge (type : Role) (w : App) :
  bridge (sceneManager (deliverModel type w)) = bridge (sceneManager w).
Proof. destruct type; reflexivity. Qed.

Lemma runCallback_cameraManager_other (now : R) (cb : Callback) (w : App) :
  isCameraAnimate cb = false ->
  cameraManager (runCallback now cb w) = cameraManager w.
Proof.
  destruct cb; simpl; intro H; try discriminate H; repeat case_if; reflexivity.
Qed.

Lemma runCallback_rafQueue_other (now : R) (cb : Callback) (w : App) :
  isCameraAnimate cb = false ->
  cameraCallbacks (rafQueue (runCallback now cb w)) = cameraCallbacks (rafQueue w).
Proof.
  unfold cameraCallbacks.
  destruct cb; simpl; intro H; try discriminate H; repeat case_if; simpl;
    rewrite ?filter_app; simpl; rewrite ?app_nil_r; reflexivity.
Qed.

(** ** One camera tween at a time *)

Lemma fold_runCallback_ind (now : R) (J : list Callback -> App -> Prop) :
  (forall cb l a, J (cb :: l) a -> J l (runCallback now cb a)) ->
  forall l a, J l a -> J [] (fold_left (fun a cb => runCallback now cb a) l a).
Proof.
  intros Hstep l. induction l as [| cb l IH]; intros a HJ; simpl.
  - exact HJ.
  - apply IH. apply Hstep. exact HJ.
Qed.

Lemma runCallback_camera_early
  (now : R) (sp tp st tl : Vector3) (t0 : R) (w : App) :
  progressAt t0 2000 now < 1 ->
  runCallback now (CameraAnimate sp tp st tl t0) w =
  requestAnimationFrame (CameraAnimate sp tp st tl t0)
    (setCameraManager
       (mkCameraManager
          (lookAt (setPosition (camera (cameraManager w))
                     (lerpVectors sp tp (easeProgress (progressAt t0 2000 now))))
                  (lerpVectors st tl (easeProgress (progressAt t0 2000 now))))
          (currentPreset (cameraManager w)) (isAnimating (cameraManager w))) w).
Proof.
  intro H. apply Rltb_true in H. simpl. rewrite H. reflexivity.
Qed.

Lemma runCallback_camera_done
  (now : R) (sp tp st tl : Vector3) (t0 : R) (w : App) :
  1 <= progressAt t0 2000 now ->
  runCallback now (CameraAnimate sp tp st tl t0) w =
  setCameraManager
    (mkCameraManager (mkCamera tp (directionTo tp tl))
       (currentPreset (cameraManager w)) false) w.
Proof.
  intro H.
  assert (E : progressAt t0 2000 now = 1)
    by (apply Rle_antisym; [apply progressAt_le_1 | exact H]).
  apply Rltb_false in H. simpl. rewrite H. simpl.
  rewrite E, easeProgress_1, !lerpVectors_1. reflexivity.
Qed.

Lemma cameraCallbacks_app (l q : list Callback) :
  cameraCallbacks (l ++ q) = cameraCallbacks l ++ cameraCallbacks q.
Proof. apply filter_app. Qed.

Lemma runCallback_singleCameraTween (now : R) (cb : Callback) (l : list Callback)
  (a : App) :
  ((List.length (cameraCallbacks ((cb :: l) ++ rafQueue a)) <= 1)%nat /\
   (isAnimating (cameraManager a) = false ->
    cameraCallbacks ((cb :: l) ++ rafQueue a) = [])) ->
  ((List.length (cameraCallbacks (l ++ rafQueue (runCallback now cb a))) <= 1)%nat /\
   (isAnimating (cameraManager (runCallback now cb a)) = false ->
    cameraCallbacks (l ++ rafQueue (runCallback now cb a)) = [])).
Proof.
  intros [Hlen Hflag].
  destruct (isCameraAnimate cb) eqn:Hcb.
  - (* the pending camera closure runs *)
    assert (Hrest : cameraCallbacks (l ++ rafQueue a) = []).
    { change ((cb :: l) ++ rafQueue a) with (cb :: (l ++ rafQueue a)) in Hlen.
      unfold cameraCallbacks in Hlen |- *. simpl in Hlen. rewrite Hcb in Hlen.
      simpl in Hlen. destruct (filter isCameraAnimate (l ++ rafQueue a)).
      - reflexivity.
      - simpl in Hlen. inversion Hlen as [| ? K]. inversion K. }
    assert (Hanim : isAnimating (cameraManager a) = true).
    { destruct (isAnimating (cameraManager a)); [reflexivity |].
      specialize (Hflag eq_refl).
      change ((cb :: l) ++ rafQueue a) with (cb :: (l ++ rafQueue a)) in Hflag.
      unfold cameraCallbacks in Hflag. simpl in Hflag. rewrite Hcb in Hflag.
      discriminate Hflag. }
    destruct cb; try discriminate Hcb.
    destruct (Rlt_dec (progressAt startTime 2000 now) 1) as [Hp | Hp].
    + rewrite runCallback_camera_early by exact Hp. simpl.
      rewrite app_assoc, cameraCallbacks_app, Hrest. simpl.
      split; [apply le_n |]. rewrite Hanim. intro K. discriminate K.
    + rewrite runCallback_camera_done by lra. simpl.
      rewrite Hrest. split; [apply Nat.le_0_l | reflexivity].
  - (* another closure runs: the camera side is untouched *)
    rewrite runCallback_cameraManager_other by exact Hcb.
    rewrite cameraCallbacks_app, runCallback_rafQueue_other by exact Hcb.
    rewrite <- cameraCallbacks_app.
    change ((cb :: l) ++ rafQueue a) with (cb :: (l ++ rafQueue a)) in Hlen, Hflag.
    unfold cameraCallbacks in Hlen, Hflag. simpl in Hlen, Hflag.
    rewrite Hcb in Hlen, Hflag. split; assumption.
Qed.

Lemma frame_singleCameraTween (now : R) (w : App) :
  singleCameraTween w -> singleCameraTween (frame now w).
Proof.
  intro H. unfold frame.
  pose proof (fold_runCallback_ind now
    (fun l a =>
       (List.length (cameraCallbacks (l ++ rafQueue a)) <= 1)%nat /\
       (isAnimating (cameraManager a) = false ->
        cameraCallbacks (l ++ rafQueue a) = []))
    (runCallback_singleCameraTween now) (rafQueue w) (setRafQueue [] w)) as K.
  simpl in K. rewrite app_nil_r in K. apply K. exact H.
Qed.

Lemma singleCameraTween_ext (w w' : App) :
  cameraCallbacks (rafQueue w') = cameraCallbacks (rafQueue w) ->
  isAnimating (cameraManager w') = isAnimating (cameraManager w) ->
  singleCameraTween w -> singleCameraTween w'.
Proof.
  unfold singleCameraTween. intros Hq Hf H. rewrite Hq, Hf. exact H.
Qed.

Lemma setPresetView_busy (presetName : string) (now : R) (w : App) :
  isAnimating (cameraManager w) = true -> setPresetView presetName now w = w.
Proof. intro H. unfold setPresetView. rewrite H. reflexivity. Qed.

Lemma setPresetView_started (presetName : string) (preset : ViewPreset) (now : R)
  (w : App) :
  isAnimating (cameraManager w) = false ->
  presets presetName = Some preset ->
  setPresetView presetName now w =
  requestAnimationFrame
    (CameraAnimate (position (camera (cameraManager w))) (preset_position preset)
                   (getCameraLookAt (cameraManager w)) (preset_target preset) now)
    (setCameraManager
       (mkCameraManager
          (lookAt (setPosition (camera (cameraManager w))
                     (lerpVectors (position (camera (cameraManager w)))
                                  (preset_position preset) 0))
                  (lerpVectors (getCameraLookAt (cameraManager w))
                               (preset_target preset) 0))
          (Some presetName) true) w).
Proof.
  intros Hflag Hpreset. unfold setPresetView, animateToPosition.
  rewrite Hflag, Hpreset.
  assert (P : progressAt now 2000 now = 0) by (apply progressAt_start; lra).
  rewrite runCallback_camera_early by (rewrite P; lra).
  rewrite P, easeProgress_0. reflexivity.
Qed.

Lemma setPresetView_singleCameraTween (presetName : string) (now : R) (w : App) :
  singleCameraTween w -> singleCameraTween (setPresetView presetName now w).
Proof.
  intro H. destruct (isAnimating (cameraManager w)) eqn:Hflag.
  - rewrite setPresetView_busy by exact Hflag. exact H.
  - destruct (presets presetName) as [preset |] eqn:Hpreset.
    + rewrite (setPresetView_started presetName preset) by assumption.
      destruct H as [_ Hnone]. specialize (Hnone Hflag).
      unfold singleCameraTween. simpl.
      rewrite cameraCallbacks_app, Hnone. simpl.
      split; [apply le_n | intro K; discriminate K].
    + unfold setPresetView. rewrite Hflag, Hpreset.
      destruct (inheritedProperty presetName).
      * destruct H as [Hlen _]. unfold singleCameraTween. simpl.
        split; [exact Hlen | intro K; discriminate K].
      * apply singleCameraTween_ext with w; [reflexivity | reflexivity | exact H].
Qed.

Lemma startTween_singleCameraTween (now : R) (cb : Callback) (w : App) :
  isCameraAnimate cb = false ->
  singleCameraTween w -> singleCameraTween (runCallback now cb w).
Proof.
  intros Hcb H. apply singleCameraTween_ext with w.
  - apply runCallback_rafQueue_other. exact Hcb.
  - rewrite runCallback_cameraManager_other by exact Hcb. reflexivity.
  - exact H.
Qed.

Lemma triggerBridgeMechanism_singleCameraTween (now : R) (w : App) :
  singleCameraTween w -> singleCameraTween (triggerBridgeMechanism now w).
Proof.
  intro H. unfold triggerBridgeMechanism. case_if.
  - unfold triggerBridgeMovement.
    destruct (bridge (sceneManager w)) as [b |]; [| exact H].
    destruct (isAligned b); [| exact H].
    unfold triggerReunion, animateBridgeSegment, animateCharacter.
    rewrite !runCallback_sceneManager.
    destruct (mother (sceneManager w)); [destruct (child (sceneManager w)) |];
      repeat (apply startTween_singleCameraTween; [reflexivity |]); exact H.
  - apply singleCameraTween_ext with w; [reflexivity | reflexivity | exact H].
Qed.

Lemma deliverModel_singleCameraTween (type : Role) (w : App) :
  singleCameraTween w -> singleCameraTween (deliverModel type w).
Proof.
  intro H. apply singleCameraTween_ext with w;
    [destruct type; reflexivity | destruct type; reflexivity | exact H].
Qed.

Lemma handle_singleCameraTween (e : Event) (w : App) :
  singleCameraTween w -> singleCameraTween (handle e w).
Proof.
  intro H. destruct e as [[| | |] now | now | type | moved]; simpl.
  - apply setPresetView_singleCameraTween. exact H.
  - apply setPresetView_singleCameraTween. exact H.
  - unfold switchToEmotionalView.
    apply singleCameraTween_ext with (setPresetView "emotional" now w);
      [reflexivity | reflexivity |].
    apply setPresetView_singleCameraTween. exact H.
  - apply triggerBridgeMechanism_singleCameraTween. exact H.
  - apply frame_singleCameraTween. exact H.
  - apply deliverModel_singleCameraTween. exact H.
  - apply singleCameraTween_ext with w; [reflexivity | reflexivity | exact H].
Qed.

Lemma newApp_singleCameraTween (now : R) (gltfLoader : bool) :
  singleCameraTween (newApp now gltfLoader).
Proof.
  unfold newApp.
  apply startTween_singleCameraTween; [reflexivity |].
  assert (H0 : singleCameraTween (setPresetView "mother" now constructed)).
  { apply setPresetView_singleCameraTween. split; [apply Nat.le_0_l | reflexivity]. }
  destruct gltfLoader; unfold loadModels, createPlaceholderModels.
  - exact H0.
  - apply deliverModel_singleCameraTween, deliverModel_singleCameraTween. exact H0.
Qed.

Lemma reachable_singleCameraTween (w : App) :
  reachable w -> singleCameraTween w.
Proof.
  induction 1 as [now gltfLoader | e w _ IH].
  - apply newApp_singleCameraTween.
  - apply handle_singleCameraTween. exact IH.
Qed.

(** C4. In every reachable state at most one camera transition is pending
    (and none once the flag is cleared); a [setPresetView] call made while
    [isAnimating] is true returns the state it was given: no closure is
    registered, [currentPreset] and the camera are what they were. *)
Theorem setPresetView_single_in_flight :
  (forall w, reachable w ->
     (List.length (cameraCallbacks (rafQueue w)) <= 1)%nat /\
     (isAnimating (cameraManager w) = false -> cameraCallbacks (rafQueue w) = [])) /\
  (forall presetName now w,
     isAnimating (cameraManager w) = true ->
     setPresetView presetName now w = w /\
     rafQueue (setPresetView presetName now w) = rafQueue w /\
     currentPreset (cameraManager (setPresetView presetName now w))
       = currentPreset (cameraManager w) /\
     camera (cameraManager (setPresetView presetName now w))
       = camera (cameraManager w)).
Proof.
  split.
  - intros w Hw. exact (reachable_singleCameraTween w Hw).
  - intros presetName now w Hflag.
    rewrite setPresetView_busy by exact Hflag. repeat split.
Qed.

(** ** A camera transition runs to its preset *)

Section CameraTransition.

Variables (startPosition startTarget : Vector3) (startTime : R).
Variables (preset : ViewPreset) (presetName : string).

Abbreviation cb0 := (presetTransition startPosition startTarget startTime preset).

Lemma runCallback_cameraMidFrame (now : R) (cb : Callback) (l : list Callback)
  (a : App) :
  cameraMidFrame cb0 (startTime + 2000) now preset presetName (cb :: l) a ->
  cameraMidFrame cb0 (startTime + 2000) now preset presetName l
                 (runCallback now cb a).
Proof.
  unfold cameraMidFrame, cameraInTransit, cameraAtPreset.
  destruct (isCameraAnimate cb) eqn:Hcb.
  - intros [(Hl & Hq & Hanim & Hcur) | [(Hl & _) | (Hl & _)]];
      unfold cameraCallbacks in Hl; simpl in Hl; rewrite Hcb in Hl;
      try discriminate Hl.
    injection Hl as Hhead Hrest. subst cb. fold (cameraCallbacks l) in Hrest.
    unfold cb0.
    destruct (Rlt_dec (progressAt startTime 2000 now) 1) as [Hp | Hp].
    + right; left. rewrite runCallback_camera_early by exact Hp. simpl.
      rewrite cameraCallbacks_app, Hq. simpl.
      repeat split; try assumption.
      destruct (Rlt_dec now (startTime + 2000)) as [Hn | Hn]; [exact Hn |].
      rewrite progressAt_done in Hp by lra. lra.
    + right; right. rewrite runCallback_camera_done by lra. simpl.
      repeat split; assumption.
  - rewrite runCallback_cameraManager_other by exact Hcb.
    rewrite runCallback_rafQueue_other by exact Hcb.
    unfold cameraCallbacks at 1 4 6. simpl. rewrite Hcb.
    fold (cameraCallbacks l). intro H. exact H.
Qed.

Lemma frame_cameraInTransit (now : R) (w : App) :
  cameraInTransit cb0 presetName w ->
  (now < startTime + 2000 /\ cameraInTransit cb0 presetName (frame now w))
  \/ cameraAtPreset preset presetName (frame now w).
Proof.
  intros (Hq & Hanim & Hcur). unfold frame.
  pose proof (fold_runCallback_ind now
    (cameraMidFrame cb0 (startTime + 2000) now preset presetName)
    (runCallback_cameraMidFrame now) (rafQueue w) (setRafQueue [] w)) as K.
  destruct K as [(Hl & _) | [(_ & Hn & Ht) | (_ & Hd)]].
  - left. repeat split; assumption.
  - discriminate Hl.
  - left. split; assumption.
  - right. exact Hd.
Qed.

Lemma frame_cameraInTransit_done (now : R) (w : App) :
  startTime + 2000 <= now ->
  cameraInTransit cb0 presetName w ->
  cameraAtPreset preset presetName (frame now w).
Proof.
  intros Hn Ht. destruct (frame_cameraInTransit now w Ht) as [[Hlt _] | Hd].
  - lra.
  - exact Hd.
Qed.

Lemma frame_cameraAtPreset (now : R) (w : App) :
  cameraAtPreset preset presetName w ->
  cameraAtPreset preset presetName (frame now w).
Proof.
  intro Hd. unfold frame.
  pose proof (fold_runCallback_ind now
    (cameraMidFrame cb0 (startTime + 2000) now preset presetName)
    (runCallback_cameraMidFrame now) (rafQueue w) (setRafQueue [] w)) as K.
  destruct Hd as (Hq & Hd).
  destruct K as [(Hl & _) | [(_ & _ & Ht) | (_ & Hd')]].
  - right; right. split; [exact Hq |]. split; [reflexivity | exact Hd].
  - discriminate Hl.
  - destruct Ht as (Ht & _).
    (* nothing the frame ran could register a camera closure *)
    exfalso. revert Ht. unfold frame.
    assert (G : forall l a,
               cameraCallbacks l = [] -> cameraCallbacks (rafQueue a) = [] ->
               cameraCallbacks
                 (rafQueue (fold_left (fun a cb => runCallback now cb a) l a)) = []).
    { induction l as [| c l IH]; intros a Hl Ha; simpl; [exact Ha |].
      unfold cameraCallbacks in Hl. simpl in Hl.
      destruct (isCameraAnimate c) eqn:Hc; [discriminate Hl |].
      apply IH; [exact Hl |].
      rewrite runCallback_rafQueue_other by exact Hc. exact Ha. }
    rewrite G; [discriminate | exact Hq | reflexivity].
  - exact Hd'.
Qed.

Lemma frames_cameraAtPreset (times : list R) (w : App) :
  cameraAtPreset preset presetName w ->
  cameraAtPreset preset presetName (frames times w).
Proof.
  revert w. induction times as [| now times IH]; intros w H; simpl.
  - exact H.
  - apply IH. apply frame_cameraAtPreset. exact H.
Qed.

Lemma frames_cameraInTransit (times : list R) (w : App) :
  (exists now, In now times /\ startTime + 2000 <= now) ->
  cameraInTransit cb0 presetName w ->
  cameraAtPreset preset presetName (frames times w).
Proof.
  revert w. induction times as [| now times IH]; intros w (t & Hin & Ht) Hw.
  - destruct Hin.
  - simpl. destruct (frame_cameraInTransit now w Hw) as [[Hlt Hw'] | Hd].
    + apply IH; [| exact Hw'].
      destruct Hin as [-> | Hin]; [lra |]. exists t. split; assumption.
    + apply frames_cameraAtPreset. exact Hd.
Qed.

End CameraTransition.

Lemma presets_names (presetName : string) (preset : ViewPreset) :
  presets presetName = Some preset <->
  (presetName = "mother"%string /\ preset = motherPreset) \/
  (presetName = "child"%string /\ preset = childPreset) \/
  (presetName = "emotional"%string /\ preset = emotionalPreset).
Proof.
  unfold presets. split.
  - destruct (String.eqb_spec presetName "mother") as [-> | _].
    + intro H. injection H as <-. left. split; reflexivity.
    + destruct (String.eqb_spec presetName "child") as [-> | _].
      * intro H. injection H as <-. right; left. split; reflexivity.
      * destruct (String.eqb_spec presetName "emotional") as [-> | _].
        -- intro H. injection H as <-. right; right. split; reflexivity.
        -- intro H. discriminate H.
  - intros [[-> ->] | [[-> ->] | [-> ->]]]; reflexivity.
Qed.

(** In exact arithmetic: a [setPresetView] call for one of the three
    presets, made when no transition is running, followed by display frames
    of which one samples the clock 2000 ms or more after the call, leaves
    the camera at the preset's position, facing the preset's target, the
    in-progress flag cleared, the preset the current one and no camera
    closure. *)
Lemma setPresetView_completes :
  forall (presetName : string) (preset : ViewPreset) (now : R) (times : list R)
         (w : App),
    presets presetName = Some preset ->
    isAnimating (cameraManager w) = false ->
    singleCameraTween w ->
    (exists t, In t times /\ now + 2000 <= t) ->
    let w' := frames times (setPresetView presetName now w) in
    In presetName ["mother"; "child"; "emotional"]%string /\
    (forall t, now + 2000 <= t -> easeProgress (progressAt now 2000 t) = 1) /\
    position (camera (cameraManager w')) = preset_position preset /\
    camera (cameraManager w')
      = lookAt (camera (cameraManager w')) (preset_target preset) /\
    isAnimating (cameraManager w') = false /\
    currentPreset (cameraManager w') = Some presetName /\
    cameraCallbacks (rafQueue w') = [].
Proof.
  intros presetName preset now times w Hpreset Hflag Hsingle Hlate w'.
  split.
  { apply presets_names in Hpreset.
    destruct Hpreset as [[-> _] | [[-> _] | [-> _]]]; simpl; tauto. }
  split.
  { intros t Ht. rewrite progressAt_done by lra. apply easeProgress_1. }
  assert (Hdone : cameraAtPreset preset presetName w').
  { unfold w'.
    rewrite (setPresetView_started presetName preset) by assumption.
    eapply frames_cameraInTransit; [exact Hlate |].
    destruct Hsingle as [_ Hnone]. specialize (Hnone Hflag).
    unfold cameraInTransit. simpl.
    rewrite cameraCallbacks_app, Hnone. repeat split. }
  destruct Hdone as (Hq & Hcam & Hanim & Hcur).
  rewrite Hcam. simpl. unfold lookAt. simpl. repeat split; assumption.
Qed.

(** C3, as amended.  A [setPresetView] call for one of the three presets,
    made when no transition is running, followed by display frames of which
    one samples the clock 2000 ms or more after the call: the progress of
    such a sample is 1, the in-progress flag is cleared, the preset is the
    current one, no camera closure is left, and the camera stands at the
    last interpolation step from where it stood at the call,
    start + (target - start) * e with e the easing at progress 1, facing the
    like step of the look-at point.  In exact arithmetic e is 1 and the step
    is the target.  In binary64 e is 1 as well, and the step to a preset's
    position is that position whenever the transition starts at the origin
    or at a preset's position; from other places it need not be. *)
Theorem setPresetView_lands_within_rounding :
  (forall (presetName : string) (preset : ViewPreset) (now : R) (times : list R)
          (w : App),
     presets presetName = Some preset ->
     isAnimating (cameraManager w) = false ->
     singleCameraTween w ->
     (exists t, In t times /\ now + 2000 <= t) ->
     let w' := frames times (setPresetView presetName now w) in
     let startPosition := position (camera (cameraManager w)) in
     let startTarget := getCameraLookAt (cameraManager w) in
     In presetName ["mother"; "child"; "emotional"]%string /\
     (forall t, now + 2000 <= t -> progressAt now 2000 t = 1) /\
     position (camera (cameraManager w'))
       = lerpVectors startPosition (preset_position preset) (easeProgress 1) /\
     camera (cameraManager w')
       = lookAt (camera (cameraManager w'))
                (lerpVectors startTarget (preset_target preset) (easeProgress 1)) /\
     isAnimating (cameraManager w') = false /\
     currentPreset (cameraManager w') = Some presetName /\
     cameraCallbacks (rafQueue w') = []) /\
  (easeProgress 1 = 1 /\ forall v1 v2, lerpVectors v1 v2 1 = v2) /\
  (Binary64.easeProgressAtEnd = 1%float /\
   forall start target,
     In start Binary64.buttonStarts -> In target Binary64.presetPositions ->
     Binary64.lastSample start target = target).
Proof.
  split; [| split].
  - intros presetName preset now times w Hpreset Hflag Hsingle Hlate w' sp st.
    destruct (setPresetView_completes presetName preset now times w
                Hpreset Hflag Hsingle Hlate)
      as (Hname & _ & Hpos & Hcam & Hanim & Hcur & Hq).
    fold w' in Hpos, Hcam, Hanim, Hcur, Hq.
    rewrite easeProgress_1, !lerpVectors_1.
    split; [exact Hname |].
    split; [intros t Ht; apply progressAt_done; lra |].
    repeat split; assumption.
  - split; [apply easeProgress_1 | intros v1 v2; apply lerpVectors_1].
  - split; [reflexivity |].
    intros start target Hstart Htarget.
    simpl in Hstart, Htarget.
    destruct Hstart as [<- | [<- | [<- | [<- | []]]]];
      destruct Htarget as [<- | [<- | [<- | []]]];
      vm_compute; reflexivity.
Qed.

(** C3, as stated, fails in binary64: the last step of a transition to the
    child preset that starts at (0, -3.3, 0) does not land on the preset's
    position.  Its y is 6.000000000000001, not 6, though the easing is
    exactly 1. *)
Lemma last_sample_misses_the_preset_in_binary64 :
  Binary64.easeProgressAtEnd = 1%float /\
  Binary64.y (Binary64.lastSample Binary64.draggedBelow Binary64.childPosition)
    = 0x1.8000000000001p+2%float /\
  Binary64.lastSample Binary64.draggedBelow Binary64.childPosition
    <> Binary64.childPosition.
Proof.
  split; [reflexivity |]. split; [vm_compute; reflexivity |].
  intro H. apply (f_equal (fun v => PrimFloat.eqb (Binary64.y v) 6)) in H.
  vm_compute in H. discriminate H.
Qed.


(** ** The narrative state *)

Lemma updateFromSceneState_spec (sceneState : SceneState) (ui : UIManager) :
  updateFromSceneState sceneState ui =
  updateStatus
    (if motherChildReunited sceneState then reunited
     else if bridgeTriggered sceneState then connected
     else if bridgeAligned sceneState then aligning
     else searching) ui.
Proof.
  unfold updateFromSceneState.
  destruct (motherChildReunited sceneState), (bridgeTriggered sceneState),
    (bridgeAligned sceneState); reflexivity.
Qed.

(** C6. The state shown is a function of the character distance, the
    bridge-triggered flag and the alignment flag alone (the previous UI state
    plays no part), with the distance rule first: below 5 it is [reunited]
    whatever the flags, otherwise [connected] if triggered, otherwise
    [aligning] if aligned, otherwise [searching]; distance 3 with the
    alignment flag set gives [reunited].  The frame callback feeds it the
    distance between the two characters and the bridge's flag. *)
Theorem narrative_state_is_derived :
  forall (distance : R) (bridgeTriggered isAligned : bool) (ui ui' : UIManager),
    let derive := fun u =>
      updateFromSceneState (mkSceneState isAligned bridgeTriggered (Rltb distance 5)) u in
    derive ui = derive ui' /\
    currentState (derive ui) = narrativeStateOf distance bridgeTriggered isAligned /\
    (distance < 5 -> currentState (derive ui) = reunited) /\
    (5 <= distance -> bridgeTriggered = true -> currentState (derive ui) = connected) /\
    (5 <= distance -> bridgeTriggered = false -> isAligned = true ->
     currentState (derive ui) = aligning) /\
    (5 <= distance -> bridgeTriggered = false -> isAligned = false ->
     currentState (derive ui) = searching) /\
    narrativeStateOf 3 bridgeTriggered true = reunited /\
    (forall now w m c,
       mother (sceneManager w) = Some m -> child (sceneManager w) = Some c ->
       currentState (uiManager (runCallback now AppAnimate w))
       = narrativeStateOf (distanceTo (store w m) (store w c)) false
                          (bridgeIsAligned (sceneManager w))).
Proof.
  intros distance bridgeTriggered isAligned ui ui' derive.
  assert (E : forall u, currentState (derive u)
                        = narrativeStateOf distance bridgeTriggered isAligned).
  { intro u. unfold derive, narrativeStateOf, Rltb.
    rewrite updateFromSceneState_spec. simpl.
    destruct (Rlt_dec distance 5); reflexivity. }
  split; [unfold derive; rewrite !updateFromSceneState_spec; reflexivity |].
  split; [apply E |].
  split; [| split; [| split; [| split; [| split]]]].
  - intro H. rewrite E. unfold narrativeStateOf.
    destruct (Rlt_dec distance 5); [reflexivity | lra].
  - intros H ->. rewrite E. unfold narrativeStateOf.
    destruct (Rlt_dec distance 5); [lra | reflexivity].
  - intros H -> ->. rewrite E. unfold narrativeStateOf.
    destruct (Rlt_dec distance 5); [lra | reflexivity].
  - intros H -> ->. rewrite E. unfold narrativeStateOf.
    destruct (Rlt_dec distance 5); [lra | reflexivity].
  - unfold narrativeStateOf. destruct (Rlt_dec 3 5); [reflexivity | lra].
  - intros now w m c Hm Hc. simpl. rewrite updateFromSceneState_spec.
    unfold sceneStateOf. simpl. rewrite Hm, Hc. simpl.
    unfold narrativeStateOf, Rltb. rewrite orb_false_r.
    destruct (Rlt_dec (distanceTo (store w m) (store w c)) 5); reflexivity.
Qed.

(** ** The state shown is never [connected] *)

Lemma updateStatus_notShownConnected (state : NarrativeState) (ui : UIManager) :
  state <> connected -> notShownConnected (updateStatus state ui).
Proof.
  intro H. unfold notShownConnected.
  destruct state; try congruence; simpl; repeat split; discriminate.
Qed.

Lemma sceneStateOf_bridgeTriggered (w : App) :
  bridgeTriggered (sceneStateOf w) = false.
Proof. reflexivity. Qed.

Lemma runCallback_notShownConnected (now : R) (cb : Callback) (w : App) :
  notShownConnected (uiManager w) ->
  notShownConnected (uiManager (runCallback now cb w)).
Proof.
  intro H. destruct cb.
  - simpl. rewrite updateFromSceneState_spec.
    apply updateStatus_notShownConnected. simpl.
    repeat case_if; discriminate.
  - simpl. repeat case_if; exact H.
  - simpl. repeat case_if; exact H.
  - simpl. repeat case_if; exact H.
Qed.

Lemma runCallback_uiManager_tween (now : R) (cb : Callback) (w : App) :
  cb <> AppAnimate -> uiManager (runCallback now cb w) = uiManager w.
Proof.
  intro H. destruct cb; [contradiction | | |]; simpl; repeat case_if; reflexivity.
Qed.

Lemma frame_notShownConnected (now : R) (w : App) :
  notShownConnected (uiManager w) -> notShownConnected (uiManager (frame now w)).
Proof.
  intro H. unfold frame.
  apply (fold_runCallback_ind now (fun _ a => notShownConnected (uiManager a))).
  - intros cb l a. apply runCallback_notShownConnected.
  - exact H.
Qed.

Lemma setPresetView_uiManager (presetName : string) (now : R) (w : App) :
  uiManager (setPresetView presetName now w) = uiManager w.
Proof.
  unfold setPresetView, animateToPosition.
  destruct (isAnimating (cameraManager w)); [reflexivity |].
  destruct (presets presetName);
    [| destruct (inheritedProperty presetName); reflexivity].
  rewrite runCallback_uiManager_tween by discriminate. reflexivity.
Qed.

Lemma triggerBridgeMechanism_uiManager (now : R) (w : App) :
  uiManager (triggerBridgeMechanism now w) = uiManager w.
Proof.
  unfold triggerBridgeMechanism, triggerBridgeMovement, triggerReunion,
    animateBridgeSegment, animateCharacter.
  repeat case_if; rewrite ?runCallback_uiManager_tween by discriminate; reflexivity.
Qed.

Lemma handle_notShownConnected (e : Event) (w : App) :
  notShownConnected (uiManager w) -> notShownConnected (uiManager (handle e w)).
Proof.
  intro H. destruct e as [[| | |] now | now | type | moved]; simpl.
  - unfold switchToMotherView. rewrite setPresetView_uiManager. exact H.
  - unfold switchToChildView. rewrite setPresetView_uiManager. exact H.
  - unfold switchToEmotionalView. simpl. rewrite setPresetView_uiManager. exact H.
  - rewrite triggerBridgeMechanism_uiManager. exact H.
  - apply frame_notShownConnected. exact H.
  - destruct type; exact H.
  - exact H.
Qed.

Lemma reachable_notShownConnected (w : App) :
  reachable w -> notShownConnected (uiManager w).
Proof.
  induction 1 as [now gltfLoader | e w _ IH].
  - unfold newApp. apply runCallback_notShownConnected.
    destruct gltfLoader; unfold loadModels, createPlaceholderModels.
    + rewrite setPresetView_uiManager. simpl. repeat split; discriminate.
    + change (uiManager (deliverModel ChildRole (deliverModel MotherRole
                (setPresetView "mother" now constructed))))
        with (uiManager (setPresetView "mother" now constructed)).
      rewrite setPresetView_uiManager. simpl. repeat split; discriminate.
  - apply handle_notShownConnected. exact IH.
Qed.

(** C8. The scene state every frame hands to the UI has its bridge-triggered
    flag false, the frame callback never shows [connected], and in no
    reachable state is the state shown, or either text on display, the one of
    [connected]. *)
Theorem connected_is_never_shown :
  (forall w, bridgeTriggered (sceneStateOf w) = false) /\
  (forall now w, currentState (uiManager (runCallback now AppAnimate w)) <> connected) /\
  (forall w, reachable w ->
     currentState (uiManager w) <> connected /\
     statusText (uiManager w) <> fst (statusMessages connected) /\
     hintText (uiManager w) <> snd (statusMessages connected)).
Proof.
  split; [exact sceneStateOf_bridgeTriggered |]. split.
  - intros now w. simpl. rewrite updateFromSceneState_spec. simpl.
    repeat case_if; discriminate.
  - intros w Hw. exact (reachable_notShownConnected w Hw).
Qed.

(** ** The mechanism trigger *)

Lemma distanceTo_self (a : Vector3) : distanceTo a a = 0.
Proof.
  unfold distanceTo.
  replace ((x a - x a) * (x a - x a) + (y a - y a) * (y a - y a)
           + (z a - z a) * (z a - z a)) with 0 by ring.
  apply sqrt_0.
Qed.

Lemma animateCharacter_started (character : ref) (target : Target.t)
  (onComplete : option string) (now : R) (w : App) :
  animateCharacter character target onComplete now w =
  requestAnimationFrame
    (CharacterAnimate character (store w character) target now onComplete)
    (setStore (write (store w) character
                 (tweenPosition (store w character) (store w character) target 0))
              w).
Proof.
  unfold animateCharacter. simpl.
  assert (P : progressAt now 2000 now = 0) by (apply progressAt_start; lra).
  rewrite P, easeProgress_0.
  assert (L : Rltb 0 1 = true) by (apply Rltb_true; lra).
  rewrite L. reflexivity.
Qed.

Lemma animateBridgeSegment_started (segment : ref) (target : Target.t) (now : R)
  (w : App) :
  animateBridgeSegment segment target now w =
  requestAnimationFrame
    (BridgeSegmentAnimate segment (store w segment) target now)
    (setStore (write (store w) segment
                 (tweenPosition (store w segment) (store w segment) target 0))
              w).
Proof.
  unfold animateBridgeSegment. simpl.
  assert (P : progressAt now 1000 now = 0) by (apply progressAt_start; lra).
  rewrite P, easeProgress_0.
  assert (L : Rltb 0 1 = true) by (apply Rltb_true; lra).
  rewrite L. reflexivity.
Qed.

Lemma triggerBridgeMovement_console (now : R) (w : App) :
  console (triggerBridgeMovement now w) = console w.
Proof.
  unfold triggerBridgeMovement, triggerReunion.
  destruct (bridge (sceneManager w)) as [b |]; [| reflexivity].
  destruct (isAligned b); [| reflexivity].
  rewrite !animateBridgeSegment_started. simpl.
  destruct (mother (sceneManager w)); [| reflexivity].
  destruct (child (sceneManager w)); [| reflexivity].
  rewrite !animateCharacter_started. reflexivity.
Qed.

(** C2. A trigger made while the bridge's flag is not set and the camera is
    at distance 3 or more from the emotional preset's position only adds the
    hint to the console: the bridge record, the positions of all meshes
    (both segments among them) and the pending closures are what they were,
    and the call returns normally. *)
Theorem triggerBridgeMechanism_rejected_leaves_bridge :
  forall (now : R) (w : App),
    bridgeIsAligned (sceneManager w) = false ->
    3.0 <= distanceTo (position (camera (cameraManager w)))
                      (preset_position emotionalPreset) ->
    let w' := triggerBridgeMechanism now w in
    w' = consoleLog "请先切换到情感视角对齐" w /\
    bridge (sceneManager w') = bridge (sceneManager w) /\
    store w' = store w /\
    (forall b, bridge (sceneManager w) = Some b ->
       store w' (bridge_left b) = store w (bridge_left b) /\
       store w' (bridge_right b) = store w (bridge_right b) /\
       isAligned b = false) /\
    rafQueue w' = rafQueue w /\
    console w' = console w ++ ["请先切换到情感视角对齐"%string].
Proof.
  intros now w Hflag Hfar w'.
  assert (E : w' = consoleLog "请先切换到情感视角对齐" w).
  { unfold w', triggerBridgeMechanism, isNearEmotionalView.
    apply Rltb_false in Hfar. rewrite Hfar, Hflag. reflexivity. }
  rewrite E. simpl. repeat split; try reflexivity.
  unfold bridgeIsAligned in Hflag. rewrite H in Hflag. exact Hflag.
Qed.

(** C10. With the camera at a distance d from the emotional preset's
    position, 2.0 <= d < 3.0, [isNearEmotionalView()] with its default
    threshold is false while the trigger's own proximity test, made with
    3.0, is true: the trigger takes its first branch and calls
    [triggerBridgeMovement] instead of logging the hint. *)
Theorem trigger_gate_uses_threshold_3 :
  forall (now : R) (w : App),
    let d := distanceTo (position (camera (cameraManager w)))
                        (preset_position emotionalPreset) in
    2.0 <= d -> d < 3.0 ->
    isNearEmotionalView None (cameraManager w) = false /\
    isNearEmotionalView (Some 3.0) (cameraManager w) = true /\
    triggerBridgeMechanism now w = triggerBridgeMovement now w /\
    console (triggerBridgeMechanism now w) = console w.
Proof.
  intros now w d Hlo Hhi.
  assert (Hnear : isNearEmotionalView (Some 3.0) (cameraManager w) = true).
  { unfold isNearEmotionalView. apply Rltb_true. exact Hhi. }
  assert (Hgate : triggerBridgeMechanism now w = triggerBridgeMovement now w).
  { unfold triggerBridgeMechanism. rewrite Hnear. reflexivity. }
  split; [| split; [exact Hnear | split; [exact Hgate |]]].
  - unfold isNearEmotionalView. apply Rltb_false. exact Hlo.
  - rewrite Hgate. apply triggerBridgeMovement_console.
Qed.

Lemma triggerReunion_rafQueue (now : R) (w : App) :
  exists extra, rafQueue (triggerReunion now w) = rafQueue w ++ extra.
Proof.
  unfold triggerReunion.
  destruct (mother (sceneManager w)) as [m |]; [| exists []; symmetry; apply app_nil_r].
  destruct (child (sceneManager w)) as [c |]; [| exists []; symmetry; apply app_nil_r].
  rewrite !animateCharacter_started. simpl. rewrite <- app_assoc.
  eexists. reflexivity.
Qed.

(** With the flag set the movement starts: a one-second tween of each segment
    towards its current z plus 0.3 is registered. *)
Lemma triggerBridgeMovement_fires (now : R) (w : App) (b : Bridge) :
  bridge (sceneManager w) = Some b ->
  isAligned b = true ->
  bridge_left b <> bridge_right b ->
  In (BridgeSegmentAnimate (bridge_left b) (store w (bridge_left b))
        (Target.mk None None (Some (z (store w (bridge_left b)) + 0.3))) now)
     (rafQueue (triggerBridgeMovement now w)) /\
  In (BridgeSegmentAnimate (bridge_right b) (store w (bridge_right b))
        (Target.mk None None (Some (z (store w (bridge_right b)) + 0.3))) now)
     (rafQueue (triggerBridgeMovement now w)).
Proof.
  intros Hb Hflag Hne. unfold triggerBridgeMovement. rewrite Hb, Hflag.
  match goal with
  | |- context [triggerReunion now ?a] =>
      destruct (triggerReunion_rafQueue now a) as [extra ->]
  end.
  rewrite !animateBridgeSegment_started. simpl.
  rewrite (write_other _ (bridge_left b) (bridge_right b))
    by (intro K; apply Hne; symmetry; exact K).
  split; apply in_or_app; left; apply in_or_app.
  - left. apply in_or_app. right. left. reflexivity.
  - right. left. reflexivity.
Qed.

(** ** The alignment flag *)

Lemma handle_bridge_other (e : Event) (w : App) :
  (forall now, e <> Click BtnEmotionalView now) ->
  bridge (sceneManager (handle e w)) = bridge (sceneManager w).
Proof.
  intro H. destruct e as [[| | |] now | now | type | moved]; simpl.
  - unfold switchToMotherView. rewrite setPresetView_sceneManager. reflexivity.
  - unfold switchToChildView. rewrite setPresetView_sceneManager. reflexivity.
  - exfalso. apply (H now). reflexivity.
  - rewrite triggerBridgeMechanism_sceneManager. reflexivity.
  - rewrite frame_sceneManager. reflexivity.
  - apply deliverModel_bridge.
  - reflexivity.
Qed.

Lemma switchToEmotionalView_bridge (now : R) (w : App) :
  bridge (sceneManager (switchToEmotionalView now w))
  = match bridge (sceneManager w) with
    | Some b => Some (mkBridge (bridge_left b) (bridge_right b) true)
    | None => None
    end.
Proof.
  unfold switchToEmotionalView. simpl. rewrite setPresetView_sceneManager.
  unfold setBridgeAligned. destruct (bridge (sceneManager w)) as [b |] eqn:Hb.
  - reflexivity.
  - exact Hb.
Qed.

Lemma handle_hasBridge (e : Event) (w : App) : hasBridge w -> hasBridge (handle e w).
Proof.
  intros [flag Hb]. unfold hasBridge.
  destruct e as [[| | |] now | now | type | moved];
    try (exists flag; rewrite handle_bridge_other by (intros; discriminate);
         exact Hb).
  exists true. change (handle (Click BtnEmotionalView now) w)
    with (switchToEmotionalView now w).
  rewrite switchToEmotionalView_bridge, Hb. reflexivity.
Qed.

Lemma newApp_bridge (now : R) (gltfLoader : bool) :
  bridge (sceneManager (newApp now gltfLoader))
  = Some (mkBridge 0%nat 1%nat false).
Proof.
  unfold newApp. rewrite runCallback_sceneManager.
  destruct gltfLoader; unfold loadModels, createPlaceholderModels.
  - rewrite setPresetView_sceneManager. reflexivity.
  - rewrite !deliverModel_bridge, setPresetView_sceneManager. reflexivity.
Qed.

Lemma reachable_hasBridge (w : App) : reachable w -> hasBridge w.
Proof.
  induction 1 as [now gltfLoader | e w _ IH].
  - exists false. apply newApp_bridge.
  - apply handle_hasBridge. exact IH.
Qed.

Lemma handle_bridgeIsAligned (e : Event) (w : App) :
  bridgeIsAligned (sceneManager w) = true ->
  bridgeIsAligned (sceneManager (handle e w)) = true.
Proof.
  unfold bridgeIsAligned. intro H.
  destruct e as [[| | |] now | now | type | moved];
    try (rewrite handle_bridge_other by (intros; discriminate); exact H).
  change (handle (Click BtnEmotionalView now) w)
    with (switchToEmotionalView now w).
  rewrite switchToEmotionalView_bridge.
  destruct (bridge (sceneManager w)); [reflexivity | discriminate H].
Qed.

Lemma handles_bridgeIsAligned (events : list Event) (w : App) :
  bridgeIsAligned (sceneManager w) = true ->
  bridgeIsAligned (sceneManager (handles events w)) = true.
Proof.
  revert w. induction events as [| e events IH]; intros w H; simpl.
  - exact H.
  - apply IH. apply handle_bridgeIsAligned. exact H.
Qed.

Lemma handles_reachable (events : list Event) (w : App) :
  reachable w -> reachable (handles events w).
Proof.
  revert w. induction events as [| e events IH]; intros w H; simpl.
  - exact H.
  - apply IH. apply reachable_handle. exact H.
Qed.

(** C9. The bridge's flag starts false; an event other than a click on the
    emotional-view button leaves the bridge record as it is, and that click
    sets the flag; so a set flag stays set under every event.  After one
    such click, whatever events follow and wherever they leave the camera,
    a trigger takes the firing branch: a tween of each bridge segment
    towards z + 0.3 is registered and nothing is logged. *)
Theorem isAligned_is_only_ever_raised :
  (forall now gltfLoader,
     bridgeIsAligned (sceneManager (newApp now gltfLoader)) = false) /\
  (forall e w, (forall now, e <> Click BtnEmotionalView now) ->
     bridge (sceneManager (handle e w)) = bridge (sceneManager w)) /\
  (forall now w, reachable w ->
     bridgeIsAligned (sceneManager (handle (Click BtnEmotionalView now) w)) = true) /\
  (forall e w, bridgeIsAligned (sceneManager w) = true ->
     bridgeIsAligned (sceneManager (handle e w)) = true) /\
  (forall w now events now', reachable w ->
     let w1 := handles events (handle (Click BtnEmotionalView now) w) in
     let w2 := triggerBridgeMechanism now' w1 in
     exists b,
       bridge (sceneManager w1) = Some b /\ isAligned b = true /\
       w2 = triggerBridgeMovement now' w1 /\
       console w2 = console w1 /\
       In (BridgeSegmentAnimate (bridge_left b) (store w1 (bridge_left b))
             (Target.mk None None (Some (z (store w1 (bridge_left b)) + 0.3))) now')
          (rafQueue w2) /\
       In (BridgeSegmentAnimate (bridge_right b) (store w1 (bridge_right b))
             (Target.mk None None (Some (z (store w1 (bridge_right b)) + 0.3))) now')
          (rafQueue w2)).
Proof.
  assert (Hclick : forall now w, reachable w ->
            bridgeIsAligned (sceneManager (handle (Click BtnEmotionalView now) w))
            = true).
  { intros now w Hw. destruct (reachable_hasBridge w Hw) as [flag Hb].
    unfold bridgeIsAligned.
    change (handle (Click BtnEmotionalView now) w)
      with (switchToEmotionalView now w).
    rewrite switchToEmotionalView_bridge, Hb. reflexivity. }
  split; [| split; [| split; [| split]]].
  - intros now gltfLoader. unfold bridgeIsAligned. rewrite newApp_bridge. reflexivity.
  - exact handle_bridge_other.
  - exact Hclick.
  - exact handle_bridgeIsAligned.
  - intros w now events now' Hw w1 w2.
    assert (Hflag : bridgeIsAligned (sceneManager w1) = true).
    { unfold w1. apply handles_bridgeIsAligned, Hclick. exact Hw. }
    assert (Hreach : reachable w1).
    { unfold w1. apply handles_reachable, reachable_handle. exact Hw. }
    destruct (reachable_hasBridge w1 Hreach) as [flag Hb].
    exists (mkBridge 0%nat 1%nat flag).
    assert (Hf : flag = true).
    { unfold bridgeIsAligned in Hflag. rewrite Hb in Hflag. exact Hflag. }
    assert (Hgate : w2 = triggerBridgeMovement now' w1).
    { unfold w2, triggerBridgeMechanism. rewrite Hflag, orb_true_r. reflexivity. }
    split; [exact Hb |]. split; [exact Hf |]. split; [exact Hgate |].
    split; [rewrite Hgate; apply triggerBridgeMovement_console |].
    rewrite Hgate.
    apply (triggerBridgeMovement_fires now' w1 (mkBridge 0%nat 1%nat flag));
      [exact Hb | exact Hf | simpl; discriminate].
Qed.

(** ** A mesh tween runs to its target *)

Lemma landing_tweenPosition (target : Target.t) (current start : Vector3)
  (easing : R) :
  landing target (tweenPosition current start target easing) = landing target current.
Proof.
  destruct target as [tx ty tz]. unfold landing, tweenPosition. simpl.
  destruct tx, ty, tz; reflexivity.
Qed.

Lemma tweenPosition_done (target : Target.t) (current start : Vector3) :
  tweenPosition current start target 1 = landing target current.
Proof.
  destruct target as [tx ty tz]. unfold landing, tweenPosition. simpl.
  f_equal; [destruct tx | destruct ty | destruct tz]; simpl; lra.
Qed.

Lemma runCallback_rafQueue_cases (now : R) (cb : Callback) (w : App) :
  rafQueue (runCallback now cb w) = rafQueue w ++ [cb]
  \/ rafQueue (runCallback now cb w) = rafQueue w.
Proof.
  destruct cb; simpl; repeat case_if; simpl; tauto.
Qed.

Lemma runCallback_store_other (now : R) (cb : Callback) (w : App) (r : ref) :
  writesTo cb <> Some r -> store (runCallback now cb w) r = store w r.
Proof.
  intro H.
  destruct cb; simpl in *; repeat case_if; simpl; try reflexivity;
    apply write_other; intro K; apply H; rewrite K; reflexivity.
Qed.

Section MeshTween.

Variables (r : ref) (target : Target.t) (goal : Vector3).

(** A closure that writes to [r] has run: [w'] is what it left. *)
Lemma writer_tweenMidFrame (deadline now duration startTime : R)
  (cb : Callback) (start : Vector3) (l : list Callback) (a w' : App) :
  0 < duration -> startTime + duration <= deadline ->
  writesTo cb = Some r ->
  store w' r = tweenPosition (store a r) start target
                 (easeProgress (progressAt startTime duration now)) ->
  (rafQueue w' = rafQueue a ++ [cb] /\ progressAt startTime duration now < 1
   \/ rafQueue w' = rafQueue a /\ 1 <= progressAt startTime duration now) ->
  tweenMidFrame r target goal deadline now (cb :: l) a ->
  tweenMidFrame r target goal deadline now l w'.
Proof.
  intros Hd Hend Hw Hstore Hqueue (Hl & Hq & Hland & _ & Hlate).
  unfold tweenMidFrame.
  assert (Hcb : drives r target deadline cb) by (inversion Hl; assumption).
  split; [inversion Hl; assumption |].
  assert (Hland' : landing target (store w' r) = goal).
  { rewrite Hstore, landing_tweenPosition. exact Hland. }
  destruct Hqueue as [[Hq' Hp] | [Hq' Hp]]; rewrite Hq'.
  - split; [apply Forall_app; split;
            [exact Hq | constructor; [exact Hcb | constructor]] |].
    split; [exact Hland' |].
    split.
    + left. exists cb. split; [| exact Hw].
      apply in_or_app. right. apply in_or_app. right. left. reflexivity.
    + intro Ht. exfalso.
      rewrite progressAt_done in Hp by lra. lra.
  - split; [exact Hq |]. split; [exact Hland' |].
    split; [| exact Hlate].
    right. rewrite Hstore.
    assert (E : progressAt startTime duration now = 1)
      by (apply Rle_antisym; [apply progressAt_le_1 | exact Hp]).
    rewrite E, easeProgress_1, tweenPosition_done. exact Hland.
Qed.

Lemma bystander_tweenMidFrame (deadline now : R) (cb : Callback)
  (l : list Callback) (a : App) :
  writesTo cb <> Some r ->
  tweenMidFrame r target goal deadline now (cb :: l) a ->
  tweenMidFrame r target goal deadline now l (runCallback now cb a).
Proof.
  intros Hw (Hl & Hq & Hland & Hsome & Hlate). unfold tweenMidFrame.
  assert (Hcb : drives r target deadline cb) by (inversion Hl; assumption).
  rewrite runCallback_store_other by exact Hw.
  split; [inversion Hl; assumption |].
  assert (Hsome' : forall q', incl (rafQueue a) q' ->
            (exists cb0, In cb0 (l ++ q') /\ writesTo cb0 = Some r)
            \/ store a r = goal).
  { intros q' Hincl. destruct Hsome as [(cb0 & Hin & Hw0) | Hat]; [| tauto].
    left. exists cb0. split; [| exact Hw0].
    simpl in Hin. destruct Hin as [-> | Hin]; [contradiction |].
    apply in_app_or in Hin. apply in_or_app.
    destruct Hin as [Hin | Hin]; [left; exact Hin | right; apply Hincl, Hin]. }
  destruct (runCallback_rafQueue_cases now cb a) as [-> | ->].
  - split; [apply Forall_app; split;
            [exact Hq | constructor; [exact Hcb | constructor]] |].
    split; [exact Hland |].
    split; [apply Hsome'; apply incl_appl, incl_refl |].
    intros Ht cb0 Hin. apply in_app_or in Hin.
    destruct Hin as [Hin | [<- | []]]; [apply (Hlate Ht), Hin | exact Hw].
  - split; [exact Hq |]. split; [exact Hland |].
    split; [apply Hsome', incl_refl | exact Hlate].
Qed.

Lemma runCallback_tweenMidFrame (deadline now : R) (cb : Callback)
  (l : list Callback) (a : App) :
  tweenMidFrame r target goal deadline now (cb :: l) a ->
  tweenMidFrame r target goal deadline now l (runCallback now cb a).
Proof.
  intro H.
  assert (Hcb : drives r target deadline cb)
    by (destruct H as (Hl & _); inversion Hl; assumption).
  destruct cb as [| sp tp st tl t0 | character start target' t0 oc
                 | segment start target' t0].
  - apply bystander_tweenMidFrame; [discriminate | exact H].
  - apply bystander_tweenMidFrame; [discriminate | exact H].
  - destruct (Nat.eq_dec character r) as [-> | Hne].
    + destruct (Hcb eq_refl) as [-> Hend].
      apply (writer_tweenMidFrame deadline now 2000 t0
               (CharacterAnimate r start target t0 oc) start l a);
        [lra | exact Hend | reflexivity | | | exact H].
      * simpl. repeat case_if; simpl; apply write_same.
      * simpl. destruct (Rltb (progressAt t0 2000 now) 1) eqn:Hp.
        -- left. split; [reflexivity | apply Rltb_true, Hp].
        -- right. split; [destruct oc; reflexivity | apply Rltb_false, Hp].
    + apply bystander_tweenMidFrame; [| exact H].
      simpl. intro K. injection K as K. contradiction.
  - destruct (Nat.eq_dec segment r) as [-> | Hne].
    + destruct (Hcb eq_refl) as [-> Hend].
      apply (writer_tweenMidFrame deadline now 1000 t0
               (BridgeSegmentAnimate r start target t0) start l a);
        [lra | exact Hend | reflexivity | | | exact H].
      * simpl. case_if; simpl; apply write_same.
      * simpl. destruct (Rltb (progressAt t0 1000 now) 1) eqn:Hp.
        -- left. split; [reflexivity | apply Rltb_true, Hp].
        -- right. split; [reflexivity | apply Rltb_false, Hp].
    + apply bystander_tweenMidFrame; [| exact H].
      simpl. intro K. injection K as K. contradiction.
Qed.

Lemma frame_tweenPending (deadline now : R) (w : App) :
  tweenPending r target goal deadline w ->
  tweenPending r target goal deadline (frame now w) /\
  (deadline <= now -> settled r goal (frame now w)).
Proof.
  intros (Hq & Hland & Hsome). unfold frame.
  pose proof (fold_runCallback_ind now
    (tweenMidFrame r target goal deadline now)
    (runCallback_tweenMidFrame deadline now) (rafQueue w) (setRafQueue [] w)) as K.
  destruct K as (_ & Hq' & Hland' & Hsome' & Hlate').
  - unfold tweenMidFrame. simpl. rewrite app_nil_r.
    repeat split; try assumption; try constructor.
    intros _ cb [].
  - simpl in Hsome'. split.
    + repeat split; assumption.
    + intro Ht. split; [exact (Hlate' Ht) |].
      destruct Hsome' as [(cb & Hin & Hw) | Hat]; [| exact Hat].
      exfalso. exact (Hlate' Ht cb Hin Hw).
Qed.

End MeshTween.

Lemma bystanders_drive (r : ref) (target : Target.t) (deadline : R)
  (q : list Callback) :
  (forall cb, In cb q -> writesTo cb <> Some r) ->
  Forall (drives r target deadline) q.
Proof.
  intro H. apply Forall_forall. intros cb Hin. specialize (H cb Hin).
  destruct cb; simpl in *; try exact I; intros ->; exfalso; apply H; reflexivity.
Qed.

Lemma frame_settled (r : ref) (goal : Vector3) (now : R) (w : App) :
  settled r goal w -> settled r goal (frame now w).
Proof.
  intros [Hnone Hat].
  apply (frame_tweenPending r (Target.mk None None None) goal now now w);
    [| lra].
  split; [apply bystanders_drive; exact Hnone |].
  split; [| right; exact Hat].
  rewrite <- Hat. destruct (store w r). reflexivity.
Qed.

Lemma frames_settled (r : ref) (goal : Vector3) (times : list R) (w : App) :
  settled r goal w -> settled r goal (frames times w).
Proof.
  revert w. induction times as [| now times IH]; intros w H; simpl.
  - exact H.
  - apply IH, frame_settled, H.
Qed.

Lemma frames_tweenPending (r : ref) (target : Target.t) (goal : Vector3)
  (deadline : R) (times : list R) (w : App) :
  (exists t, In t times /\ deadline <= t) ->
  tweenPending r target goal deadline w ->
  settled r goal (frames times w).
Proof.
  revert w. induction times as [| now times IH]; intros w (t & Hin & Ht) Hw.
  - destruct Hin.
  - simpl. destruct (frame_tweenPending r target goal deadline now w Hw)
      as [Hnext Hdone].
    destruct (Rle_dec deadline now) as [Hle | Hgt].
    + apply frames_settled, Hdone, Hle.
    + apply IH; [| exact Hnext].
      destruct Hin as [-> | Hin]; [contradiction |]. exists t. split; assumption.
Qed.

(** Starting a tween of another mesh, or of this one towards the same target
    in time, keeps [r] on its way. *)
Lemma requestAnimationFrame_tweenPending (r : ref) (target : Target.t)
  (goal : Vector3) (deadline : R) (cb : Callback) (h : Store) (w : App) :
  drives r target deadline cb ->
  landing target (h r) = landing target (store w r) ->
  (writesTo cb = Some r \/ h r = store w r) ->
  tweenPending r target goal deadline w ->
  tweenPending r target goal deadline (requestAnimationFrame cb (setStore h w)).
Proof.
  intros Hcb Hland Hcase (Hq & Hgoal & Hsome). unfold tweenPending. simpl.
  split; [apply Forall_app; split; [exact Hq | constructor; [exact Hcb | constructor]] |].
  split; [rewrite Hland; exact Hgoal |].
  destruct Hcase as [Hw | Hsame].
  - left. exists cb. split; [apply in_or_app; right; left; reflexivity | exact Hw].
  - destruct Hsome as [(cb0 & Hin & Hw0) | Hat].
    + left. exists cb0. split; [apply in_or_app; left; exact Hin | exact Hw0].
    + right. rewrite Hsame. exact Hat.
Qed.

(** ** The bridge segments, when the flag is set *)

Lemma triggerReunion_tweenPending (r : ref) (target : Target.t) (goal : Vector3)
  (deadline now : R) (w : App) :
  mother (sceneManager w) <> Some r -> child (sceneManager w) <> Some r ->
  tweenPending r target goal deadline w ->
  tweenPending r target goal deadline (triggerReunion now w).
Proof.
  intros Hm Hc H. unfold triggerReunion.
  destruct (mother (sceneManager w)) as [m |]; [| exact H].
  destruct (child (sceneManager w)) as [c |]; [| exact H].
  assert (Hmr : r <> m) by (intros ->; apply Hm; reflexivity).
  assert (Hcr : r <> c) by (intros ->; apply Hc; reflexivity).
  rewrite !animateCharacter_started.
  apply requestAnimationFrame_tweenPending.
  - simpl. intro K. symmetry in K. contradiction.
  - rewrite write_other by exact Hcr. reflexivity.
  - right. apply write_other. exact Hcr.
  - apply requestAnimationFrame_tweenPending.
    + simpl. intro K. symmetry in K. contradiction.
    + rewrite write_other by exact Hmr. reflexivity.
    + right. apply write_other. exact Hmr.
    + exact H.
Qed.

(** With the flag set and nothing else pending on the segments, each segment
    ends 0.3 further along z once a frame samples the clock 1000 ms or more
    after the trigger. *)
Lemma triggerBridgeMovement_offsets_segments (now : R) (times : list R) (w : App)
  (b : Bridge) :
  bridge (sceneManager w) = Some b -> isAligned b = true ->
  bridge_left b <> bridge_right b ->
  mother (sceneManager w) <> Some (bridge_left b) ->
  mother (sceneManager w) <> Some (bridge_right b) ->
  child (sceneManager w) <> Some (bridge_left b) ->
  child (sceneManager w) <> Some (bridge_right b) ->
  (forall cb, In cb (rafQueue w) ->
     writesTo cb <> Some (bridge_left b) /\ writesTo cb <> Some (bridge_right b)) ->
  (exists t, In t times /\ now + 1000 <= t) ->
  let w' := frames times (triggerBridgeMovement now w) in
  let pl := store w (bridge_left b) in
  let pr := store w (bridge_right b) in
  store w' (bridge_left b) = mkVector3 (x pl) (y pl) (z pl + 0.3) /\
  store w' (bridge_right b) = mkVector3 (x pr) (y pr) (z pr + 0.3).
Proof.
  intros Hb Hflag Hne HmL HmR HcL HcR Hquiet Hlate w' pl pr.
  assert (HL : tweenPending (bridge_left b)
                 (Target.mk None None (Some (z pl + 0.3)))
                 (mkVector3 (x pl) (y pl) (z pl + 0.3)) (now + 1000)
                 (triggerBridgeMovement now w)).
  { unfold triggerBridgeMovement. rewrite Hb, Hflag.
    apply triggerReunion_tweenPending;
      [rewrite !animateBridgeSegment_started; exact HmL
      | rewrite !animateBridgeSegment_started; exact HcL |].
    rewrite !animateBridgeSegment_started.
    apply requestAnimationFrame_tweenPending.
    - simpl. intro K. symmetry in K. contradiction.
    - simpl. rewrite write_other by exact Hne. reflexivity.
    - right. simpl. apply write_other. exact Hne.
    - unfold tweenPending. simpl. split; [| split].
      + apply Forall_app. split.
        * apply bystanders_drive. intros cb Hin. apply (Hquiet cb Hin).
        * constructor; [| constructor]. simpl. intros _. split; [reflexivity | lra].
      + rewrite write_same, landing_tweenPosition. reflexivity.
      + left. eexists. split; [apply in_or_app; right; left; reflexivity |].
        reflexivity. }
  assert (HR : tweenPending (bridge_right b)
                 (Target.mk None None (Some (z pr + 0.3)))
                 (mkVector3 (x pr) (y pr) (z pr + 0.3)) (now + 1000)
                 (triggerBridgeMovement now w)).
  { unfold triggerBridgeMovement. rewrite Hb, Hflag.
    apply triggerReunion_tweenPending;
      [rewrite !animateBridgeSegment_started; exact HmR
      | rewrite !animateBridgeSegment_started; exact HcR |].
    rewrite !animateBridgeSegment_started.
    assert (Hne' : bridge_right b <> bridge_left b)
      by (intro K; apply Hne; symmetry; exact K).
    unfold tweenPending. simpl. split; [| split].
    - repeat (apply Forall_app; split).
      + apply bystanders_drive. intros cb Hin. apply (Hquiet cb Hin).
      + constructor; [| constructor]. simpl. intro K. contradiction.
      + constructor; [| constructor]. simpl. intros _. split; [reflexivity | lra].
    - rewrite write_same, landing_tweenPosition.
      rewrite write_other by exact Hne'. reflexivity.
    - left. eexists. split; [apply in_or_app; right; left; reflexivity |].
      reflexivity. }
  split.
  - exact (proj2 (frames_tweenPending _ _ _ _ times _ Hlate HL)).
  - exact (proj2 (frames_tweenPending _ _ _ _ times _ Hlate HR)).
Qed.

(** ** The reunion *)

Lemma frames_sceneManager (times : list R) (w : App) :
  sceneManager (frames times w) = sceneManager w.
Proof.
  revert w. induction times as [| now times IH]; intro w; simpl.
  - reflexivity.
  - rewrite IH. apply frame_sceneManager.
Qed.

Lemma initial_places_differ (w : App) (m c : ref) :
  store w m = mkVector3 (-12) 1 0 -> store w c = mkVector3 12 1 0 -> m <> c.
Proof.
  intros Hm Hc E. subst c. rewrite Hm in Hc.
  apply (f_equal x) in Hc. simpl in Hc. lra.
Qed.

Lemma triggerBridgeMovement_reunion (now : R) (w : App) (b : Bridge) (m c : ref) :
  bridge (sceneManager w) = Some b -> isAligned b = true ->
  mother (sceneManager w) = Some m -> child (sceneManager w) = Some c ->
  store w m = mkVector3 (-12) 1 0 -> store w c = mkVector3 12 1 0 ->
  bridge_left b <> m -> bridge_left b <> c ->
  bridge_right b <> m -> bridge_right b <> c ->
  Forall (drives m (Target.mk (Some (-2)) None None) (now + 2000)) (rafQueue w) ->
  Forall (drives c (Target.mk (Some 2) None None) (now + 2000)) (rafQueue w) ->
  tweenPending m (Target.mk (Some (-2)) None None) (mkVector3 (-2) 1 0) (now + 2000)
               (triggerBridgeMovement now w) /\
  tweenPending c (Target.mk (Some 2) None None) (mkVector3 2 1 0) (now + 2000)
               (triggerBridgeMovement now w).
Proof.
  intros Hb Hflag Hm Hc Hsm Hsc HLm HLc HRm HRc Hqm Hqc.
  pose proof (initial_places_differ w m c Hsm Hsc) as Hmc.
  unfold triggerBridgeMovement. rewrite Hb, Hflag.
  rewrite !animateBridgeSegment_started.
  unfold triggerReunion. simpl. rewrite Hm, Hc.
  rewrite !animateCharacter_started.
  unfold tweenPending. simpl. split.
  - split.
    + repeat (apply Forall_app; split); try exact Hqm;
        (constructor; [simpl | constructor]).
      * intro K. contradiction.
      * intro K. contradiction.
      * intros _. split; [reflexivity | lra].
      * intro K. exfalso. apply Hmc. symmetry. exact K.
    + split.
      * rewrite (write_other _ c m) by exact Hmc.
        rewrite write_same, landing_tweenPosition.
        rewrite !write_other by (intro K; symmetry in K; contradiction).
        rewrite Hsm. reflexivity.
      * left. eexists. split.
        -- apply in_or_app. left. apply in_or_app. right. left. reflexivity.
        -- reflexivity.
  - split.
    + repeat (apply Forall_app; split); try exact Hqc;
        (constructor; [simpl | constructor]).
      * intro K. contradiction.
      * intro K. contradiction.
      * intro K. contradiction.
      * intros _. split; [reflexivity | lra].
    + split.
      * rewrite write_same, landing_tweenPosition.
        rewrite (write_other _ m c) by (intro K; apply Hmc; symmetry; exact K).
        rewrite !write_other by (intro K; symmetry in K; contradiction).
        rewrite Hsc. reflexivity.
      * left. eexists. split.
        -- apply in_or_app. right. left. reflexivity.
        -- reflexivity.
Qed.

Lemma distanceTo_reunited :
  distanceTo (mkVector3 (-2) 1 0) (mkVector3 2 1 0) = 4.
Proof.
  unfold distanceTo. simpl.
  replace ((-2 - 2) * (-2 - 2) + (1 - 1) * (1 - 1) + (0 - 0) * (0 - 0))
    with 16 by ring.
  apply sqrt_16.
Qed.

(** The reunion from any state in which the characters are not the bridge
    segments and whatever else is pending on them is an earlier reunion
    tween. *)
Lemma reunion_from_compatible_state :
  forall (now : R) (times : list R) (w : App) (b : Bridge) (m c : ref),
    bridge (sceneManager w) = Some b -> isAligned b = true ->
    mother (sceneManager w) = Some m -> child (sceneManager w) = Some c ->
    store w m = mkVector3 (-12) 1 0 -> store w c = mkVector3 12 1 0 ->
    (bridge_left b <> m /\ bridge_left b <> c /\
     bridge_right b <> m /\ bridge_right b <> c) ->
    Forall (drives m (Target.mk (Some (-2)) None None) (now + 2000)) (rafQueue w) ->
    Forall (drives c (Target.mk (Some 2) None None) (now + 2000)) (rafQueue w) ->
    (exists t, In t times /\ now + 2000 <= t) ->
    let w1 := triggerBridgeMechanism now w in
    let w' := frames times w1 in
    (exists start, In (CharacterAnimate m start (Target.mk (Some (-2)) None None)
                         now (Some "母子会合完成"%string)) (rafQueue w1)) /\
    (exists start, In (CharacterAnimate c start (Target.mk (Some 2) None None)
                         now None) (rafQueue w1)) /\
    store w' m = mkVector3 (-2) 1 0 /\
    store w' c = mkVector3 2 1 0 /\
    distanceTo (store w' m) (store w' c) = 4 /\
    distanceTo (store w' m) (store w' c) < 5 /\
    motherChildReunited (sceneStateOf w') = true.
Proof.
  intros now times w b m c Hb Hflag Hm Hc Hsm Hsc (HLm & HLc & HRm & HRc)
    Hqm Hqc Hlate w1 w'.
  assert (Hgate : w1 = triggerBridgeMovement now w).
  { unfold w1, triggerBridgeMechanism, bridgeIsAligned.
    rewrite Hb, Hflag, orb_true_r. reflexivity. }
  destruct (triggerBridgeMovement_reunion now w b m c) as [Hpm Hpc]; try assumption.
  rewrite <- Hgate in Hpm, Hpc.
  destruct (frames_tweenPending _ _ _ _ times w1 Hlate Hpm) as [_ Hatm].
  destruct (frames_tweenPending _ _ _ _ times w1 Hlate Hpc) as [_ Hatc].
  fold w' in Hatm, Hatc.
  assert (Hsame : sceneManager w' = sceneManager w).
  { unfold w', w1.
    rewrite frames_sceneManager, triggerBridgeMechanism_sceneManager. reflexivity. }
  split.
  { rewrite Hgate. unfold triggerBridgeMovement. rewrite Hb, Hflag.
    rewrite !animateBridgeSegment_started.
    unfold triggerReunion. simpl. rewrite Hm, Hc.
    rewrite !animateCharacter_started. simpl. eexists.
    apply in_or_app. left. apply in_or_app. right. left. reflexivity. }
  split.
  { rewrite Hgate. unfold triggerBridgeMovement. rewrite Hb, Hflag.
    rewrite !animateBridgeSegment_started.
    unfold triggerReunion. simpl. rewrite Hm, Hc.
    rewrite !animateCharacter_started. simpl. eexists.
    apply in_or_app. right. left. reflexivity. }
  split; [exact Hatm |]. split; [exact Hatc |].
  rewrite Hatm, Hatc, distanceTo_reunited.
  split; [reflexivity |]. split; [lra |].
  unfold sceneStateOf. simpl. rewrite Hsame, Hm, Hc, Hatm, Hatc, distanceTo_reunited.
  apply Rltb_true. lra.
Qed.

(** ** Pending closures in reachable states *)

Lemma runCallback_nextRef (now : R) (cb : Callback) (w : App) :
  nextRef (runCallback now cb w) = nextRef w.
Proof. destruct cb; simpl; repeat case_if; reflexivity. Qed.

Lemma frame_rafQueue_Forall (P : Callback -> Prop) (now : R) (w : App) :
  Forall P (rafQueue w) -> Forall P (rafQueue (frame now w)).
Proof.
  intro H. unfold frame.
  apply (fold_runCallback_ind now
           (fun l a => Forall P l /\ Forall P (rafQueue a))).
  - intros cb l a [Hl Ha]. inversion Hl as [| ? ? Hcb Hl']; subst.
    split; [exact Hl' |].
    destruct (runCallback_rafQueue_cases now cb a) as [-> | ->].
    + apply Forall_app. split; [exact Ha | constructor; [exact Hcb | constructor]].
    + exact Ha.
  - split; [exact H | constructor].
Qed.

Lemma frame_nextRef (now : R) (w : App) : nextRef (frame now w) = nextRef w.
Proof.
  unfold frame.
  apply (fold_runCallback_ind now (fun _ a => nextRef a = nextRef w)).
  - intros cb l a H. rewrite runCallback_nextRef. exact H.
  - reflexivity.
Qed.

Lemma reunionClosure_later (clock clock' : R) (next : ref) (mo ch : option ref)
  (cb : Callback) :
  clock <= clock' ->
  reunionClosure clock next mo ch cb -> reunionClosure clock' next mo ch cb.
Proof.
  intros Hle. destruct cb; simpl; try tauto.
  intros (Hr & Ht & Hm & Hc). repeat split; try tauto; lra.
Qed.

Lemma wellFormed_same_scene (clock clock' : R) (w w' : App) :
  sceneManager w' = sceneManager w -> nextRef w' = nextRef w ->
  (forall P : Callback -> Prop,
     (forall sp tp st tl t0, P (CameraAnimate sp tp st tl t0)) ->
     P AppAnimate ->
     Forall P (rafQueue w) -> Forall P (rafQueue w')) ->
  clock <= clock' ->
  wellFormed clock w -> wellFormed clock' w'.
Proof.
  intros Hs Hn Hq Hle (Hb & Hnext & Hm & Hc & Hd & Hall).
  unfold wellFormed, hasBridge. rewrite Hs, Hn.
  split; [exact Hb |]. split; [exact Hnext |]. split; [exact Hm |].
  split; [exact Hc |]. split; [exact Hd |].
  apply Hq; [intros; exact I | exact I |].
  eapply Forall_impl; [| exact Hall]. intro cb. apply reunionClosure_later, Hle.
Qed.

Lemma setPresetView_nextRef (presetName : string) (now : R) (w : App) :
  nextRef (setPresetView presetName now w) = nextRef w.
Proof.
  unfold setPresetView, animateToPosition.
  destruct (isAnimating (cameraManager w)); [reflexivity |].
  destruct (presets presetName);
    [| destruct (inheritedProperty presetName); reflexivity].
  rewrite runCallback_nextRef. reflexivity.
Qed.

Lemma setPresetView_rafQueue_Forall (P : Callback -> Prop) (presetName : string)
  (now : R) (w : App) :
  (forall sp tp st tl t0, P (CameraAnimate sp tp st tl t0)) ->
  Forall P (rafQueue w) -> Forall P (rafQueue (setPresetView presetName now w)).
Proof.
  intros Hcam H. unfold setPresetView, animateToPosition.
  destruct (isAnimating (cameraManager w)); [exact H |].
  destruct (presets presetName);
    [| destruct (inheritedProperty presetName); exact H].
  match goal with
  | |- context [runCallback now ?cb ?a] =>
      destruct (runCallback_rafQueue_cases now cb a) as [-> | ->]
  end.
  - apply Forall_app. split; [exact H | constructor; [apply Hcam | constructor]].
  - exact H.
Qed.

Lemma setPresetView_wellFormed (clock clock' : R) (presetName : string) (now : R)
  (w : App) :
  clock <= clock' ->
  wellFormed clock w -> wellFormed clock' (setPresetView presetName now w).
Proof.
  intros Hle H. apply (wellFormed_same_scene clock clock' w); try assumption.
  - apply setPresetView_sceneManager.
  - apply setPresetView_nextRef.
  - intros P Hcam _. apply setPresetView_rafQueue_Forall. exact Hcam.
Qed.

Lemma frame_wellFormed (clock clock' now : R) (w : App) :
  clock <= clock' ->
  wellFormed clock w -> wellFormed clock' (frame now w).
Proof.
  intros Hle H. apply (wellFormed_same_scene clock clock' w); try assumption.
  - apply frame_sceneManager.
  - apply frame_nextRef.
  - intros P _ _. apply frame_rafQueue_Forall.
Qed.

Lemma triggerBridgeMechanism_nextRef (now : R) (w : App) :
  nextRef (triggerBridgeMechanism now w) = nextRef w.
Proof.
  unfold triggerBridgeMechanism, triggerBridgeMovement, triggerReunion,
    animateBridgeSegment, animateCharacter.
  repeat case_if; rewrite ?runCallback_nextRef; reflexivity.
Qed.

Lemma triggerBridgeMechanism_wellFormed (clock now : R) (w : App) :
  clock <= now ->
  wellFormed clock w -> wellFormed now (triggerBridgeMechanism now w).
Proof.
  intros Hle H.
  pose proof (wellFormed_same_scene clock now w w eq_refl eq_refl
                (fun P _ _ K => K) Hle H) as H'.
  clear H. destruct H' as (Hb & Hnext & Hm & Hc & Hd & Hall).
  unfold wellFormed, hasBridge.
  rewrite triggerBridgeMechanism_nextRef, triggerBridgeMechanism_sceneManager.
  split; [exact Hb |]. split; [exact Hnext |]. split; [exact Hm |].
  split; [exact Hc |]. split; [exact Hd |].
  unfold triggerBridgeMechanism. case_if; [| exact Hall].
  unfold triggerBridgeMovement. destruct Hb as [flag Hb]. rewrite Hb.
  cbn [isAligned bridge_left bridge_right].
  destruct flag; [| exact Hall].
  rewrite !animateBridgeSegment_started. unfold triggerReunion.
  cbn [sceneManager requestAnimationFrame setRafQueue setStore rafQueue].
  assert (Hsegs : Forall (reunionClosure now (nextRef w) (mother (sceneManager w))
                            (child (sceneManager w)))
                    ((rafQueue w ++
                      [BridgeSegmentAnimate 0%nat (store w 0%nat)
                         (Target.mk None None (Some (z (store w 0%nat) + 0.3))) now])
                     ++ [BridgeSegmentAnimate 1%nat
                           (write (store w) 0%nat
                              (tweenPosition (store w 0%nat) (store w 0%nat)
                                 (Target.mk None None
                                    (Some (z (store w 0%nat) + 0.3))) 0) 1%nat)
                           (Target.mk None None (Some (z (store w 1%nat) + 0.3)))
                           now])).
  { repeat (apply Forall_app; split); [exact Hall | |];
      (constructor; [simpl; lia | constructor]). }
  destruct (mother (sceneManager w)) as [m |] eqn:Em; [| exact Hsegs].
  destruct (child (sceneManager w)) as [c |] eqn:Ec; [| exact Hsegs].
  rewrite !animateCharacter_started.
  cbn [sceneManager requestAnimationFrame setRafQueue setStore rafQueue].
  apply Forall_app; split; [apply Forall_app; split; [exact Hsegs |] |];
    (constructor; [| constructor]); simpl.
  - split; [apply Hm; reflexivity |]. split; [lra |]. split; [reflexivity |].
    intro K. exfalso. exact (Hd m eq_refl K).
  - split; [apply Hc; reflexivity |]. split; [lra |]. split; [| reflexivity].
    intro K. exfalso. inversion K; subst. exact (Hd c eq_refl eq_refl).
Qed.

Lemma deliverModel_wellFormed (clock : R) (type : Role) (w : App) :
  wellFormed clock w -> wellFormed clock (deliverModel type w).
Proof.
  intros (Hb & Hnext & Hm & Hc & Hd & Hall).
  unfold wellFormed, hasBridge. rewrite deliverModel_bridge.
  split; [exact Hb |].
  destruct type; simpl.
  - split; [lia |].
    split; [intros m K; injection K as <-; lia |].
    split; [intros c K; specialize (Hc c K); lia |].
    split; [intros r K L; injection K as <-; specialize (Hc _ L); lia |].
    eapply Forall_impl; [| exact Hall].
    intros cb. destruct cb; simpl; try tauto.
    intros (Hr & Ht & _ & Hch). split; [lia |]. split; [exact Ht |].
    split; [| exact Hch]. intro K. injection K as K. lia.
  - split; [lia |].
    split; [intros m K; specialize (Hm m K); lia |].
    split; [intros c K; injection K as <-; lia |].
    split; [intros r K L; injection L as <-; specialize (Hm _ K); lia |].
    eapply Forall_impl; [| exact Hall].
    intros cb. destruct cb; simpl; try tauto.
    intros (Hr & Ht & Hmo & _). split; [lia |]. split; [exact Ht |].
    split; [exact Hmo |]. intro K. injection K as K. lia.
Qed.

Lemma setBridgeAligned_wellFormed (clock : R) (aligned : bool) (w : App) :
  wellFormed clock w ->
  wellFormed clock (setSceneManager (setBridgeAligned aligned (sceneManager w)) w).
Proof.
  intros ([flag Hb] & Hnext & Hm & Hc & Hd & Hall).
  unfold wellFormed, hasBridge, setBridgeAligned. rewrite Hb. simpl.
  split; [exists aligned; reflexivity |].
  split; [exact Hnext |]. split; [exact Hm |]. split; [exact Hc |].
  split; [exact Hd | exact Hall].
Qed.

Lemma wellFormed_later (clock clock' : R) (w : App) :
  clock <= clock' -> wellFormed clock w -> wellFormed clock' w.
Proof.
  intros Hle H.
  exact (wellFormed_same_scene clock clock' w w eq_refl eq_refl
           (fun P _ _ K => K) Hle H).
Qed.

Lemma handle_wellFormed (clock clock' : R) (e : Event) (w : App) :
  clock <= clock' ->
  (forall now, eventTime e = Some now -> now = clock') ->
  wellFormed clock w -> wellFormed clock' (handle e w).
Proof.
  intros Hle Htime H.
  destruct e as [[| | |] now | now | type | moved]; simpl.
  - apply (setPresetView_wellFormed clock); assumption.
  - apply (setPresetView_wellFormed clock); assumption.
  - apply setBridgeAligned_wellFormed.
    apply (setPresetView_wellFormed clock); assumption.
  - rewrite <- (Htime now eq_refl).
    apply (triggerBridgeMechanism_wellFormed clock); [| exact H].
    rewrite (Htime now eq_refl). exact Hle.
  - apply (frame_wellFormed clock); assumption.
  - apply (wellFormed_later clock); [exact Hle |]. apply deliverModel_wellFormed, H.
  - apply (wellFormed_same_scene clock clock' w); try assumption; try reflexivity.
    intros P _ _ K. exact K.
Qed.

Lemma newApp_wellFormed (now : R) (gltfLoader : bool) :
  wellFormed now (newApp now gltfLoader).
Proof.
  unfold newApp.
  assert (H0 : wellFormed now constructed).
  { unfold wellFormed, hasBridge. simpl.
    split; [exists false; reflexivity |]. split; [lia |].
    split; [intros m K; discriminate K |].
    split; [intros c K; discriminate K |].
    split; [intros r K; discriminate K | constructor]. }
  apply (setPresetView_wellFormed now now "mother" now) in H0; [| lra].
  assert (H1 : wellFormed now
                 (loadModels gltfLoader (setPresetView "mother" now constructed))).
  { destruct gltfLoader; unfold loadModels, createPlaceholderModels.
    - exact H0.
    - apply deliverModel_wellFormed, deliverModel_wellFormed, H0. }
  apply (wellFormed_same_scene now now _ _
           (runCallback_sceneManager now AppAnimate _)
           (runCallback_nextRef now AppAnimate _)); [| lra | exact H1].
  intros P _ Happ K. simpl.
  apply Forall_app. split; [exact K | constructor; [exact Happ | constructor]].
Qed.

Lemma reachableAt_wellFormed (clock : R) (w : App) :
  reachableAt clock w -> wellFormed clock w.
Proof.
  induction 1 as [now gltfLoader | clock now e w _ IH He Hle | clock e w _ IH He].
  - apply newApp_wellFormed.
  - apply (handle_wellFormed clock now); [exact Hle | | exact IH].
    intros now' K. rewrite He in K. injection K as <-. reflexivity.
  - apply (handle_wellFormed clock clock); [lra | | exact IH].
    intros now' K. rewrite He in K. discriminate K.
Qed.

Lemma reachableAt_reachable (clock : R) (w : App) :
  reachableAt clock w -> reachable w.
Proof.
  induction 1.
  - apply reachable_new.
  - apply reachable_handle. assumption.
  - apply reachable_handle. assumption.
Qed.

(** In a well-formed state whatever is pending is compatible with a reunion
    started now. *)
Lemma wellFormed_drives (clock now : R) (w : App) (m c : ref) :
  wellFormed clock w -> clock <= now ->
  mother (sceneManager w) = Some m -> child (sceneManager w) = Some c ->
  Forall (drives m (Target.mk (Some (-2)) None None) (now + 2000)) (rafQueue w) /\
  Forall (drives c (Target.mk (Some 2) None None) (now + 2000)) (rafQueue w) /\
  (2 <= m)%nat /\ (2 <= c)%nat.
Proof.
  intros (_ & _ & Hm & Hc & _ & Hall) Hle Em Ec.
  rewrite Em, Ec in Hall.
  split; [| split; [| split; [apply (Hm m Em) | apply (Hc c Ec)]]].
  - eapply Forall_impl; [| exact Hall].
    intros cb. destruct cb; simpl; try tauto.
    + intros (_ & Ht & Hmo & _) ->. split; [apply Hmo; reflexivity | lra].
    + intros Hs ->. specialize (Hm m Em). lia.
  - eapply Forall_impl; [| exact Hall].
    intros cb. destruct cb; simpl; try tauto.
    + intros (_ & Ht & _ & Hch) ->. split; [apply Hch; reflexivity | lra].
    + intros Hs ->. specialize (Hc c Ec). lia.
Qed.

(** A character tween stays registered while the clock samples are less than
    2000 ms after its start. *)
Lemma frame_keeps_character_tween (now : R) (w : App) (character : ref)
  (start : Vector3) (target : Target.t) (startTime : R) (oc : option string) :
  now < startTime + 2000 ->
  In (CharacterAnimate character start target startTime oc) (rafQueue w) ->
  In (CharacterAnimate character start target startTime oc)
     (rafQueue (frame now w)).
Proof.
  intros Hearly Hin. unfold frame.
  set (cb0 := CharacterAnimate character start target startTime oc) in *.
  assert (K : In cb0 [] \/ In cb0 (rafQueue
                (fold_left (fun a cb => runCallback now cb a) (rafQueue w)
                           (setRafQueue [] w)))).
  { apply (fold_runCallback_ind now
             (fun l a => In cb0 l \/ In cb0 (rafQueue a))).
    - intros cb l a [[Heq | Hl] | Ha].
      + right. subst cb. unfold cb0. simpl.
        assert (P : Rltb (progressAt startTime 2000 now) 1 = true)
          by (apply Rltb_true, progressAt_early; lra).
        rewrite P. simpl. apply in_or_app. right. left. reflexivity.
      + left. exact Hl.
      + right. destruct (runCallback_rafQueue_cases now cb a) as [-> | ->].
        * apply in_or_app. left. exact Ha.
        * exact Ha.
    - left. exact Hin. }
  destruct K as [[] | K]. exact K.
Qed.

Lemma frames_keep_character_tween (times : list R) (w : App) (character : ref)
  (start : Vector3) (target : Target.t) (startTime : R) (oc : option string) :
  (forall t, In t times -> t < startTime + 2000) ->
  In (CharacterAnimate character start target startTime oc) (rafQueue w) ->
  In (CharacterAnimate character start target startTime oc)
     (rafQueue (frames times w)).
Proof.
  revert w. induction times as [| now times IH]; intros w Hearly Hin; simpl.
  - exact Hin.
  - apply IH.
    + intros t Ht. apply Hearly. right. exact Ht.
    + apply frame_keeps_character_tween; [apply Hearly; left; reflexivity | exact Hin].
Qed.

(** C5. In a state reached with a clock that does not run backwards, the
    bridge's flag set and mother and child at (-12, 1, 0) and (12, 1, 0), the
    trigger registers a tween of the mother towards x = -2 and one of the
    child towards x = 2; both are still running as long as the frames sample
    the clock less than 2000 ms after the trigger, and after display frames
    of which one samples it 2000 ms or more after the trigger, the mother is
    at (-2, 1, 0), the child at (2, 1, 0), their distance is 4, below 5, and
    the frame callback reads them as reunited. *)
Theorem reunion_brings_characters_together :
  forall (clock now : R) (times : list R) (w : App) (m c : ref),
    reachableAt clock w -> clock <= now ->
    bridgeIsAligned (sceneManager w) = true ->
    mother (sceneManager w) = Some m -> child (sceneManager w) = Some c ->
    store w m = mkVector3 (-12) 1 0 -> store w c = mkVector3 12 1 0 ->
    (exists t, In t times /\ now + 2000 <= t) ->
    let w1 := triggerBridgeMechanism now w in
    let w' := frames times w1 in
    (exists startM startC,
       forall early, (forall t, In t early -> t < now + 2000) ->
         In (CharacterAnimate m startM (Target.mk (Some (-2)) None None)
               now (Some "母子会合完成"%string)) (rafQueue (frames early w1)) /\
         In (CharacterAnimate c startC (Target.mk (Some 2) None None)
               now None) (rafQueue (frames early w1))) /\
    store w' m = mkVector3 (-2) 1 0 /\
    store w' c = mkVector3 2 1 0 /\
    distanceTo (store w' m) (store w' c) = 4 /\
    distanceTo (store w' m) (store w' c) < 5 /\
    motherChildReunited (sceneStateOf w') = true.
Proof.
  intros clock now times w m c Hreach Hle Hflag Hm Hc Hsm Hsc Hlate.
  pose proof (reachableAt_wellFormed clock w Hreach) as Hwf.
  destruct (wellFormed_drives clock now w m c Hwf Hle Hm Hc)
    as (Hqm & Hqc & H2m & H2c).
  destruct Hwf as ([flag Hb] & _).
  assert (Hf : flag = true).
  { unfold bridgeIsAligned in Hflag. rewrite Hb in Hflag. exact Hflag. }
  destruct (reunion_from_compatible_state now times w
              (mkBridge 0%nat 1%nat flag) m c)
    as ([startM HinM] & [startC HinC] & Hrest); try assumption.
  { simpl. repeat split; lia. }
  intros w1 w'. split; [| exact Hrest].
  exists startM, startC. intros early Hearly. split.
  - apply frames_keep_character_tween; [exact Hearly | exact HinM].
  - apply frames_keep_character_tween; [exact Hearly | exact HinC].
Qed.

(** ** The application right after construction *)

Lemma newApp_placeholders (now : R) :
  let w := newApp now false in
  sceneManager w
    = mkSceneManager [0%nat; 1%nat] (Some (mkBridge 0%nat 1%nat false))
                     (Some 2%nat) (Some 3%nat) /\
  store w 0%nat = mkVector3 (-6) 0.5 0 /\
  store w 1%nat = mkVector3 6 0.5 0 /\
  store w 2%nat = mkVector3 (-12) 1 0 /\
  store w 3%nat = mkVector3 12 1 0 /\
  isAnimating (cameraManager w) = true /\
  rafQueue w
    = [CameraAnimate (mkVector3 0 0 0) (preset_position motherPreset)
         (getCameraLookAt (cameraManager constructed)) (preset_target motherPreset)
         now;
       AppAnimate].
Proof.
  unfold newApp, loadModels, createPlaceholderModels.
  rewrite (setPresetView_started "mother" motherPreset) by reflexivity.
  repeat split.
Qed.

Lemma alignedAtStart_state :
  sceneManager alignedAtStart
    = mkSceneManager [0%nat; 1%nat] (Some (mkBridge 0%nat 1%nat true))
                     (Some 2%nat) (Some 3%nat) /\
  store alignedAtStart 2%nat = mkVector3 (-12) 1 0 /\
  store alignedAtStart 3%nat = mkVector3 12 1 0 /\
  rafQueue alignedAtStart
    = [CameraAnimate (mkVector3 0 0 0) (preset_position motherPreset)
         (getCameraLookAt (cameraManager constructed)) (preset_target motherPreset)
         0;
       AppAnimate].
Proof.
  destruct (newApp_placeholders 0) as (Hsm & _ & _ & Hm & Hc & Hanim & Hq).
  unfold alignedAtStart.
  change (handle (Click BtnEmotionalView 0) (newApp 0 false))
    with (switchToEmotionalView 0 (newApp 0 false)).
  unfold switchToEmotionalView.
  rewrite setPresetView_busy by exact Hanim.
  unfold setSceneManager. cbn [sceneManager store rafQueue].
  rewrite Hsm. repeat split; assumption.
Qed.

(** ** Camera near the emotional view, flag not set *)

Lemma PointerControl_settled (r : ref) (v : Vector3) (moved : Camera) (w : App) :
  settled r v w -> settled r v (handle (PointerControl moved) w).
Proof. intro H. exact H. Qed.

Lemma PointerControl_position (moved : Camera) (w : App) :
  position (camera (cameraManager (handle (PointerControl moved) w)))
  = position moved.
Proof. reflexivity. Qed.

Lemma newApp_placeholders_quiet :
  Forall (fun cb => forall r, writesTo cb <> Some r) (rafQueue (newApp 0 false)).
Proof.
  destruct (newApp_placeholders 0) as (_ & _ & _ & _ & _ & _ & Hq).
  rewrite Hq. repeat constructor; intros r K; discriminate K.
Qed.

Lemma draggedToEmotionalView_settled (r : ref) (v : Vector3) :
  store (newApp 0 false) r = v -> settled r v draggedToEmotionalView.
Proof.
  intro Hv. unfold draggedToEmotionalView.
  apply PointerControl_settled.
  change (handle (AnimationFrame 2000) (newApp 0 false))
    with (frame 2000 (newApp 0 false)).
  apply frame_settled. split; [| exact Hv].
  intros cb Hin. pose proof newApp_placeholders_quiet as H.
  rewrite Forall_forall in H. apply H, Hin.
Qed.

Lemma draggedToEmotionalView_bridge :
  bridge (sceneManager draggedToEmotionalView) = Some (mkBridge 0%nat 1%nat false).
Proof.
  unfold draggedToEmotionalView.
  rewrite !handle_bridge_other by (intros; discriminate).
  apply newApp_bridge.
Qed.

Lemma draggedToEmotionalView_near :
  isNearEmotionalView (Some 3.0) (cameraManager draggedToEmotionalView) = true.
Proof.
  unfold isNearEmotionalView, draggedToEmotionalView. apply Rltb_true.
  rewrite PointerControl_position. unfold lookAt. cbn [position].
  rewrite distanceTo_self. lra.
Qed.

Lemma draggedToEmotionalView_trigger (now : R) :
  triggerBridgeMechanism now draggedToEmotionalView = draggedToEmotionalView.
Proof.
  unfold triggerBridgeMechanism. rewrite draggedToEmotionalView_near. simpl orb.
  unfold triggerBridgeMovement. rewrite draggedToEmotionalView_bridge.
  cbn [isAligned]. reflexivity.
Qed.

(** C1 (failing input). After the opening transition the camera is dragged
    onto the emotional preset's position without the emotional-view button
    having been pressed: the state is reachable, the trigger's proximity test
    holds and the flag is not set, yet the trigger returns the state it was
    given, and whatever frames follow both bridge segments keep z = 0:
    [triggerBridgeMovement] tests the flag alone. *)
Theorem trigger_near_without_flag_moves_nothing :
  reachable draggedToEmotionalView /\
  isNearEmotionalView (Some 3.0) (cameraManager draggedToEmotionalView) = true /\
  bridge (sceneManager draggedToEmotionalView)
    = Some (mkBridge 0%nat 1%nat false) /\
  (forall now,
     triggerBridgeMechanism now draggedToEmotionalView = draggedToEmotionalView) /\
  (forall now times,
     let w' := frames times (triggerBridgeMechanism now draggedToEmotionalView) in
     store w' 0%nat = mkVector3 (-6) 0.5 0 /\ store w' 1%nat = mkVector3 6 0.5 0).
Proof.
  split; [apply reachable_handle, reachable_handle, reachable_new |].
  split; [exact draggedToEmotionalView_near |].
  split; [exact draggedToEmotionalView_bridge |].
  split; [exact draggedToEmotionalView_trigger |].
  intros now times w'. unfold w'. rewrite draggedToEmotionalView_trigger.
  destruct (newApp_placeholders 0) as (_ & HL & HR & _).
  split.
  - exact (proj2 (frames_settled 0%nat _ times _
                    (draggedToEmotionalView_settled _ _ HL))).
  - exact (proj2 (frames_settled 1%nat _ times _
                    (draggedToEmotionalView_settled _ _ HR))).
Qed.

(** ** The properties at concrete states *)

Lemma constructed_idle :
  isAnimating (cameraManager constructed) = false /\ singleCameraTween constructed.
Proof.
  split; [reflexivity |]. split; [apply Nat.le_0_l | reflexivity].
Qed.

Lemma setPresetView_lands_within_rounding_witness :
  let w' := frames [1000; 2000] (setPresetView "mother" 0 constructed) in
  position (camera (cameraManager w'))
    = lerpVectors (mkVector3 0 0 0) (preset_position motherPreset) (easeProgress 1) /\
  isAnimating (cameraManager w') = false /\
  Binary64.lastSample (Binary64.mkVector3 0 0 0) Binary64.motherPosition
    = Binary64.motherPosition.
Proof.
  intro w'.
  destruct (proj1 setPresetView_lands_within_rounding
              "mother"%string motherPreset 0 [1000; 2000] constructed)
    as (_ & _ & Hpos & _ & Hanim & _).
  - reflexivity.
  - reflexivity.
  - exact (proj2 constructed_idle).
  - exists 2000. split; [simpl; tauto | lra].
  - split; [exact Hpos |]. split; [exact Hanim |].
    apply (proj2 (proj2 (proj2 setPresetView_lands_within_rounding))).
    + left. reflexivity.
    + left. reflexivity.
Defined.

Lemma draggedBehind_distance (d : R) :
  0 <= d ->
  distanceTo (position (camera (cameraManager (draggedBehind d))))
             (preset_position emotionalPreset) = d.
Proof.
  intro Hd. unfold draggedBehind, handle, setCameraManager.
  cbn [cameraManager camera position]. unfold distanceTo. simpl.
  replace ((0 - 0) * (0 - 0) + (5 - 5) * (5 - 5) + (20 + d - 20) * (20 + d - 20))
    with (d * d) by ring.
  apply sqrt_square. exact Hd.
Qed.

Lemma draggedBehind_flag (d : R) :
  bridgeIsAligned (sceneManager (draggedBehind d)) = false.
Proof.
  unfold bridgeIsAligned, draggedBehind, handle, setCameraManager.
  cbn [sceneManager]. rewrite newApp_bridge. reflexivity.
Qed.

Lemma triggerBridgeMechanism_rejected_leaves_bridge_witness :
  let w := draggedBehind 10 in
  let w' := triggerBridgeMechanism 1 w in
  bridge (sceneManager w') = bridge (sceneManager w) /\
  store w' = store w /\
  console w' = console w ++ ["请先切换到情感视角对齐"%string].
Proof.
  destruct (triggerBridgeMechanism_rejected_leaves_bridge 1 (draggedBehind 10))
    as (_ & Hb & Hs & _ & _ & Hc).
  - apply draggedBehind_flag.
  - rewrite draggedBehind_distance by lra. lra.
  - repeat split; assumption.
Defined.

Lemma trigger_gate_uses_threshold_3_witness :
  let w := draggedBehind 2.5 in
  isNearEmotionalView None (cameraManager w) = false /\
  isNearEmotionalView (Some 3.0) (cameraManager w) = true /\
  triggerBridgeMechanism 1 w = triggerBridgeMovement 1 w.
Proof.
  destruct (trigger_gate_uses_threshold_3 1 (draggedBehind 2.5))
    as (Hdefault & Hgate & Hbranch & _).
  - rewrite draggedBehind_distance by lra. lra.
  - rewrite draggedBehind_distance by lra. lra.
  - repeat split; assumption.
Defined.

Lemma setPresetView_single_in_flight_witness :
  (List.length (cameraCallbacks (rafQueue (newApp 0 false))) <= 1)%nat /\
  setPresetView "child" 1 (newApp 0 false) = newApp 0 false.
Proof.
  destruct setPresetView_single_in_flight as [Hone Hbusy]. split.
  - exact (proj1 (Hone (newApp 0 false) (reachable_new 0 false))).
  - refine (proj1 (Hbusy "child"%string 1 (newApp 0 false) _)).
    exact (proj1 (proj2 (proj2 (proj2 (proj2 (proj2 (newApp_placeholders 0))))))).
Defined.

Lemma connected_is_never_shown_witness :
  currentState (uiManager (handle (AnimationFrame 16) (newApp 0 true))) <> connected.
Proof.
  destruct connected_is_never_shown as (_ & _ & Hreach).
  refine (proj1 (Hreach _ _)).
  apply reachable_handle, reachable_new.
Defined.

Lemma isAligned_is_only_ever_raised_witness :
  let w1 := handles [PointerControl PerspectiveCamera; AnimationFrame 16]
                    (handle (Click BtnEmotionalView 0) (newApp 0 false)) in
  exists b,
    bridge (sceneManager w1) = Some b /\ isAligned b = true /\
    triggerBridgeMechanism 32 w1 = triggerBridgeMovement 32 w1.
Proof.
  destruct isAligned_is_only_ever_raised as (_ & _ & _ & _ & Hfires).
  destruct (Hfires (newApp 0 false) 0
              [PointerControl PerspectiveCamera; AnimationFrame 16] 32
              (reachable_new 0 false)) as (b & Hb & Hflag & Hgate & _).
  exists b. repeat split; assumption.
Defined.

Lemma narrative_state_is_derived_witness :
  currentState
    (updateFromSceneState (mkSceneState true false (Rltb 3 5))
                          (uiManager constructed)) = reunited.
Proof.
  destruct (narrative_state_is_derived 3 false true (uiManager constructed)
              (uiManager constructed)) as (_ & _ & Hnear & _).
  apply Hnear. lra.
Defined.

Lemma reunion_brings_characters_together_witness :
  let w' := frames [2000] (triggerBridgeMechanism 0 alignedAtStart) in
  store w' 2%nat = mkVector3 (-2) 1 0 /\
  store w' 3%nat = mkVector3 2 1 0 /\
  distanceTo (store w' 2%nat) (store w' 3%nat) < 5.
Proof.
  destruct alignedAtStart_state as (Hsm & Hm & Hc & Hq).
  destruct (reunion_brings_characters_together 0 0 [2000] alignedAtStart
              2%nat 3%nat)
    as (_ & Hatm & Hatc & _ & Hlt & _).
  - apply (reachableAt_timed 0 0 (Click BtnEmotionalView 0) (newApp 0 false));
      [apply reachableAt_new | reflexivity | lra].
  - lra.
  - unfold bridgeIsAligned. rewrite Hsm. reflexivity.
  - rewrite Hsm. reflexivity.
  - rewrite Hsm. reflexivity.
  - exact Hm.
  - exact Hc.
  - exists 2000. split; [left; reflexivity | lra].
  - repeat split; assumption.
Defined.

(** * Further properties of the code *)

(** ** The easing curve *)

Lemma easeProgress_range (progress : R) : 0 <= easeProgress progress <= 1.
Proof.
  unfold easeProgress. pose proof (COS_bound (progress * PI)) as [Hlo Hhi].
  split; lra.
Qed.

Lemma progressAt_range (startTime duration now : R) :
  0 < duration -> startTime <= now ->
  0 <= progressAt startTime duration now <= 1.
Proof.
  intros Hd Hn. split; [| apply progressAt_le_1].
  unfold progressAt. apply Rmin_glb; [| lra].
  apply Rmult_le_pos; [lra |]. apply Rlt_le, Rinv_0_lt_compat, Hd.
Qed.

Lemma progressAt_monotone (startTime duration t1 t2 : R) :
  0 < duration -> t1 <= t2 ->
  progressAt startTime duration t1 <= progressAt startTime duration t2.
Proof.
  intros Hd Ht. unfold progressAt. apply Rle_min_compat_r.
  apply Rmult_le_compat_r; [apply Rlt_le, Rinv_0_lt_compat, Hd | lra].
Qed.

Lemma easeProgress_monotone (p1 p2 : R) :
  0 <= p1 -> p1 <= p2 -> p2 <= 1 -> easeProgress p1 <= easeProgress p2.
Proof.
  intros H0 H12 H1. unfold easeProgress.
  pose proof PI_RGT_0 as Hpi.
  assert (cos (p2 * PI) <= cos (p1 * PI)); [| lra].
  apply cos_decr_1; nra.
Qed.

(** X2. With a clock that has not gone back past the start of a tween, a
    later sample is never further from the target than an earlier one: the
    easing value does not decrease with time, and the distance left to the
    target along a tweened coordinate does not increase. *)
Theorem tween_never_moves_back :
  forall (startTime duration t1 t2 start goal current1 current2 : R),
    0 < duration -> startTime <= t1 -> t1 <= t2 ->
    let e1 := easeProgress (progressAt startTime duration t1) in
    let e2 := easeProgress (progressAt startTime duration t2) in
    e1 <= e2 /\
    Rabs (goal - tweenAxis (Some goal) start e2 current2)
    <= Rabs (goal - tweenAxis (Some goal) start e1 current1).
Proof.
  intros startTime duration t1 t2 start goal current1 current2 Hd H1 H2 e1 e2.
  assert (He : e1 <= e2).
  { unfold e1, e2.
    pose proof (progressAt_range startTime duration t1 Hd H1) as [Hlo _].
    apply easeProgress_monotone; [exact Hlo | | apply progressAt_le_1].
    apply progressAt_monotone; assumption. }
  split; [exact He |].
  pose proof (easeProgress_range (progressAt startTime duration t1)) as [_ Hhi1].
  pose proof (easeProgress_range (progressAt startTime duration t2)) as [_ Hhi2].
  fold e1 in Hhi1. fold e2 in Hhi2. simpl.
  replace (goal - (start + (goal - start) * e2)) with ((goal - start) * (1 - e2)) by ring.
  replace (goal - (start + (goal - start) * e1)) with ((goal - start) * (1 - e1)) by ring.
  rewrite !Rabs_mult, (Rabs_right (1 - e2)), (Rabs_right (1 - e1)) by lra.
  apply Rmult_le_compat_l; [apply Rabs_pos | lra].
Qed.

Lemma tween_never_moves_back_witness :
  easeProgress (progressAt 0 2000 500) <= easeProgress (progressAt 0 2000 1500).
Proof.
  exact (proj1 (tween_never_moves_back 0 2000 500 1500 (-12) (-2) 0 0
                  ltac:(lra) ltac:(lra) ltac:(lra))).
Defined.

(** ** Asking for a preset *)

Lemma frame_cameraManager_idle (now : R) (w : App) :
  cameraCallbacks (rafQueue w) = [] ->
  cameraManager (frame now w) = cameraManager w /\
  cameraCallbacks (rafQueue (frame now w)) = [].
Proof.
  intro Hnone.
  assert (Hall : Forall (fun cb => isCameraAnimate cb = false) (rafQueue w)).
  { apply Forall_forall. intros cb Hin.
    destruct (isCameraAnimate cb) eqn:E; [| reflexivity].
    assert (K : In cb (cameraCallbacks (rafQueue w)))
      by (apply filter_In; split; assumption).
    rewrite Hnone in K. destruct K. }
  split.
  - unfold frame.
    apply (fold_runCallback_ind now
             (fun l a => Forall (fun cb => isCameraAnimate cb = false) l /\
                         cameraManager a = cameraManager w)).
    + intros cb l a [Hl Ha]. apply Forall_cons_iff in Hl. destruct Hl as [Hcb Hl].
      split; [exact Hl |].
      rewrite runCallback_cameraManager_other by exact Hcb. exact Ha.
    + split; [exact Hall | reflexivity].
  - pose proof (frame_rafQueue_Forall _ now w Hall) as H.
    unfold cameraCallbacks.
    induction (rafQueue (frame now w)) as [| cb q IH]; [reflexivity |].
    apply Forall_cons_iff in H. destruct H as [Hcb Hq].
    simpl. rewrite Hcb. apply IH, Hq.
Qed.

Lemma frames_cameraManager_idle (times : list R) (w : App) :
  cameraCallbacks (rafQueue w) = [] ->
  cameraManager (frames times w) = cameraManager w.
Proof.
  revert w. induction times as [| now times IH]; intros w H; simpl.
  - reflexivity.
  - destruct (frame_cameraManager_idle now w H) as [Hcm Hq].
    rewrite (IH (frame now w) Hq). exact Hcm.
Qed.

(** X3. A [setPresetView] call with a name that is none of the three
    presets, made while no transition runs, leaves the camera, the pending
    closures and the scene as they were.  If the name is not one that every
    object inherits either, the call only writes a warning with the name;
    the current preset and the flag stay too.  If it is one of those
    ('constructor', 'toString', '__proto__' and the like), the lookup finds
    something, so there is no warning: the name becomes the current preset,
    the flag is raised, and the call ends there, with nothing registered
    that would clear the flag.  From then on, however many frames pass,
    every [setPresetView] call returns without effect. *)
Theorem setPresetView_unknown_name_warns :
  forall (presetName : string) (now : R) (w : App),
    ~ In presetName ["mother"; "child"; "emotional"]%string ->
    isAnimating (cameraManager w) = false ->
    let w' := setPresetView presetName now w in
    presets presetName = None /\
    camera (cameraManager w') = camera (cameraManager w) /\
    rafQueue w' = rafQueue w /\
    sceneManager w' = sceneManager w /\
    store w' = store w /\
    (inheritedProperty presetName = false ->
     console w' = console w ++ [("未知的预设视角: " ++ presetName)%string] /\
     cameraManager w' = cameraManager w) /\
    (inheritedProperty presetName = true ->
     console w' = console w /\
     currentPreset (cameraManager w') = Some presetName /\
     isAnimating (cameraManager w') = true /\
     (cameraCallbacks (rafQueue w) = [] ->
      forall times name later,
        isAnimating (cameraManager (frames times w')) = true /\
        setPresetView name later (frames times w') = frames times w')).
Proof.
  intros presetName now w Hname Hflag w'.
  assert (Hnone : presets presetName = None).
  { destruct (presets presetName) as [preset |] eqn:E; [| reflexivity].
    exfalso. apply Hname. apply presets_names in E.
    destruct E as [[-> _] | [[-> _] | [-> _]]]; simpl; tauto. }
  split; [exact Hnone |].
  unfold w', setPresetView. rewrite Hflag, Hnone.
  destruct (inheritedProperty presetName).
  - repeat (split; [reflexivity |]). split; [intro K; discriminate K |].
    intros _. repeat (split; [reflexivity |]).
    intros Hidle times name later.
    set (stuck := setCameraManager
                    (mkCameraManager (camera (cameraManager w)) (Some presetName)
                                     true) w).
    assert (Hcm : cameraManager (frames times stuck) = cameraManager stuck)
      by (apply frames_cameraManager_idle; exact Hidle).
    assert (Hup : isAnimating (cameraManager (frames times stuck)) = true)
      by (rewrite Hcm; reflexivity).
    split; [exact Hup | apply setPresetView_busy, Hup].
  - repeat (split; [reflexivity |]). split; [| intro K; discriminate K].
    intros _. split; reflexivity.
Qed.

Lemma setPresetView_unknown_name_warns_witness :
  console (setPresetView "top" 0 constructed)
  = [("未知的预设视角: " ++ "top")%string].
Proof.
  destruct (setPresetView_unknown_name_warns "top" 0 constructed)
    as (_ & _ & _ & _ & _ & Hwarns & _).
  - simpl. intros [H | [H | [H | []]]]; discriminate H.
  - reflexivity.
  - apply Hwarns. reflexivity.
Defined.

Lemma length_scaled (d : Vector3) (k : R) :
  0 <= k -> THREE.length (multiplyScalar d k) = k * THREE.length d.
Proof.
  intro Hk. unfold THREE.length, multiplyScalar. simpl.
  replace (x d * k * (x d * k) + y d * k * (y d * k) + z d * k * (z d * k))
    with ((k * k) * (x d * x d + y d * y d + z d * z d)) by ring.
  rewrite sqrt_mult; [| nra | nra].
  rewrite sqrt_square by exact Hk. reflexivity.
Qed.

Lemma length_sub_distanceTo (a b : Vector3) :
  THREE.length (sub b a) = distanceTo a b.
Proof.
  unfold THREE.length, distanceTo, sub. simpl. f_equal. ring.
Qed.

Lemma distanceTo_add (a d : Vector3) : distanceTo a (add a d) = THREE.length d.
Proof.
  unfold THREE.length, distanceTo, add. simpl. f_equal. ring.
Qed.

Lemma length_zero (d : Vector3) : THREE.length d = 0 -> d = mkVector3 0 0 0.
Proof.
  intro H. unfold THREE.length in H. apply sqrt_eq_0 in H; [| nra].
  destruct d as [dx dy dz]. simpl in H.
  assert (dx = 0) by nra. assert (dy = 0) by nra. assert (dz = 0) by nra.
  subst. reflexivity.
Qed.

Lemma distanceTo_positive (a b : Vector3) : a <> b -> 0 < distanceTo a b.
Proof.
  intro Hne.
  destruct (Rle_lt_or_eq_dec 0 (distanceTo a b) (distanceTo_nonneg a b))
    as [H | H]; [exact H |].
  exfalso. apply Hne. symmetry in H. rewrite <- length_sub_distanceTo in H.
  apply length_zero in H. unfold sub in H.
  destruct a, b. simpl in H. injection H as Hx Hy Hz. f_equal; lra.
Qed.

Lemma scaled_back_to_itself (d : Vector3) (q : R) :
  d <> mkVector3 0 0 0 -> multiplyScalar d q = d -> q = 1.
Proof.
  intros Hd E. destruct d as [dx dy dz]. unfold multiplyScalar in E. simpl in E.
  injection E as Ex Ey Ez.
  destruct (Req_dec q 1) as [K | K]; [exact K |].
  exfalso. apply Hd.
  assert (dx = 0) by nra. assert (dy = 0) by nra. assert (dz = 0) by nra.
  subst. reflexivity.
Qed.

Lemma length_positive (v : Vector3) : THREE.length v <> 0 -> 0 < THREE.length v.
Proof.
  intro H. assert (0 <= THREE.length v) by (unfold THREE.length; apply sqrt_pos).
  lra.
Qed.

Lemma normalized_unit (v : Vector3) :
  THREE.length v <> 0 -> THREE.length (multiplyScalar v (/ THREE.length v)) = 1.
Proof.
  intro H. pose proof (length_positive v H) as Hpos.
  rewrite length_scaled; [field; lra | apply Rlt_le, Rinv_0_lt_compat, Hpos].
Qed.

(** Wherever the camera is turned, it looks along a unit vector. *)
Lemma directionTo_unit (eye target : Vector3) :
  THREE.length (directionTo eye target) = 1.
Proof.
  unfold directionTo.
  destruct (Req_dec_T (THREE.length (sub target eye)) 0) as [K0 | K0].
  - unfold THREE.length. simpl.
    replace (0 * 0 + 0 * 0 + -1 * -1) with 1 by ring. apply sqrt_1.
  - cbv zeta.
    destruct (Req_dec_T
                (x (multiplyScalar (sub target eye)
                      (/ THREE.length (sub target eye)))) 0) as [Kx | Kx];
      [| apply normalized_unit, K0].
    destruct (Req_dec_T
                (z (multiplyScalar (sub target eye)
                      (/ THREE.length (sub target eye)))) 0) as [Kz | Kz];
      [| apply normalized_unit, K0].
    apply normalized_unit. intro K. apply length_zero in K.
    apply (f_equal z) in K. simpl in K, Kz. lra.
Qed.

(** A view that is not straight up or down is along the line to the target. *)
Lemma directionTo_level (eye target : Vector3) :
  x target <> x eye \/ z target <> z eye ->
  directionTo eye target
  = multiplyScalar (sub target eye) (/ THREE.length (sub target eye)).
Proof.
  intro H.
  assert (Hpos : 0 < THREE.length (sub target eye)).
  { rewrite length_sub_distanceTo. apply distanceTo_positive.
    intros ->. destruct H as [H | H]; apply H; reflexivity. }
  assert (Hinv : 0 < / THREE.length (sub target eye))
    by (apply Rinv_0_lt_compat, Hpos).
  unfold directionTo.
  destruct (Req_dec_T (THREE.length (sub target eye)) 0) as [K0 | _]; [lra |].
  cbv zeta.
  destruct (Req_dec_T
              (x (multiplyScalar (sub target eye)
                    (/ THREE.length (sub target eye)))) 0) as [Kx | _];
    [| reflexivity].
  destruct (Req_dec_T
              (z (multiplyScalar (sub target eye)
                    (/ THREE.length (sub target eye)))) 0) as [Kz | _];
    [| reflexivity].
  exfalso. simpl in Kx, Kz.
  apply Rmult_integral in Kx. apply Rmult_integral in Kz.
  destruct H as [H | H]; [destruct Kx; lra | destruct Kz; lra].
Qed.

(** A view straight up or down, and the view from a point to itself, come
    out looking towards -z. *)
Lemma directionTo_vertical (eye target : Vector3) :
  x target = x eye -> z target = z eye -> z (directionTo eye target) < 0.
Proof.
  intros Hx Hz. unfold directionTo.
  destruct (Req_dec_T (THREE.length (sub target eye)) 0) as [K0 | K0].
  - simpl. lra.
  - cbv zeta.
    assert (Ex : x (multiplyScalar (sub target eye)
                      (/ THREE.length (sub target eye))) = 0)
      by (simpl; rewrite Hx; ring).
    assert (Ez : z (multiplyScalar (sub target eye)
                      (/ THREE.length (sub target eye))) = 0)
      by (simpl; rewrite Hz; ring).
    destruct (Req_dec_T
                (x (multiplyScalar (sub target eye)
                      (/ THREE.length (sub target eye)))) 0) as [_ | Kx];
      [| contradiction].
    destruct (Req_dec_T
                (z (multiplyScalar (sub target eye)
                      (/ THREE.length (sub target eye)))) 0) as [_ | Kz];
      [| contradiction].
    set (nudged := mkVector3 _ _ _).
    assert (Hn : THREE.length nudged <> 0).
    { intro K. apply length_zero in K. apply (f_equal z) in K.
      unfold nudged in K. simpl in K, Ez. lra. }
    pose proof (length_positive nudged Hn) as Hpos.
    assert (Hinv : 0 < / THREE.length nudged) by (apply Rinv_0_lt_compat, Hpos).
    change (z (multiplyScalar nudged (/ THREE.length nudged)))
      with (z nudged * / THREE.length nudged).
    assert (Hzn : z nudged = - 0.0001) by (unfold nudged; simpl in *; lra).
    rewrite Hzn. nra.
Qed.

Lemma directionTo_ahead (eye d : Vector3) :
  THREE.length d = 1 -> x d <> 0 \/ z d <> 0 ->
  directionTo eye (add eye (multiplyScalar d 10)) = d.
Proof.
  intros Hunit Hlevel.
  assert (E : sub (add eye (multiplyScalar d 10)) eye = multiplyScalar d 10).
  { destruct eye, d. unfold sub, add, multiplyScalar. simpl. f_equal; ring. }
  rewrite directionTo_level.
  - rewrite E, length_scaled by lra. rewrite Hunit.
    destruct d. unfold multiplyScalar. simpl. f_equal; field.
  - simpl. destruct Hlevel as [H | H]; [left | right]; lra.
Qed.

(** X4. Starting a transition does not make the camera jump: right after a
    [setPresetView] call that starts one, the camera stands where it stood,
    the preset is already the current one and the flag is up.  If it was
    looking along a unit vector that is not straight up or down, it still
    looks the same way; if it was looking straight up or down, the first
    [lookAt] of the transition turns it a little towards -z. *)
Theorem setPresetView_starts_where_the_camera_is :
  forall (presetName : string) (preset : ViewPreset) (now : R) (w : App),
    presets presetName = Some preset ->
    isAnimating (cameraManager w) = false ->
    let w' := setPresetView presetName now w in
    let ahead := direction (camera (cameraManager w)) in
    position (camera (cameraManager w')) = position (camera (cameraManager w)) /\
    (THREE.length ahead = 1 -> x ahead <> 0 \/ z ahead <> 0 ->
     camera (cameraManager w') = camera (cameraManager w)) /\
    (x ahead = 0 -> z ahead = 0 ->
     z (direction (camera (cameraManager w'))) < 0) /\
    currentPreset (cameraManager w') = Some presetName /\
    isAnimating (cameraManager w') = true.
Proof.
  intros presetName preset now w Hpreset Hflag w' ahead. unfold w'.
  rewrite (setPresetView_started presetName preset) by assumption.
  simpl. rewrite !lerpVectors_0.
  split; [reflexivity |]. split; [| split; [| split; reflexivity]].
  - intros Hunit Hlevel. unfold lookAt, setPosition, getCameraLookAt. simpl.
    rewrite directionTo_ahead by assumption.
    destruct (camera (cameraManager w)). reflexivity.
  - intros Hx Hz. apply directionTo_vertical.
    + unfold getCameraLookAt. simpl. fold ahead. rewrite Hx. ring.
    + unfold getCameraLookAt. simpl. fold ahead. rewrite Hz. ring.
Qed.

Lemma setPresetView_starts_where_the_camera_is_witness :
  camera (cameraManager (setPresetView "mother" 0 constructed)) = PerspectiveCamera.
Proof.
  destruct (setPresetView_starts_where_the_camera_is "mother" motherPreset 0
              constructed) as (_ & Hsame & _).
  - reflexivity.
  - reflexivity.
  - apply Hsame.
    + unfold THREE.length. simpl.
      replace (0 * 0 + 0 * 0 + -1 * -1) with 1 by ring. apply sqrt_1.
    + right. simpl. lra.
Defined.
(** ** Reading the look-at point back *)

Lemma lookAt_read_back (eye target anyDirection : Vector3) (cur : option string)
  (flag : bool) :
  x target <> x eye \/ z target <> z eye ->
  let cm := mkCameraManager (lookAt (mkCamera eye anyDirection) target) cur flag in
  getCameraLookAt cm
    = add eye (multiplyScalar (sub target eye) (10 / distanceTo eye target)) /\
  (getCameraLookAt cm = target <-> distanceTo eye target = 10).
Proof.
  intros Hlevel cm.
  assert (Hne : eye <> target).
  { intros ->. destruct Hlevel as [H | H]; apply H; reflexivity. }
  pose proof (distanceTo_positive eye target Hne) as Hpos.
  pose proof (length_sub_distanceTo eye target) as HL.
  assert (Hcm : getCameraLookAt cm
                = add eye (multiplyScalar (sub target eye)
                                          (10 / distanceTo eye target))).
  { unfold cm, getCameraLookAt, lookAt.
    cbn [camera position direction]. rewrite directionTo_level by exact Hlevel.
    rewrite HL.
    generalize (distanceTo eye target) Hpos. intros L HLpos.
    destruct eye, target. unfold add, sub, multiplyScalar. simpl.
    f_equal; field; lra. }
  split; [exact Hcm |].
  rewrite Hcm. split.
  - intro E.
    assert (Eq : multiplyScalar (sub target eye) (10 / distanceTo eye target)
                 = sub target eye).
    { generalize (10 / distanceTo eye target) E. intros q Eq.
      destruct eye, target. unfold add, sub, multiplyScalar in *. simpl in *.
      injection Eq as Ex Ey Ez. f_equal; lra. }
    apply scaled_back_to_itself in Eq.
    + apply (Rmult_eq_compat_r (distanceTo eye target)) in Eq.
      unfold Rdiv in Eq. rewrite Rmult_assoc, Rinv_l in Eq by lra. lra.
    + intro K. apply Hne. unfold sub in K. destruct eye, target. simpl in K.
      injection K as Kx Ky Kz. f_equal; lra.
  - intro E. rewrite E. destruct eye, target.
    unfold add, sub, multiplyScalar. simpl. f_equal; field.
Qed.

Lemma presets_not_ten_away (presetName : string) (preset : ViewPreset) :
  presets presetName = Some preset ->
  (x (preset_target preset) <> x (preset_position preset) \/
   z (preset_target preset) <> z (preset_position preset)) /\
  distanceTo (preset_position preset) (preset_target preset) <> 10.
Proof.
  intro H. apply presets_names in H.
  assert (G : forall S, 0 <= S -> S <> 100 -> sqrt S <> 10).
  { intros S HS Hne E. apply Hne. rewrite <- (sqrt_sqrt S HS), E. lra. }
  destruct H as [[_ ->] | [[_ ->] | [_ ->]]]; split;
    try (right; simpl; lra);
    unfold distanceTo; simpl; apply G; lra.
Qed.

(** X5. Wherever the camera at [eye] has been turned, [getCameraLookAt]
    returns a point 10 units from [eye].  Turned to a [target] that is not
    straight above or below, that is the point 10 units from [eye] towards
    [target]: [target] itself exactly when [target] is 10 units away.
    Turned to a target straight above or below, or to [eye] itself, the
    point read back lies towards -z of [eye] and is never the target.  So
    after a completed transition to any of the three presets the point read
    back is not the preset's target. *)
Theorem getCameraLookAt_is_ten_units_ahead :
  forall (eye target anyDirection : Vector3) (cur : option string) (flag : bool),
    let cm := mkCameraManager (lookAt (mkCamera eye anyDirection) target) cur flag in
    distanceTo eye (getCameraLookAt cm) = 10 /\
    (x target <> x eye \/ z target <> z eye ->
     getCameraLookAt cm
       = add eye (multiplyScalar (sub target eye) (10 / distanceTo eye target)) /\
     (getCameraLookAt cm = target <-> distanceTo eye target = 10)) /\
    (x target = x eye -> z target = z eye ->
     z (getCameraLookAt cm) < z eye /\ getCameraLookAt cm <> target) /\
    (forall presetName preset w,
       presets presetName = Some preset ->
       cameraAtPreset preset presetName w ->
       getCameraLookAt (cameraManager w) <> preset_target preset).
Proof.
  intros eye target anyDirection cur flag cm.
  split; [| split; [| split]].
  - unfold cm, getCameraLookAt, lookAt. cbn [camera position direction].
    rewrite distanceTo_add, length_scaled by lra. rewrite directionTo_unit. lra.
  - intro Hlevel. apply lookAt_read_back, Hlevel.
  - intros Hx Hz.
    assert (Hless : z (getCameraLookAt cm) < z eye).
    { unfold cm, getCameraLookAt, lookAt. cbn [camera position direction].
      pose proof (directionTo_vertical eye target Hx Hz) as Hd.
      simpl. lra. }
    split; [exact Hless |]. intro K. rewrite K in Hless. lra.
  - intros presetName preset w Hpreset (_ & Hcam & _) Hback.
    destruct (presets_not_ten_away presetName preset Hpreset) as [Hlevel Hfar].
    destruct (lookAt_read_back (preset_position preset) (preset_target preset)
                (preset_position preset) None false Hlevel) as (_ & Hiff').
    apply Hfar, Hiff'.
    transitivity (getCameraLookAt (cameraManager w)); [| exact Hback].
    unfold getCameraLookAt, lookAt. cbn [camera position direction].
    rewrite Hcam. reflexivity.
Qed.

Lemma getCameraLookAt_is_ten_units_ahead_witness :
  getCameraLookAt
    (mkCameraManager (lookAt PerspectiveCamera (mkVector3 0 10 0)) None false)
  <> mkVector3 0 10 0.
Proof.
  refine (proj2 (proj1 (proj2 (proj2 (getCameraLookAt_is_ten_units_ahead
                   (mkVector3 0 0 0) (mkVector3 0 10 0) (mkVector3 0 0 (-1))
                   None false))) _ _)); reflexivity.
Defined.

(** ** Where the characters can be *)

Lemma characterPlace_tween (lo goal : R) (current start : Vector3) (progress : R) :
  lo <= goal ->
  characterPlace lo goal current -> lo <= x start <= goal ->
  characterPlace lo goal
    (tweenPosition current start (Target.mk (Some goal) None None)
                   (easeProgress progress)).
Proof.
  intros Hlo (_ & Hy & Hz) Hs. unfold characterPlace, tweenPosition. simpl.
  pose proof (easeProgress_range progress) as [He0 He1].
  split; [split; nra | split; assumption].
Qed.

Lemma characterPlace_tween_down (goal hi : R) (current start : Vector3)
  (progress : R) :
  goal <= hi ->
  characterPlace goal hi current -> goal <= x start <= hi ->
  characterPlace goal hi
    (tweenPosition current start (Target.mk (Some goal) None None)
                   (easeProgress progress)).
Proof.
  intros Hhi (_ & Hy & Hz) Hs. unfold characterPlace, tweenPosition. simpl.
  pose proof (easeProgress_range progress) as [He0 He1].
  split; [split; nra | split; assumption].
Qed.

(** A closure that respects the stage leaves the characters on their sides. *)
Lemma runCallback_placesOk (clock : R) (next : ref) (mo ch : option ref)
  (now : R) (cb : Callback) (a : App) :
  (forall m, mo = Some m -> (2 <= m)%nat) ->
  (forall c, ch = Some c -> (2 <= c)%nat) ->
  reunionClosure clock next mo ch cb -> stagedClosure mo ch cb ->
  placesOk mo ch (store a) -> placesOk mo ch (store (runCallback now cb a)).
Proof.
  intros Hm2 Hc2 Hr Hs [Hpm Hpc].
  assert (Hwrite : forall r v lo hi (who : option ref),
            (forall k, who = Some k -> characterPlace lo hi (store a k)) ->
            (who = Some r -> characterPlace lo hi v) ->
            forall k, who = Some k -> characterPlace lo hi (write (store a) r v k)).
  { intros r v lo hi who Hall Hv k Hk.
    destruct (Nat.eq_dec k r) as [-> | Hne].
    - rewrite write_same. apply Hv, Hk.
    - rewrite write_other by exact Hne. apply Hall, Hk. }
  destruct cb as [| sp tp st tl t0 | r start target t0 oc | s start target t0].
  - exact (conj Hpm Hpc).
  - simpl. case_if; exact (conj Hpm Hpc).
  - destruct Hr as (_ & _ & Htm & Htc). destruct Hs as [Hsm Hsc].
    assert (G : placesOk mo ch
                  (write (store a) r
                     (tweenPosition (store a r) start target
                        (easeProgress (progressAt t0 2000 now))))).
    { split.
      - apply Hwrite; [exact Hpm |]. intro K. rewrite (Htm K).
        apply characterPlace_tween; [lra | apply Hpm, K | apply Hsm, K].
      - apply Hwrite; [exact Hpc |]. intro K. rewrite (Htc K).
        apply characterPlace_tween_down; [lra | apply Hpc, K | apply Hsc, K]. }
    simpl. repeat case_if; exact G.
  - simpl in Hr.
    assert (G : placesOk mo ch
                  (write (store a) s
                     (tweenPosition (store a s) start target
                        (easeProgress (progressAt t0 1000 now))))).
    { split.
      - apply Hwrite; [exact Hpm |]. intro K. specialize (Hm2 s K). lia.
      - apply Hwrite; [exact Hpc |]. intro K. specialize (Hc2 s K). lia. }
    simpl. case_if; exact G.
Qed.

Lemma frame_placesOk (clock : R) (now : R) (w : App) :
  wellFormed clock w -> staged w ->
  placesOk (mother (sceneManager w)) (child (sceneManager w)) (store (frame now w)).
Proof.
  intros (_ & _ & Hm & Hc & _ & Hall) [Hplaces Hst]. unfold frame.
  set (mo := mother (sceneManager w)) in *.
  set (ch := child (sceneManager w)) in *.
  refine (proj2 (proj2 (fold_runCallback_ind now
            (fun l a => Forall (reunionClosure clock (nextRef w) mo ch) l /\
                        Forall (stagedClosure mo ch) l /\
                        placesOk mo ch (store a)) _ (rafQueue w)
            (setRafQueue [] w) _))).
  - intros cb l a (Hl1 & Hl2 & Hp).
    inversion Hl1 as [| ? ? Hcb1 Hl1']; subst.
    inversion Hl2 as [| ? ? Hcb2 Hl2']; subst.
    split; [exact Hl1' |]. split; [exact Hl2' |].
    apply (runCallback_placesOk clock (nextRef w)); try assumption.
    + intros m K. apply (Hm m K).
    + intros c K. apply (Hc c K).
  - split; [exact Hall |]. split; [exact Hst | exact Hplaces].
Qed.

Lemma frame_staged (clock now : R) (w : App) :
  wellFormed clock w -> staged w -> staged (frame now w).
Proof.
  intros Hwf Hst. unfold staged. rewrite frame_sceneManager.
  split; [apply (frame_placesOk clock); assumption |].
  apply frame_rafQueue_Forall. exact (proj2 Hst).
Qed.

Lemma setPresetView_store (presetName : string) (now : R) (w : App) :
  store (setPresetView presetName now w) = store w.
Proof.
  unfold setPresetView, animateToPosition.
  destruct (isAnimating (cameraManager w)); [reflexivity |].
  destruct (presets presetName);
    [| destruct (inheritedProperty presetName); reflexivity].
  simpl. case_if; reflexivity.
Qed.

Lemma setPresetView_staged (presetName : string) (now : R) (w : App) :
  staged w -> staged (setPresetView presetName now w).
Proof.
  intros [Hp Hq]. unfold staged.
  rewrite setPresetView_sceneManager, setPresetView_store.
  split; [exact Hp |].
  apply setPresetView_rafQueue_Forall; [intros; exact I | exact Hq].
Qed.

Lemma deliverModel_staged (clock : R) (type : Role) (w : App) :
  wellFormed clock w -> staged w -> staged (deliverModel type w).
Proof.
  intros (_ & _ & Hm & Hc & _ & Hall) [[Hpm Hpc] Hq].
  assert (Hfresh : forall cb, In cb (rafQueue w) ->
            forall r start target t0 oc,
              cb = CharacterAnimate r start target t0 oc -> r <> nextRef w).
  { intros cb Hin r start target t0 oc ->.
    rewrite Forall_forall in Hall. specialize (Hall _ Hin). simpl in Hall. lia. }
  destruct type; unfold staged; simpl.
  - split; [split |].
    + intros m K. injection K as <-. rewrite write_same.
      unfold characterPlace. simpl. lra.
    + intros c K. rewrite write_other; [apply Hpc, K |].
      specialize (Hc c K). lia.
    + apply Forall_forall. intros cb Hin. rewrite Forall_forall in Hq.
      specialize (Hq cb Hin). destruct cb; simpl in *; try exact I.
      split; [| apply Hq].
      intro K. injection K as K. exfalso.
      exact (Hfresh _ Hin _ _ _ _ _ eq_refl (eq_sym K)).
  - split; [split |].
    + intros m K. rewrite write_other; [apply Hpm, K |].
      specialize (Hm m K). lia.
    + intros c K. injection K as <-. rewrite write_same.
      unfold characterPlace. simpl. lra.
    + apply Forall_forall. intros cb Hin. rewrite Forall_forall in Hq.
      specialize (Hq cb Hin). destruct cb; simpl in *; try exact I.
      split; [apply Hq |].
      intro K. injection K as K. exfalso.
      exact (Hfresh _ Hin _ _ _ _ _ eq_refl (eq_sym K)).
Qed.

Lemma runCallback_staged_step (clock : R) (next : ref) (mo ch : option ref)
  (now : R) (cb : Callback) (a : App) :
  (forall m, mo = Some m -> (2 <= m)%nat) ->
  (forall c, ch = Some c -> (2 <= c)%nat) ->
  reunionClosure clock next mo ch cb -> stagedClosure mo ch cb ->
  placesOk mo ch (store a) /\ Forall (stagedClosure mo ch) (rafQueue a) ->
  placesOk mo ch (store (runCallback now cb a)) /\
  Forall (stagedClosure mo ch) (rafQueue (runCallback now cb a)).
Proof.
  intros Hm2 Hc2 Hr Hs [Hp Hq]. split.
  - apply (runCallback_placesOk clock next); assumption.
  - destruct (runCallback_rafQueue_cases now cb a) as [-> | ->].
    + apply Forall_app. split; [exact Hq | constructor; [exact Hs | constructor]].
    + exact Hq.
Qed.

Lemma triggerBridgeMechanism_staged (clock now : R) (w : App) :
  wellFormed clock w -> staged w -> staged (triggerBridgeMechanism now w).
Proof.
  intros (Hb & Hnext & Hm & Hc & Hd & _) Hst. unfold staged.
  rewrite triggerBridgeMechanism_sceneManager.
  set (mo := mother (sceneManager w)) in *.
  set (ch := child (sceneManager w)) in *.
  assert (Hm2 : forall m, mo = Some m -> (2 <= m)%nat) by (intros m K; apply (Hm m K)).
  assert (Hc2 : forall c, ch = Some c -> (2 <= c)%nat) by (intros c K; apply (Hc c K)).
  unfold staged in Hst. fold mo ch in Hst.
  unfold triggerBridgeMechanism. case_if; [| exact Hst].
  unfold triggerBridgeMovement. destruct Hb as [flag Hb]. rewrite Hb.
  cbn [isAligned bridge_left bridge_right]. destruct flag; [| exact Hst].
  assert (Hsegs : forall s start target a,
            (s < 2)%nat ->
            placesOk mo ch (store a) /\ Forall (stagedClosure mo ch) (rafQueue a) ->
            placesOk mo ch
              (store (runCallback now (BridgeSegmentAnimate s start target now) a)) /\
            Forall (stagedClosure mo ch)
              (rafQueue (runCallback now (BridgeSegmentAnimate s start target now) a))).
  { intros s start target a Hs Ha.
    apply (runCallback_staged_step now (nextRef w)); try assumption.
    exact I. }
  unfold animateBridgeSegment, triggerReunion.
  rewrite !runCallback_sceneManager. fold mo ch.
  match goal with
  | |- context [match mo with Some _ => _ | None => ?a end] =>
      assert (Ha : placesOk mo ch (store a) /\
                   Forall (stagedClosure mo ch) (rafQueue a))
        by (apply Hsegs; [lia |]; apply Hsegs; [lia | exact Hst]);
      generalize dependent a
  end.
  intros a Ha.
  destruct mo as [m |] eqn:Em; [| exact Ha].
  destruct ch as [c |] eqn:Ec; [| exact Ha].
  unfold animateCharacter.
  assert (Hmc : m <> c).
  { intro K. subst c. exact (Hd m eq_refl eq_refl). }
  set (tM := Target.mk (Some (-2)) None None).
  set (a1 := runCallback now
               (CharacterAnimate m (store a m) tM now (Some "母子会合完成"%string)) a).
  assert (Ha1 : placesOk (Some m) (Some c) (store a1) /\
                Forall (stagedClosure (Some m) (Some c)) (rafQueue a1)).
  { apply (runCallback_staged_step now (nextRef w) (Some m) (Some c));
      try assumption.
    - unfold reunionClosure. split; [apply (Hm m eq_refl) |]. split; [lra |].
      split; [reflexivity |]. intro K. injection K as K.
      exfalso. apply Hmc. symmetry. exact K.
    - unfold stagedClosure. split.
      + intros _. apply (proj1 (proj1 (proj1 Ha) m eq_refl)).
      + intro K. injection K as K. exfalso. apply Hmc. symmetry. exact K. }
  apply (runCallback_staged_step now (nextRef w) (Some m) (Some c));
    try assumption.
  - unfold reunionClosure. split; [apply (Hc c eq_refl) |]. split; [lra |].
    split; [| reflexivity]. intro K. injection K as K. contradiction.
  - unfold stagedClosure. split.
    + intro K. injection K as K. contradiction.
    + intros _. apply (proj1 (proj2 (proj1 Ha1) c eq_refl)).
Qed.

Lemma handle_staged (clock : R) (e : Event) (w : App) :
  wellFormed clock w -> staged w -> staged (handle e w).
Proof.
  intros Hwf Hst.
  destruct e as [[| | |] now | now | type | moved]; simpl.
  - apply setPresetView_staged, Hst.
  - apply setPresetView_staged, Hst.
  - pose proof (setPresetView_staged "emotional" now w Hst) as H.
    unfold staged in *. simpl.
    unfold setBridgeAligned.
    destruct (bridge (sceneManager (setPresetView "emotional" now w))); exact H.
  - apply (triggerBridgeMechanism_staged clock); assumption.
  - apply (frame_staged clock); assumption.
  - apply (deliverModel_staged clock); assumption.
  - exact Hst.
Qed.

Lemma newApp_staged (now : R) (gltfLoader : bool) : staged (newApp now gltfLoader).
Proof.
  assert (H0 : wellFormed now (setPresetView "mother" now constructed) /\
               staged (setPresetView "mother" now constructed)).
  { split.
    - apply (setPresetView_wellFormed now now); [lra |].
      unfold wellFormed, hasBridge. simpl.
      split; [exists false; reflexivity |]. split; [lia |].
      split; [intros m K; discriminate K |].
      split; [intros c K; discriminate K |].
      split; [intros r K; discriminate K | constructor].
    - apply setPresetView_staged. unfold staged, placesOk. simpl.
      split; [split; intros k K; discriminate K | constructor]. }
  destruct H0 as [Hwf Hst].
  assert (H1 : staged (loadModels gltfLoader (setPresetView "mother" now constructed))).
  { destruct gltfLoader; unfold loadModels, createPlaceholderModels.
    - exact Hst.
    - apply (deliverModel_staged now);
        [apply deliverModel_wellFormed, Hwf | apply (deliverModel_staged now)];
        assumption. }
  unfold newApp, staged in *. rewrite runCallback_sceneManager.
  destruct H1 as [Hp Hq]. split; [exact Hp |]. simpl.
  apply Forall_app. split; [exact Hq | constructor; [exact I | constructor]].
Qed.

Lemma reachableAt_staged (clock : R) (w : App) : reachableAt clock w -> staged w.
Proof.
  induction 1 as [now gltfLoader | clock now e w Hw IH He Hle | clock e w Hw IH He].
  - apply newApp_staged.
  - apply (handle_staged clock); [apply reachableAt_wellFormed, Hw | exact IH].
  - apply (handle_staged clock); [apply reachableAt_wellFormed, Hw | exact IH].
Qed.

Lemma distanceTo_along_x (a b : Vector3) :
  y a = y b -> z a = z b -> x a <= x b -> distanceTo a b = x b - x a.
Proof.
  intros Hy Hz Hx. unfold distanceTo. rewrite Hy, Hz.
  replace ((x a - x b) * (x a - x b) + (y b - y b) * (y b - y b)
           + (z b - z b) * (z b - z b))
    with ((x b - x a) * (x b - x a)) by ring.
  apply sqrt_square. lra.
Qed.

(** X6. In every state reached with a clock that does not run backwards,
    the mother, when present, is on the line y = 1, z = 0 with
    -12 <= x <= -2, and the child on the same line with 2 <= x <= 12: the
    characters never leave their sides of the bridge, never pass each other,
    and are never less than 4 nor more than 24 units apart. *)
Theorem characters_keep_their_sides :
  forall (clock : R) (w : App),
    reachableAt clock w ->
    (forall m, mother (sceneManager w) = Some m ->
       -12 <= x (store w m) <= -2 /\ y (store w m) = 1 /\ z (store w m) = 0) /\
    (forall c, child (sceneManager w) = Some c ->
       2 <= x (store w c) <= 12 /\ y (store w c) = 1 /\ z (store w c) = 0) /\
    (forall m c, mother (sceneManager w) = Some m ->
       child (sceneManager w) = Some c ->
       distanceTo (store w m) (store w c) = x (store w c) - x (store w m) /\
       4 <= distanceTo (store w m) (store w c) <= 24).
Proof.
  intros clock w Hw.
  destruct (reachableAt_staged clock w Hw) as [[Hpm Hpc] _].
  split; [exact Hpm |]. split; [exact Hpc |].
  intros m c Hm Hc.
  destruct (Hpm m Hm) as (Hxm & Hym & Hzm).
  destruct (Hpc c Hc) as (Hxc & Hyc & Hzc).
  rewrite distanceTo_along_x by lra. split; [reflexivity | lra].
Qed.

Lemma characters_keep_their_sides_witness :
  4 <= distanceTo (store (handle (AnimationFrame 700) alignedAtStart) 2%nat)
                  (store (handle (AnimationFrame 700) alignedAtStart) 3%nat) <= 24.
Proof.
  destruct alignedAtStart_state as (Hsm & _).
  assert (Hreach : reachableAt 700 (handle (AnimationFrame 700) alignedAtStart)).
  { apply (reachableAt_timed 0 700); [| reflexivity | lra].
    apply (reachableAt_timed 0 0 (Click BtnEmotionalView 0) (newApp 0 false));
      [apply reachableAt_new | reflexivity | lra]. }
  destruct (characters_keep_their_sides 700 _ Hreach) as (_ & _ & Hdist).
  apply (Hdist 2%nat 3%nat).
  - change (handle (AnimationFrame 700) alignedAtStart)
      with (frame 700 alignedAtStart).
    rewrite frame_sceneManager, Hsm. reflexivity.
  - change (handle (AnimationFrame 700) alignedAtStart)
      with (frame 700 alignedAtStart).
    rewrite frame_sceneManager, Hsm. reflexivity.
Defined.

(** The reunion from wherever the characters stand on the line y = 1, z = 0. *)
Lemma triggerBridgeMovement_reunion_anywhere (now : R) (w : App) (b : Bridge)
  (m c : ref) :
  bridge (sceneManager w) = Some b -> isAligned b = true ->
  mother (sceneManager w) = Some m -> child (sceneManager w) = Some c ->
  m <> c ->
  y (store w m) = 1 -> z (store w m) = 0 ->
  y (store w c) = 1 -> z (store w c) = 0 ->
  bridge_left b <> m -> bridge_left b <> c ->
  bridge_right b <> m -> bridge_right b <> c ->
  Forall (drives m (Target.mk (Some (-2)) None None) (now + 2000)) (rafQueue w) ->
  Forall (drives c (Target.mk (Some 2) None None) (now + 2000)) (rafQueue w) ->
  tweenPending m (Target.mk (Some (-2)) None None) (mkVector3 (-2) 1 0) (now + 2000)
               (triggerBridgeMovement now w) /\
  tweenPending c (Target.mk (Some 2) None None) (mkVector3 2 1 0) (now + 2000)
               (triggerBridgeMovement now w).
Proof.
  intros Hb Hflag Hm Hc Hmc Hym Hzm Hyc Hzc HLm HLc HRm HRc Hqm Hqc.
  unfold triggerBridgeMovement. rewrite Hb, Hflag.
  rewrite !animateBridgeSegment_started.
  unfold triggerReunion. simpl. rewrite Hm, Hc.
  rewrite !animateCharacter_started.
  unfold tweenPending. simpl. split.
  - split.
    + repeat (apply Forall_app; split); try exact Hqm;
        (constructor; [simpl | constructor]).
      * intro K. contradiction.
      * intro K. contradiction.
      * intros _. split; [reflexivity | lra].
      * intro K. exfalso. apply Hmc. symmetry. exact K.
    + split.
      * rewrite (write_other _ c m) by exact Hmc.
        rewrite write_same, landing_tweenPosition.
        rewrite !write_other by (intro K; symmetry in K; contradiction).
        unfold landing. simpl. rewrite Hym, Hzm. reflexivity.
      * left. eexists. split.
        -- apply in_or_app. left. apply in_or_app. right. left. reflexivity.
        -- reflexivity.
  - split.
    + repeat (apply Forall_app; split); try exact Hqc;
        (constructor; [simpl | constructor]).
      * intro K. contradiction.
      * intro K. contradiction.
      * intro K. contradiction.
      * intros _. split; [reflexivity | lra].
    + split.
      * rewrite write_same, landing_tweenPosition.
        rewrite (write_other _ m c) by (intro K; apply Hmc; symmetry; exact K).
        rewrite !write_other by (intro K; symmetry in K; contradiction).
        unfold landing. simpl. rewrite Hyc, Hzc. reflexivity.
      * left. eexists. split.
        -- apply in_or_app. right. left. reflexivity.
        -- reflexivity.
Qed.

(** X7. From every state reached with a clock that does not run backwards,
    with the bridge's flag set and both characters present, wherever an
    earlier reunion has left them: a trigger followed by display frames of
    which one samples the clock 2000 ms or more after it leaves the mother at
    (-2, 1, 0) and the child at (2, 1, 0), nothing pending on either, 4 units
    apart, and the frame callback shows [reunited]. *)
Theorem trigger_reunites_from_any_reachable_state :
  forall (clock now : R) (times : list R) (w : App) (m c : ref),
    reachableAt clock w -> clock <= now ->
    bridgeIsAligned (sceneManager w) = true ->
    mother (sceneManager w) = Some m -> child (sceneManager w) = Some c ->
    (exists t, In t times /\ now + 2000 <= t) ->
    let w' := frames times (triggerBridgeMechanism now w) in
    settled m (mkVector3 (-2) 1 0) w' /\
    settled c (mkVector3 2 1 0) w' /\
    distanceTo (store w' m) (store w' c) = 4 /\
    (forall t, currentState (uiManager (runCallback t AppAnimate w')) = reunited).
Proof.
  intros clock now times w m c Hreach Hle Hflag Hm Hc Hlate w'.
  pose proof (reachableAt_wellFormed clock w Hreach) as Hwf.
  destruct (reachableAt_staged clock w Hreach) as [[Hpm Hpc] _].
  destruct (Hpm m Hm) as (_ & Hym & Hzm). destruct (Hpc c Hc) as (_ & Hyc & Hzc).
  destruct (wellFormed_drives clock now w m c Hwf Hle Hm Hc)
    as (Hqm & Hqc & H2m & H2c).
  destruct Hwf as ([flag Hb] & _ & _ & _ & Hd & _).
  assert (Hf : flag = true).
  { unfold bridgeIsAligned in Hflag. rewrite Hb in Hflag. exact Hflag. }
  assert (Hmc : m <> c).
  { intro K. subst c. exact (Hd m Hm Hc). }
  assert (Hgate : triggerBridgeMechanism now w = triggerBridgeMovement now w).
  { unfold triggerBridgeMechanism. rewrite Hflag, orb_true_r. reflexivity. }
  destruct (triggerBridgeMovement_reunion_anywhere now w
              (mkBridge 0%nat 1%nat flag) m c) as [Hpendm Hpendc];
    try assumption; try (simpl; lia).
  rewrite <- Hgate in Hpendm, Hpendc.
  pose proof (frames_tweenPending _ _ _ _ times _ Hlate Hpendm) as Hsm.
  pose proof (frames_tweenPending _ _ _ _ times _ Hlate Hpendc) as Hsc.
  fold w' in Hsm, Hsc.
  split; [exact Hsm |]. split; [exact Hsc |].
  destruct Hsm as [_ Hatm]. destruct Hsc as [_ Hatc].
  rewrite Hatm, Hatc, distanceTo_reunited. split; [reflexivity |].
  intro t. simpl. rewrite updateFromSceneState_spec.
  unfold sceneStateOf. simpl.
  assert (Hscene : sceneManager w' = sceneManager w).
  { unfold w'. rewrite frames_sceneManager, triggerBridgeMechanism_sceneManager.
    reflexivity. }
  rewrite Hscene, Hm, Hc, Hatm, Hatc, distanceTo_reunited.
  assert (L : Rltb 4 5 = true) by (apply Rltb_true; lra).
  rewrite L. reflexivity.
Qed.

Lemma trigger_reunites_from_any_reachable_state_witness :
  let w' := frames [4000]
              (triggerBridgeMechanism 1000
                 (handle (AnimationFrame 700)
                    (handle (Click BtnTriggerBridge 0) alignedAtStart))) in
  distanceTo (store w' 2%nat) (store w' 3%nat) = 4.
Proof.
  destruct alignedAtStart_state as (Hsm & _).
  set (w := handle (AnimationFrame 700)
              (handle (Click BtnTriggerBridge 0) alignedAtStart)).
  assert (Hscene : sceneManager w = sceneManager alignedAtStart).
  { unfold w.
    change (handle (AnimationFrame 700) ?a) with (frame 700 a).
    change (handle (Click BtnTriggerBridge 0) ?a) with (triggerBridgeMechanism 0 a).
    rewrite frame_sceneManager, triggerBridgeMechanism_sceneManager. reflexivity. }
  assert (Hreach : reachableAt 700 w).
  { apply (reachableAt_timed 0 700); [| reflexivity | lra].
    apply (reachableAt_timed 0 0); [| reflexivity | lra].
    apply (reachableAt_timed 0 0 (Click BtnEmotionalView 0) (newApp 0 false));
      [apply reachableAt_new | reflexivity | lra]. }
  destruct (trigger_reunites_from_any_reachable_state 700 1000 [4000] w 2%nat 3%nat)
    as (_ & _ & Hdist & _).
  - exact Hreach.
  - lra.
  - unfold bridgeIsAligned. rewrite Hscene, Hsm. reflexivity.
  - rewrite Hscene, Hsm. reflexivity.
  - rewrite Hscene, Hsm. reflexivity.
  - exists 4000. split; [left; reflexivity | lra].
  - exact Hdist.
Defined.

(** ** The bridge segments across firings *)

(** With the flag set and nothing else pending on the segments, the trigger
    leaves a tween pending on each, towards 0.3 further along z. *)
Lemma triggerBridgeMovement_segments_pending (now : R) (w : App) (b : Bridge) :
  bridge (sceneManager w) = Some b -> isAligned b = true ->
  bridge_left b <> bridge_right b ->
  mother (sceneManager w) <> Some (bridge_left b) ->
  mother (sceneManager w) <> Some (bridge_right b) ->
  child (sceneManager w) <> Some (bridge_left b) ->
  child (sceneManager w) <> Some (bridge_right b) ->
  (forall cb, In cb (rafQueue w) ->
     writesTo cb <> Some (bridge_left b) /\ writesTo cb <> Some (bridge_right b)) ->
  let pl := store w (bridge_left b) in
  let pr := store w (bridge_right b) in
  tweenPending (bridge_left b) (Target.mk None None (Some (z pl + 0.3)))
    (mkVector3 (x pl) (y pl) (z pl + 0.3)) (now + 1000)
    (triggerBridgeMovement now w) /\
  tweenPending (bridge_right b) (Target.mk None None (Some (z pr + 0.3)))
    (mkVector3 (x pr) (y pr) (z pr + 0.3)) (now + 1000)
    (triggerBridgeMovement now w).
Proof.
  intros Hb Hflag Hne HmL HmR HcL HcR Hquiet pl pr.
  assert (Hne' : bridge_right b <> bridge_left b)
    by (intro K; apply Hne; symmetry; exact K).
  split.
  - unfold triggerBridgeMovement. rewrite Hb, Hflag.
    apply triggerReunion_tweenPending;
      [rewrite !animateBridgeSegment_started; exact HmL
      | rewrite !animateBridgeSegment_started; exact HcL |].
    rewrite !animateBridgeSegment_started.
    apply requestAnimationFrame_tweenPending.
    + simpl. intro K. symmetry in K. contradiction.
    + simpl. rewrite write_other by exact Hne. reflexivity.
    + right. simpl. apply write_other. exact Hne.
    + unfold tweenPending. simpl. split; [| split].
      * apply Forall_app. split.
        -- apply bystanders_drive. intros cb Hin. apply (Hquiet cb Hin).
        -- constructor; [| constructor]. simpl. intros _. split; [reflexivity | lra].
      * rewrite write_same, landing_tweenPosition. reflexivity.
      * left. eexists. split; [apply in_or_app; right; left; reflexivity |].
        reflexivity.
  - unfold triggerBridgeMovement. rewrite Hb, Hflag.
    apply triggerReunion_tweenPending;
      [rewrite !animateBridgeSegment_started; exact HmR
      | rewrite !animateBridgeSegment_started; exact HcR |].
    rewrite !animateBridgeSegment_started.
    unfold tweenPending. simpl. split; [| split].
    + repeat (apply Forall_app; split).
      * apply bystanders_drive. intros cb Hin. apply (Hquiet cb Hin).
      * constructor; [| constructor]. simpl. intro K. contradiction.
      * constructor; [| constructor]. simpl. intros _. split; [reflexivity | lra].
    + rewrite write_same, landing_tweenPosition.
      rewrite write_other by exact Hne'. reflexivity.
    + left. eexists. split; [apply in_or_app; right; left; reflexivity |].
      reflexivity.
Qed.

(** A firing left to complete, in a well-formed state with quiet segments. *)
Lemma firing_settles_segments (clock now : R) (times : list R) (w : App) :
  wellFormed clock w ->
  bridgeIsAligned (sceneManager w) = true ->
  (forall cb, In cb (rafQueue w) ->
     writesTo cb <> Some 0%nat /\ writesTo cb <> Some 1%nat) ->
  (exists t, In t times /\ now + 1000 <= t) ->
  let w' := frames times (triggerBridgeMechanism now w) in
  let pl := store w 0%nat in
  let pr := store w 1%nat in
  settled 0%nat (mkVector3 (x pl) (y pl) (z pl + 0.3)) w' /\
  settled 1%nat (mkVector3 (x pr) (y pr) (z pr + 0.3)) w'.
Proof.
  intros ([flag Hb] & _ & Hm & Hc & _) Hflag Hquiet Hlate w' pl pr.
  assert (Hf : flag = true).
  { unfold bridgeIsAligned in Hflag. rewrite Hb in Hflag. exact Hflag. }
  assert (Hgate : triggerBridgeMechanism now w = triggerBridgeMovement now w).
  { unfold triggerBridgeMechanism. rewrite Hflag, orb_true_r. reflexivity. }
  assert (Hnot : forall (who : option ref) s,
            (forall k, who = Some k -> (2 <= k < nextRef w)%nat) ->
            (s < 2)%nat -> who <> Some s).
  { intros who s Hwho Hs K. specialize (Hwho s K). lia. }
  destruct (triggerBridgeMovement_segments_pending now w
              (mkBridge 0%nat 1%nat flag)) as [HL HR];
    try assumption; try (simpl; apply Hnot; [assumption | lia]).
  { simpl. discriminate. }
  unfold w'. rewrite Hgate. split.
  - exact (frames_tweenPending _ _ _ _ times _ Hlate HL).
  - exact (frames_tweenPending _ _ _ _ times _ Hlate HR).
Qed.

(** X8. In a reachable state with the bridge's flag set and no tween pending
    on the segments, a trigger followed by display frames of which one samples
    the clock 1000 ms or more after it moves each segment by exactly 0.3
    along z and not at all along x and y; nothing is then pending on the
    segments. *)
Theorem firing_moves_each_segment_by_the_offset :
  forall (clock now : R) (times : list R) (w : App),
    reachableAt clock w ->
    bridgeIsAligned (sceneManager w) = true ->
    (forall cb, In cb (rafQueue w) ->
       writesTo cb <> Some 0%nat /\ writesTo cb <> Some 1%nat) ->
    (exists t, In t times /\ now + 1000 <= t) ->
    let w' := frames times (triggerBridgeMechanism now w) in
    bridge (sceneManager w') = Some (mkBridge 0%nat 1%nat true) /\
    (forall s, (s < 2)%nat ->
       x (store w' s) = x (store w s) /\
       y (store w' s) = y (store w s) /\
       z (store w' s) = z (store w s) + 0.3 /\
       (forall cb, In cb (rafQueue w') -> writesTo cb <> Some s)).
Proof.
  intros clock now times w Hreach Hflag Hquiet Hlate w'.
  pose proof (reachableAt_wellFormed clock w Hreach) as Hwf.
  destruct (firing_settles_segments clock now times w Hwf Hflag Hquiet Hlate)
    as [[HqL HL] [HqR HR]].
  fold w' in HqL, HL, HqR, HR.
  split.
  - unfold w'. rewrite frames_sceneManager, triggerBridgeMechanism_sceneManager.
    destruct Hwf as ([flag Hb] & _). unfold bridgeIsAligned in Hflag.
    rewrite Hb in Hflag |- *. simpl in Hflag. rewrite Hflag. reflexivity.
  - intros s Hs.
    assert (Hcase : s = 0%nat \/ s = 1%nat) by lia.
    destruct Hcase as [-> | ->].
    + rewrite HL. simpl. repeat split; try reflexivity. exact HqL.
    + rewrite HR. simpl. repeat split; try reflexivity. exact HqR.
Qed.

Lemma firing_moves_each_segment_by_the_offset_witness :
  z (store (frames [500; 1000] (triggerBridgeMechanism 0 alignedAtStart)) 0%nat)
  = z (store alignedAtStart 0%nat) + 0.3.
Proof.
  destruct alignedAtStart_state as (Hsm & _ & _ & Hq).
  destruct (firing_moves_each_segment_by_the_offset 0 0 [500; 1000] alignedAtStart)
    as (_ & Hseg).
  - apply (reachableAt_timed 0 0 (Click BtnEmotionalView 0) (newApp 0 false));
      [apply reachableAt_new | reflexivity | lra].
  - unfold bridgeIsAligned. rewrite Hsm. reflexivity.
  - rewrite Hq. intros cb [<- | [<- | []]]; split; discriminate.
  - exists 1000. split; [right; left; reflexivity | lra].
  - exact (proj1 (proj2 (proj2 (Hseg 0%nat ltac:(lia))))).
Defined.

(** X9. Firings add up: a second trigger made once the first has completed,
    and itself left to complete, leaves each segment 0.6 beyond where it was
    before the first; nothing brings a segment back. *)
Theorem two_completed_firings_add_up :
  forall (clock now1 now2 : R) (times1 times2 : list R) (w : App),
    reachableAt clock w ->
    bridgeIsAligned (sceneManager w) = true ->
    (forall cb, In cb (rafQueue w) ->
       writesTo cb <> Some 0%nat /\ writesTo cb <> Some 1%nat) ->
    (exists t, In t times1 /\ now1 + 1000 <= t) ->
    (exists t, In t times2 /\ now2 + 1000 <= t) ->
    let w1 := frames times1 (triggerBridgeMechanism now1 w) in
    let w2 := frames times2 (triggerBridgeMechanism now2 w1) in
    forall s, (s < 2)%nat ->
      store w2 s
      = mkVector3 (x (store w s)) (y (store w s)) (z (store w s) + 0.3 + 0.3).
Proof.
  intros clock now1 now2 times1 times2 w Hreach Hflag Hquiet Hlate1 Hlate2 w1 w2.
  pose proof (reachableAt_wellFormed clock w Hreach) as Hwf.
  destruct (firing_settles_segments clock now1 times1 w Hwf Hflag Hquiet Hlate1)
    as [[HqL HL] [HqR HR]].
  fold w1 in HqL, HL, HqR, HR.
  assert (Hscene : sceneManager w1 = sceneManager w).
  { unfold w1. rewrite frames_sceneManager, triggerBridgeMechanism_sceneManager.
    reflexivity. }
  assert (Hflag1 : bridgeIsAligned (sceneManager w1) = true)
    by (rewrite Hscene; exact Hflag).
  assert (Hquiet1 : forall cb, In cb (rafQueue w1) ->
            writesTo cb <> Some 0%nat /\ writesTo cb <> Some 1%nat).
  { intros cb Hin. split; [apply HqL | apply HqR]; exact Hin. }
  assert (G : settled 0%nat (mkVector3 (x (store w1 0%nat)) (y (store w1 0%nat))
                               (z (store w1 0%nat) + 0.3)) w2 /\
              settled 1%nat (mkVector3 (x (store w1 1%nat)) (y (store w1 1%nat))
                               (z (store w1 1%nat) + 0.3)) w2).
  { destruct Hwf as ([flag Hb] & _ & Hm & Hc & _).
    assert (Hf : flag = true).
    { unfold bridgeIsAligned in Hflag. rewrite Hb in Hflag. exact Hflag. }
    assert (Hgate : triggerBridgeMechanism now2 w1 = triggerBridgeMovement now2 w1).
    { unfold triggerBridgeMechanism. rewrite Hflag1, orb_true_r. reflexivity. }
    assert (Hnot : forall (who : option ref) s,
              (forall k, who = Some k -> (2 <= k < nextRef w)%nat) ->
              (s < 2)%nat -> who <> Some s).
    { intros who s Hwho Hs K. specialize (Hwho s K). lia. }
    destruct (triggerBridgeMovement_segments_pending now2 w1
                (mkBridge 0%nat 1%nat flag)) as [HL2 HR2];
      try assumption;
      try (rewrite Hscene; simpl; apply Hnot; [assumption | lia]).
    { rewrite Hscene. exact Hb. }
    { simpl. discriminate. }
    unfold w2. rewrite Hgate. split.
    - exact (frames_tweenPending _ _ _ _ times2 _ Hlate2 HL2).
    - exact (frames_tweenPending _ _ _ _ times2 _ Hlate2 HR2). }
  destruct G as [[_ G0] [_ G1]].
  intros s Hs. assert (Hcase : s = 0%nat \/ s = 1%nat) by lia.
  destruct Hcase as [-> | ->].
  - rewrite G0, HL. reflexivity.
  - rewrite G1, HR. reflexivity.
Qed.

Lemma two_completed_firings_add_up_witness :
  z (store (frames [2500]
              (triggerBridgeMechanism 1500
                 (frames [1000] (triggerBridgeMechanism 0 alignedAtStart))))
           1%nat)
  = z (store alignedAtStart 1%nat) + 0.3 + 0.3.
Proof.
  destruct alignedAtStart_state as (Hsm & _ & _ & Hq).
  rewrite (two_completed_firings_add_up 0 0 1500 [1000] [2500] alignedAtStart).
  - reflexivity.
  - apply (reachableAt_timed 0 0 (Click BtnEmotionalView 0) (newApp 0 false));
      [apply reachableAt_new | reflexivity | lra].
  - unfold bridgeIsAligned. rewrite Hsm. reflexivity.
  - rewrite Hq. intros cb [<- | [<- | []]]; split; discriminate.
  - exists 1000. split; [left; reflexivity | lra].
  - exists 2500. split; [left; reflexivity | lra].
  - lia.
Defined.

(** ** What is on display *)

Lemma reachable_uiManager_updateStatus (w : App) :
  reachable w -> exists state ui, uiManager w = updateStatus state ui.
Proof.
  induction 1 as [now gltfLoader | e w _ IH].
  - unfold newApp. simpl. rewrite updateFromSceneState_spec.
    eexists. eexists. reflexivity.
  - destruct e as [[| | |] now | now | type | moved]; simpl.
    + unfold switchToMotherView. rewrite setPresetView_uiManager. exact IH.
    + unfold switchToChildView. rewrite setPresetView_uiManager. exact IH.
    + unfold switchToEmotionalView. simpl. rewrite setPresetView_uiManager.
      exact IH.
    + rewrite triggerBridgeMechanism_uiManager. exact IH.
    + unfold frame.
      apply (fold_runCallback_ind now
               (fun _ a => exists state ui, uiManager a = updateStatus state ui)).
      * intros cb l a Ha. destruct cb.
        -- simpl. rewrite updateFromSceneState_spec. eexists. eexists. reflexivity.
        -- rewrite runCallback_uiManager_tween by discriminate. exact Ha.
        -- rewrite runCallback_uiManager_tween by discriminate. exact Ha.
        -- rewrite runCallback_uiManager_tween by discriminate. exact Ha.
      * exact IH.
    + destruct type; exact IH.
    + exact IH.
Qed.

(** X10. In every reachable state the two texts on display are the pair the
    current state stands for, and the status text tells the states apart: it
    is the text of a state only if that state is the current one. *)
Theorem display_tells_the_state :
  forall (w : App),
    reachable w ->
    (statusText (uiManager w), hintText (uiManager w))
      = statusMessages (currentState (uiManager w)) /\
    (forall state, statusText (uiManager w) = fst (statusMessages state) ->
                   state = currentState (uiManager w)) /\
    (forall state, hintText (uiManager w) = snd (statusMessages state) ->
                   state = currentState (uiManager w)).
Proof.
  intros w Hw. destruct (reachable_uiManager_updateStatus w Hw) as (s & ui & ->).
  simpl. split; [destruct (statusMessages s); reflexivity |].
  split; intros state H; destruct s, state; try reflexivity; discriminate H.
Qed.

Lemma display_tells_the_state_witness :
  (statusText (uiManager (newApp 0 true)), hintText (uiManager (newApp 0 true)))
  = statusMessages (currentState (uiManager (newApp 0 true))).
Proof.
  exact (proj1 (display_tells_the_state (newApp 0 true) (reachable_new 0 true))).
Defined.

(** ** A trigger that comes before the characters *)

Lemma quietlyAfter_reachableAt (clock clock' : R) (w w' : App) :
  quietlyAfter clock w clock' w' -> reachableAt clock w -> reachableAt clock' w'.
Proof.
  induction 1 as [| clock' now e w' _ IH He Hle _ | clock' e w' _ IH He]; intro Hw.
  - exact Hw.
  - apply (reachableAt_timed clock'); [apply IH, Hw | exact He | exact Hle].
  - apply reachableAt_untimed; [apply IH, Hw | exact He].
Qed.

Lemma waiting_quiet (clock : R) (w : App) (k : ref) :
  wellFormed clock w -> noCharacterTween (rafQueue w) -> (2 <= k)%nat ->
  forall cb, In cb (rafQueue w) -> writesTo cb <> Some k.
Proof.
  intros (_ & _ & _ & _ & _ & Hall) Hno Hk cb Hin.
  unfold noCharacterTween in Hno. rewrite Forall_forall in Hno, Hall.
  specialize (Hno cb Hin). specialize (Hall cb Hin).
  destruct cb; simpl in *; try discriminate.
  intro K. injection K as K. lia.
Qed.

Lemma frame_waitingOnPlatforms (clock now : R) (w : App) :
  wellFormed clock w -> waitingOnPlatforms w -> waitingOnPlatforms (frame now w).
Proof.
  intros Hwf (Hno & Hm & Hc). unfold waitingOnPlatforms.
  rewrite frame_sceneManager.
  split; [apply frame_rafQueue_Forall, Hno |].
  destruct Hwf as (Hb & Hn & Hm2 & Hc2 & Hd & Hall).
  split.
  - intros m K. apply (frame_settled m). split; [| apply Hm, K].
    apply (waiting_quiet clock);
      [repeat (split; try assumption) | exact Hno | apply (Hm2 m K)].
  - intros c K. apply (frame_settled c). split; [| apply Hc, K].
    apply (waiting_quiet clock);
      [repeat (split; try assumption) | exact Hno | apply (Hc2 c K)].
Qed.

Lemma setPresetView_waitingOnPlatforms (presetName : string) (now : R) (w : App) :
  waitingOnPlatforms w -> waitingOnPlatforms (setPresetView presetName now w).
Proof.
  intros (Hno & Hm & Hc). unfold waitingOnPlatforms.
  rewrite setPresetView_sceneManager, setPresetView_store.
  split; [| split; assumption].
  apply setPresetView_rafQueue_Forall; [reflexivity | exact Hno].
Qed.

Lemma deliverModel_waitingOnPlatforms (clock : R) (type : Role) (w : App) :
  wellFormed clock w -> waitingOnPlatforms w ->
  waitingOnPlatforms (deliverModel type w).
Proof.
  intros (_ & _ & Hm2 & Hc2 & _) (Hno & Hm & Hc).
  destruct type; unfold waitingOnPlatforms; simpl.
  - split; [exact Hno |]. split.
    + intros m K. injection K as <-. apply write_same.
    + intros c K. rewrite write_other; [apply Hc, K |]. specialize (Hc2 c K). lia.
  - split; [exact Hno |]. split.
    + intros m K. rewrite write_other; [apply Hm, K |]. specialize (Hm2 m K). lia.
    + intros c K. injection K as <-. apply write_same.
Qed.

(** With a character missing the trigger starts segment tweens at most. *)
Lemma triggerBridgeMechanism_waitingOnPlatforms (clock now : R) (w : App) :
  wellFormed clock w ->
  mother (sceneManager w) = None \/ child (sceneManager w) = None ->
  waitingOnPlatforms w -> waitingOnPlatforms (triggerBridgeMechanism now w).
Proof.
  intros ([flag Hb] & _ & Hm2 & Hc2 & _) Hmissing (Hno & Hm & Hc).
  unfold waitingOnPlatforms. rewrite triggerBridgeMechanism_sceneManager.
  unfold triggerBridgeMechanism. case_if; [| repeat split; assumption].
  unfold triggerBridgeMovement. rewrite Hb. cbn [isAligned bridge_left bridge_right].
  destruct flag; [| repeat split; assumption].
  assert (Hreunion : forall a, sceneManager a = sceneManager w ->
                               triggerReunion now a = a).
  { intros a Ha. unfold triggerReunion. rewrite Ha.
    destruct Hmissing as [-> | ->]; [reflexivity |].
    destruct (mother (sceneManager w)); reflexivity. }
  rewrite Hreunion
    by (unfold animateBridgeSegment; rewrite !runCallback_sceneManager; reflexivity).
  rewrite !animateBridgeSegment_started. simpl.
  split; [| split].
  - unfold noCharacterTween. repeat (apply Forall_app; split); try exact Hno;
      (constructor; [reflexivity | constructor]).
  - intros m K. specialize (Hm2 m K).
    rewrite !write_other by lia. apply Hm, K.
  - intros c K. specialize (Hc2 c K).
    rewrite !write_other by lia. apply Hc, K.
Qed.

Lemma handle_waitingOnPlatforms (clock : R) (e : Event) (w : App) :
  wellFormed clock w ->
  (forall t, e <> Click BtnTriggerBridge t)
  \/ mother (sceneManager w) = None \/ child (sceneManager w) = None ->
  waitingOnPlatforms w -> waitingOnPlatforms (handle e w).
Proof.
  intros Hwf Hcase H.
  destruct e as [[| | |] now | now | type | moved]; simpl.
  - apply setPresetView_waitingOnPlatforms, H.
  - apply setPresetView_waitingOnPlatforms, H.
  - pose proof (setPresetView_waitingOnPlatforms "emotional" now w H) as K.
    unfold waitingOnPlatforms in *. simpl. unfold setBridgeAligned.
    destruct (bridge (sceneManager (setPresetView "emotional" now w))); exact K.
  - destruct Hcase as [Hcase | Hcase]; [exfalso; apply (Hcase now); reflexivity |].
    apply (triggerBridgeMechanism_waitingOnPlatforms clock); assumption.
  - apply (frame_waitingOnPlatforms clock); assumption.
  - apply (deliverModel_waitingOnPlatforms clock); assumption.
  - exact H.
Qed.

Lemma handle_keeps_characters (e : Event) (w : App) :
  (mother (sceneManager (handle e w)) = None -> mother (sceneManager w) = None) /\
  (child (sceneManager (handle e w)) = None -> child (sceneManager w) = None).
Proof.
  destruct e as [[| | |] now | now | type | moved].
  - change (handle (Click BtnMotherView now) w) with (setPresetView "mother" now w).
    rewrite setPresetView_sceneManager. tauto.
  - change (handle (Click BtnChildView now) w) with (setPresetView "child" now w).
    rewrite setPresetView_sceneManager. tauto.
  - change (handle (Click BtnEmotionalView now) w)
      with (switchToEmotionalView now w).
    unfold switchToEmotionalView, setBridgeAligned. cbn [sceneManager setSceneManager].
    rewrite setPresetView_sceneManager.
    destruct (bridge (sceneManager w)); simpl; tauto.
  - change (handle (Click BtnTriggerBridge now) w)
      with (triggerBridgeMechanism now w).
    rewrite triggerBridgeMechanism_sceneManager. tauto.
  - change (handle (AnimationFrame now) w) with (frame now w).
    rewrite frame_sceneManager. tauto.
  - destruct type; simpl; split; intro K; try discriminate K; exact K.
  - simpl. tauto.
Qed.

Lemma reachableAt_waits_while_incomplete (clock : R) (w : App) :
  reachableAt clock w ->
  mother (sceneManager w) = None \/ child (sceneManager w) = None ->
  waitingOnPlatforms w.
Proof.
  induction 1 as [now gltfLoader | clock now e w Hw IH He Hle | clock e w Hw IH He];
    intro Hmissing.
  - assert (H0 : waitingOnPlatforms (setPresetView "mother" now constructed)).
    { apply setPresetView_waitingOnPlatforms. unfold waitingOnPlatforms. simpl.
      split; [constructor |]. split; intros k K; discriminate K. }
    assert (Hwf0 : wellFormed now (setPresetView "mother" now constructed)).
    { apply (setPresetView_wellFormed now now); [lra |].
      unfold wellFormed, hasBridge. simpl.
      split; [exists false; reflexivity |]. split; [lia |].
      split; [intros m K; discriminate K |].
      split; [intros c K; discriminate K |].
      split; [intros r K; discriminate K | constructor]. }
    assert (H1 : waitingOnPlatforms
                   (loadModels gltfLoader (setPresetView "mother" now constructed))).
    { destruct gltfLoader; unfold loadModels, createPlaceholderModels.
      - exact H0.
      - apply (deliverModel_waitingOnPlatforms now);
          [apply deliverModel_wellFormed, Hwf0 |].
        apply (deliverModel_waitingOnPlatforms now); assumption. }
    unfold newApp, waitingOnPlatforms in *. rewrite runCallback_sceneManager.
    destruct H1 as (Hno & Hm & Hc). split; [| split; assumption]. simpl.
    apply Forall_app. split; [exact Hno | constructor; [reflexivity | constructor]].
  - assert (Hbefore : mother (sceneManager w) = None \/ child (sceneManager w) = None).
    { destruct (handle_keeps_characters e w) as [Km Kc].
      destruct Hmissing as [K | K]; [left; apply Km, K | right; apply Kc, K]. }
    apply (handle_waitingOnPlatforms clock);
      [apply reachableAt_wellFormed, Hw | right; exact Hbefore | apply IH, Hbefore].
  - assert (Hbefore : mother (sceneManager w) = None \/ child (sceneManager w) = None).
    { destruct (handle_keeps_characters e w) as [Km Kc].
      destruct Hmissing as [K | K]; [left; apply Km, K | right; apply Kc, K]. }
    apply (handle_waitingOnPlatforms clock);
      [apply reachableAt_wellFormed, Hw | right; exact Hbefore | apply IH, Hbefore].
Qed.

(** X11. A trigger made while the mother or the child has not arrived yet
    starts no reunion, and nothing later does either, short of another
    trigger: whatever events follow (frames, preset buttons, the models
    arriving, the pointer), no character tween is ever pending and each
    character present stands on its platform, so that once both are there
    they are 24 units apart and the frame callback does not show
    [reunited]. *)
Theorem early_trigger_never_reunites :
  forall (clock now clock' : R) (w w' : App),
    reachableAt clock w -> clock <= now ->
    mother (sceneManager w) = None \/ child (sceneManager w) = None ->
    quietlyAfter now (triggerBridgeMechanism now w) clock' w' ->
    noCharacterTween (rafQueue w') /\
    (forall m, mother (sceneManager w') = Some m ->
       store w' m = mkVector3 (-12) 1 0) /\
    (forall c, child (sceneManager w') = Some c ->
       store w' c = mkVector3 12 1 0) /\
    (forall m c t, mother (sceneManager w') = Some m ->
       child (sceneManager w') = Some c ->
       distanceTo (store w' m) (store w' c) = 24 /\
       currentState (uiManager (runCallback t AppAnimate w')) <> reunited).
Proof.
  intros clock now clock' w w' Hreach Hle Hmissing Hquiet.
  assert (Hreach1 : reachableAt now (triggerBridgeMechanism now w)).
  { exact (reachableAt_timed clock now (Click BtnTriggerBridge now) w
             Hreach eq_refl Hle). }
  assert (H1 : waitingOnPlatforms (triggerBridgeMechanism now w)).
  { apply (triggerBridgeMechanism_waitingOnPlatforms clock);
      [apply reachableAt_wellFormed, Hreach | exact Hmissing |].
    apply (reachableAt_waits_while_incomplete clock); assumption. }
  assert (H' : waitingOnPlatforms w').
  { induction Hquiet as [| c' t e a Hq IH He Ht Hnot | c' e a Hq IH He].
    - exact H1.
    - apply (handle_waitingOnPlatforms c');
        [apply reachableAt_wellFormed, (quietlyAfter_reachableAt _ _ _ _ Hq Hreach1)
        | left; exact Hnot | exact IH].
    - apply (handle_waitingOnPlatforms c');
        [apply reachableAt_wellFormed, (quietlyAfter_reachableAt _ _ _ _ Hq Hreach1)
        | left; destruct e; try discriminate He; intros t K; discriminate K
        | exact IH]. }
  destruct H' as (Hno & Hm & Hc).
  split; [exact Hno |]. split; [exact Hm |]. split; [exact Hc |].
  intros m c t Km Kc.
  assert (Hd : distanceTo (store w' m) (store w' c) = 24).
  { rewrite (Hm m Km), (Hc c Kc). rewrite distanceTo_along_x; simpl; lra. }
  split; [exact Hd |].
  simpl. rewrite updateFromSceneState_spec. unfold sceneStateOf. simpl.
  rewrite Km, Kc, Hd.
  assert (L : Rltb 24 5 = false) by (apply Rltb_false; lra).
  rewrite L. repeat case_if; discriminate.
Qed.

Lemma early_trigger_never_reunites_witness :
  let w' := handle (AnimationFrame 5000)
              (handle (ModelReady ChildRole)
                 (handle (ModelReady MotherRole)
                    (triggerBridgeMechanism 10
                       (handle (Click BtnEmotionalView 5) (newApp 0 true))))) in
  noCharacterTween (rafQueue w').
Proof.
  set (w := handle (Click BtnEmotionalView 5) (newApp 0 true)).
  refine (proj1 (early_trigger_never_reunites 5 10 5000 w _ _ _ _ _)).
  - apply (reachableAt_timed 0 5); [apply reachableAt_new | reflexivity | lra].
  - lra.
  - left. unfold w.
    change (handle (Click BtnEmotionalView 5) (newApp 0 true))
      with (switchToEmotionalView 5 (newApp 0 true)).
    unfold switchToEmotionalView, setBridgeAligned. cbn [sceneManager setSceneManager].
    rewrite setPresetView_sceneManager.
    unfold newApp. rewrite runCallback_sceneManager. unfold loadModels.
    rewrite setPresetView_sceneManager. reflexivity.
  - apply (quietly_timed _ _ 10); [| reflexivity | lra | intros t K; discriminate K].
    apply quietly_untimed; [| reflexivity].
    apply quietly_untimed; [| reflexivity].
    apply quietly_here.
Defined.


(** ** The render loop *)

Lemma renderLoops_app (q q' : list Callback) :
  renderLoops (q ++ q') = (renderLoops q + renderLoops q')%nat.
Proof.
  unfold renderLoops. rewrite filter_app, length_app. reflexivity.
Qed.

(** A closure that runs is pending again at most once, and [App.animate]
    always is. *)
Lemma runCallback_renderLoops (now : R) (cb : Callback) (w : App) :
  renderLoops (rafQueue (runCallback now cb w))
  = (renderLoops (rafQueue w) + renderLoops [cb])%nat.
Proof.
  destruct cb; simpl; repeat case_if; simpl;
    rewrite ?renderLoops_app; unfold renderLoops; simpl; lia.
Qed.

Lemma frame_renderLoops (now : R) (w : App) :
  renderLoops (rafQueue (frame now w)) = renderLoops (rafQueue w).
Proof.
  unfold frame.
  assert (H : (renderLoops
                 (rafQueue (fold_left (fun a cb => runCallback now cb a)
                              (rafQueue w) (setRafQueue [] w)))
               + renderLoops [])%nat = renderLoops (rafQueue w)).
  { apply (fold_runCallback_ind now
             (fun l a => (renderLoops (rafQueue a) + renderLoops l)%nat
                         = renderLoops (rafQueue w))).
    - intros cb l a K. rewrite runCallback_renderLoops.
      change (cb :: l) with ([cb] ++ l) in K. rewrite renderLoops_app in K. lia.
    - reflexivity. }
  rewrite <- H. unfold renderLoops at 3. simpl. lia.
Qed.

Lemma setPresetView_renderLoops (presetName : string) (now : R) (w : App) :
  renderLoops (rafQueue (setPresetView presetName now w))
  = renderLoops (rafQueue w).
Proof.
  unfold setPresetView, animateToPosition.
  destruct (isAnimating (cameraManager w)); [reflexivity |].
  destruct (presets presetName);
    [| destruct (inheritedProperty presetName); reflexivity].
  rewrite runCallback_renderLoops. unfold renderLoops. simpl. lia.
Qed.

Lemma triggerBridgeMechanism_renderLoops (now : R) (w : App) :
  renderLoops (rafQueue (triggerBridgeMechanism now w))
  = renderLoops (rafQueue w).
Proof.
  unfold triggerBridgeMechanism. case_if; [| reflexivity].
  unfold triggerBridgeMovement.
  destruct (bridge (sceneManager w)) as [b |]; [| reflexivity].
  destruct (isAligned b); [| reflexivity].
  unfold triggerReunion, animateCharacter, animateBridgeSegment.
  rewrite !runCallback_sceneManager.
  destruct (mother (sceneManager w)), (child (sceneManager w));
    rewrite !runCallback_renderLoops; unfold renderLoops; simpl; lia.
Qed.

Lemma deliverModel_rafQueue (type : Role) (w : App) :
  rafQueue (deliverModel type w) = rafQueue w.
Proof.
  destruct type; reflexivity.
Qed.

Lemma handle_renderLoops (e : Event) (w : App) :
  renderLoops (rafQueue (handle e w)) = renderLoops (rafQueue w).
Proof.
  destruct e as [[| | |] now | now | type | moved].
  - apply setPresetView_renderLoops.
  - apply setPresetView_renderLoops.
  - change (handle (Click BtnEmotionalView now) w)
      with (switchToEmotionalView now w).
    unfold switchToEmotionalView. cbn [rafQueue setSceneManager].
    apply setPresetView_renderLoops.
  - apply triggerBridgeMechanism_renderLoops.
  - apply frame_renderLoops.
  - change (handle (ModelReady type) w) with (deliverModel type w).
    rewrite deliverModel_rafQueue. reflexivity.
  - reflexivity.
Qed.

(** X12. The render loop neither stops nor doubles: in every reachable state
    exactly one run of [App.animate] is pending, so every display frame
    refreshes the status once, whatever tweens the buttons have started and
    however many frames have passed. *)
Theorem render_loop_neither_stops_nor_doubles :
  forall (w : App),
    reachable w ->
    renderLoops (rafQueue w) = 1%nat /\
    (forall now, renderLoops (rafQueue (frame now w)) = 1%nat) /\
    In AppAnimate (rafQueue w).
Proof.
  intros w Hw.
  assert (H : renderLoops (rafQueue w) = 1%nat).
  { induction Hw as [now gltfLoader | e w _ IH].
    - unfold newApp. rewrite runCallback_renderLoops.
      assert (H0 : renderLoops
                     (rafQueue (loadModels gltfLoader
                                  (setPresetView "mother" now constructed))) = 0%nat).
      { destruct gltfLoader; unfold loadModels, createPlaceholderModels;
          rewrite ?deliverModel_rafQueue, setPresetView_renderLoops; reflexivity. }
      rewrite H0. reflexivity.
    - rewrite handle_renderLoops. exact IH. }
  split; [exact H |]. split; [intro now; rewrite frame_renderLoops; exact H |].
  unfold renderLoops in H.
  destruct (filter isAppAnimate (rafQueue w)) as [| cb l] eqn:E; [discriminate H |].
  assert (Hin : In cb (filter isAppAnimate (rafQueue w))) by (rewrite E; left; reflexivity).
  apply filter_In in Hin. destruct Hin as [Hin Hcb].
  destruct cb; try discriminate Hcb. exact Hin.
Qed.

Lemma render_loop_neither_stops_nor_doubles_witness :
  renderLoops
    (rafQueue (handle (AnimationFrame 16)
                 (handle (Click BtnTriggerBridge 10)
                    (handle (Click BtnEmotionalView 5) (newApp 0 false)))))
  = 1%nat.
Proof.
  apply render_loop_neither_stops_nor_doubles.
  repeat apply reachable_handle. apply reachable_new.
Defined.


(** ** A trigger while the segments are moving *)

Lemma progressAt_not_early (startTime duration now : R) :
  0 < duration -> Rltb (progressAt startTime duration now) 1 = false ->
  startTime + duration <= now.
Proof.
  intros Hd H. apply Rltb_false in H. unfold progressAt in H.
  destruct (Rle_dec ((now - startTime) / duration) 1) as [Hle | Hgt].
  - rewrite Rmin_left in H by exact Hle.
    assert (K : (now - startTime) / duration = 1) by lra.
    apply (f_equal (fun v => v * duration)) in K.
    unfold Rdiv in K. rewrite Rmult_assoc, Rinv_l in K by lra. lra.
  - assert (K : 1 < (now - startTime) / duration) by lra.
    apply (Rmult_lt_compat_r duration) in K; [| exact Hd].
    unfold Rdiv in K. rewrite Rmult_assoc, Rinv_l in K by lra. lra.
Qed.

Lemma yieldsBy_keeps_xy (r : ref) (deadline now : R) (cb : Callback) (a : App) :
  yieldsBy r deadline cb ->
  x (store (runCallback now cb a) r) = x (store a r) /\
  y (store (runCallback now cb a) r) = y (store a r).
Proof.
  intro H.
  destruct cb as [| sp tp st tl t0 | character start target t0 onComplete
                  | segment start target t0].
  - split; reflexivity.
  - simpl. case_if; split; reflexivity.
  - rewrite runCallback_store_other; [split; reflexivity |].
    simpl in *. intro K. injection K as K. contradiction.
  - destruct (Nat.eq_dec segment r) as [-> | Hne].
    + destruct (H eq_refl) as (Hx & Hy & _).
      simpl. case_if; simpl; rewrite write_same; unfold tweenPosition; simpl;
        rewrite Hx, Hy; split; reflexivity.
    + rewrite runCallback_store_other; [split; reflexivity |].
      simpl. intro K. injection K as K. contradiction.
Qed.

Lemma yieldsBy_gone (r : ref) (deadline now : R) (cb : Callback) (a : App) :
  yieldsBy r deadline cb -> deadline <= now -> writesTo cb = Some r ->
  rafQueue (runCallback now cb a) = rafQueue a.
Proof.
  intros H Hlate Hw.
  destruct cb as [| sp tp st tl t0 | character start target t0 onComplete
                  | segment start target t0]; simpl in Hw; try discriminate Hw.
  - injection Hw as Hw. simpl in H. contradiction.
  - injection Hw as Hw. destruct (H Hw) as (_ & _ & Ht).
    assert (P : progressAt t0 1000 now = 1) by (apply progressAt_done; lra).
    assert (L : Rltb 1 1 = false) by (apply Rltb_false; lra).
    simpl. rewrite P, L. reflexivity.
Qed.

Lemma writesTo_dec (cb : Callback) (r : ref) :
  {writesTo cb = Some r} + {writesTo cb <> Some r}.
Proof.
  destruct (writesTo cb) as [k |]; [| right; discriminate].
  destruct (Nat.eq_dec k r) as [-> | Hne]; [left; reflexivity |].
  right. intro K. injection K as K. contradiction.
Qed.

Lemma lastWriter_nil (r : ref) (cb : Callback) : ~ lastWriter r cb [].
Proof.
  intros (before & after & H & _). destruct before; discriminate H.
Qed.

Lemma lastWriter_snoc (r : ref) (cb cb' : Callback) (q : list Callback) :
  writesTo cb' <> Some r -> lastWriter r cb q -> lastWriter r cb (q ++ [cb']).
Proof.
  intros Hw (before & after & -> & Hafter).
  exists before, (after ++ [cb']). split.
  - rewrite <- app_assoc. reflexivity.
  - intros c Hin. apply in_app_or in Hin. destruct Hin as [Hin | [<- | []]].
    + apply Hafter, Hin.
    + exact Hw.
Qed.

Section SegmentRace.

Variables (r : ref) (start : Vector3) (goalz startTime px py : R).

Abbreviation cbLast :=
  (BridgeSegmentAnimate r start (Target.mk None None (Some goalz)) startTime).

Lemma runCallback_racingMidFrame (now : R) (cb : Callback) (l : list Callback)
  (a : App) :
  racingMidFrame r start goalz startTime px py now (cb :: l) a ->
  racingMidFrame r start goalz startTime px py now l (runCallback now cb a).
Proof.
  intros (Hl & Hq & Hx & Hy & Hlate & Hcase).
  apply Forall_cons_iff in Hl. destruct Hl as [Hcb Hl'].
  destruct (yieldsBy_keeps_xy r (startTime + 1000) now cb a Hcb) as [Kx Ky].
  unfold racingMidFrame.
  split; [exact Hl' |].
  split.
  { destruct (runCallback_rafQueue_cases now cb a) as [-> | ->].
    - apply Forall_app. split; [exact Hq | constructor; [exact Hcb | constructor]].
    - exact Hq. }
  split; [rewrite Kx; exact Hx |].
  split; [rewrite Ky; exact Hy |].
  split.
  { intros Hnow c Hin.
    destruct (writesTo_dec cb r) as [Hw | Hw].
    - rewrite (yieldsBy_gone r (startTime + 1000) now cb a Hcb Hnow Hw) in Hin.
      apply (Hlate Hnow c Hin).
    - destruct (runCallback_rafQueue_cases now cb a) as [E | E];
        rewrite E in Hin.
      + apply in_app_or in Hin. destruct Hin as [Hin | [<- | []]].
        * apply (Hlate Hnow c Hin).
        * exact Hw.
      + apply (Hlate Hnow c Hin). }
  destruct Hcase as [(before & after & E & Hafter) | (Hnone & Hearly & Hdone)].
  - destruct before as [| b before]; simpl in E; injection E as -> ->.
    + right. split; [exact Hafter |]. split.
      * intro Hnow.
        assert (P : progressAt startTime 1000 now < 1)
          by (apply progressAt_early; lra).
        apply Rltb_true in P. simpl. rewrite P. simpl.
        exists (rafQueue a), []. split; [reflexivity | intros c []].
      * intro Hnow.
        assert (P : progressAt startTime 1000 now = 1)
          by (apply progressAt_done; lra).
        assert (L : Rltb 1 1 = false) by (apply Rltb_false; lra).
        simpl. rewrite P, L, easeProgress_1. simpl. rewrite write_same.
        simpl. lra.
    + left. exists before, after. split; [reflexivity | exact Hafter].
  - assert (Hw : writesTo cb <> Some r) by (apply Hnone; left; reflexivity).
    right. split; [intros c Hin; apply Hnone; right; exact Hin |]. split.
    + intro Hnow. specialize (Hearly Hnow).
      destruct (runCallback_rafQueue_cases now cb a) as [-> | ->].
      * apply lastWriter_snoc; assumption.
      * exact Hearly.
    + intro Hnow. rewrite runCallback_store_other by exact Hw. apply Hdone, Hnow.
Qed.

(** A frame before the deadline leaves the race as it is; one at or after it
    leaves the segment at rest at z = [goalz]. *)
Lemma frame_racing (now : R) (w : App) :
  racing r start goalz startTime px py w ->
  (now < startTime + 1000 -> racing r start goalz startTime px py (frame now w)) /\
  (startTime + 1000 <= now -> settled r (mkVector3 px py goalz) (frame now w)).
Proof.
  intros (Hlast & Hall & Hx & Hy).
  assert (H : racingMidFrame r start goalz startTime px py now []
                (frame now w)).
  { unfold frame.
    apply (fold_runCallback_ind now
             (racingMidFrame r start goalz startTime px py now)).
    - intros cb l a. apply runCallback_racingMidFrame.
    - unfold racingMidFrame. simpl.
      split; [exact Hall |]. split; [constructor |].
      split; [exact Hx |]. split; [exact Hy |].
      split; [intros _ c [] |]. left. exact Hlast. }
  destruct H as (_ & Hq & Kx & Ky & Hlate & [Hbad | (_ & Hearly & Hdone)]).
  - exfalso. exact (lastWriter_nil _ _ Hbad).
  - split.
    + intro Hnow. repeat split; try assumption. apply Hearly, Hnow.
    + intro Hnow. split; [apply Hlate, Hnow |].
      specialize (Hdone Hnow). destruct (store (frame now w) r) as [vx vy vz].
      simpl in *. subst. reflexivity.
Qed.

Lemma frames_racing (times : list R) (w : App) :
  racing r start goalz startTime px py w ->
  (exists t, In t times /\ startTime + 1000 <= t) ->
  settled r (mkVector3 px py goalz) (frames times w).
Proof.
  revert w. induction times as [| now times IH]; intros w H [t [Hin Ht]].
  - destruct Hin.
  - simpl. destruct (frame_racing now w H) as [Hearly Hdone].
    destruct (Rlt_dec now (startTime + 1000)) as [Hnow | Hnow].
    + apply IH; [apply Hearly, Hnow |].
      destruct Hin as [<- | Hin]; [lra |]. exists t. split; assumption.
    + apply frames_settled, Hdone. lra.
Qed.

End SegmentRace.

Lemma segmentClosure_later (clock clock' : R) (cb : Callback) :
  clock <= clock' -> segmentClosure clock cb -> segmentClosure clock' cb.
Proof.
  intro Hle. destruct cb; simpl; try tauto.
  intros (Hx & Hy & Ht). repeat split; try assumption. lra.
Qed.

Lemma triggerReunion_rafQueue_Forall (P : Callback -> Prop) (now : R) (a : App) :
  (forall c st target onComplete, P (CharacterAnimate c st target now onComplete)) ->
  Forall P (rafQueue a) -> Forall P (rafQueue (triggerReunion now a)).
Proof.
  intros Hchar H. unfold triggerReunion.
  destruct (mother (sceneManager a)) as [m |]; [| exact H].
  destruct (child (sceneManager a)) as [c |]; [| exact H].
  rewrite !animateCharacter_started. simpl.
  repeat (apply Forall_app; split); try exact H;
    (constructor; [apply Hchar | constructor]).
Qed.

(** What a trigger adds to the queue: segment tweens along z and character
    tweens, all started at the clock reading of the trigger. *)
Lemma triggerBridgeMechanism_rafQueue_Forall (P : Callback -> Prop) (now : R)
  (w : App) :
  (forall s st goal,
     P (BridgeSegmentAnimate s st (Target.mk None None (Some goal)) now)) ->
  (forall c st target onComplete, P (CharacterAnimate c st target now onComplete)) ->
  Forall P (rafQueue w) -> Forall P (rafQueue (triggerBridgeMechanism now w)).
Proof.
  intros Hseg Hchar H.
  unfold triggerBridgeMechanism. case_if; [| exact H].
  unfold triggerBridgeMovement.
  destruct (bridge (sceneManager w)) as [b |]; [| exact H].
  destruct (isAligned b); [| exact H].
  apply triggerReunion_rafQueue_Forall; [exact Hchar |].
  rewrite !animateBridgeSegment_started. simpl.
  repeat (apply Forall_app; split); try exact H;
    (constructor; [apply Hseg | constructor]).
Qed.

Lemma handle_segmentClosure (clock clock' : R) (e : Event) (w : App) :
  clock <= clock' ->
  (forall now, eventTime e = Some now -> now = clock') ->
  Forall (segmentClosure clock) (rafQueue w) ->
  Forall (segmentClosure clock') (rafQueue (handle e w)).
Proof.
  intros Hle Htime H.
  assert (H' : Forall (segmentClosure clock') (rafQueue w)).
  { apply (Forall_impl _ (fun cb => segmentClosure_later clock clock' cb Hle)), H. }
  clear H.
  destruct e as [[| | |] now | now | type | moved].
  - apply setPresetView_rafQueue_Forall; [intros; exact I | exact H'].
  - apply setPresetView_rafQueue_Forall; [intros; exact I | exact H'].
  - change (handle (Click BtnEmotionalView now) w)
      with (switchToEmotionalView now w).
    unfold switchToEmotionalView. cbn [rafQueue setSceneManager].
    apply setPresetView_rafQueue_Forall; [intros; exact I | exact H'].
  - rewrite <- (Htime now eq_refl).
    rewrite <- (Htime now eq_refl) in H'.
    apply triggerBridgeMechanism_rafQueue_Forall.
    + intros s st goal. simpl. repeat split. lra.
    + intros. exact I.
    + exact H'.
  - apply frame_rafQueue_Forall, H'.
  - change (handle (ModelReady type) w) with (deliverModel type w).
    rewrite deliverModel_rafQueue. exact H'.
  - exact H'.
Qed.

Lemma reachableAt_segmentClosure (clock : R) (w : App) :
  reachableAt clock w -> Forall (segmentClosure clock) (rafQueue w).
Proof.
  induction 1 as [now gltfLoader | clock now e w _ IH He Hle | clock e w _ IH He].
  - unfold newApp.
    assert (H0 : Forall (segmentClosure now)
                   (rafQueue (loadModels gltfLoader
                                (setPresetView "mother" now constructed)))).
    { destruct gltfLoader; unfold loadModels, createPlaceholderModels;
        rewrite ?deliverModel_rafQueue;
        (apply setPresetView_rafQueue_Forall; [intros; exact I | constructor]). }
    match goal with
    | |- context [runCallback now ?cb ?a] =>
        destruct (runCallback_rafQueue_cases now cb a) as [-> | ->]
    end.
    + apply Forall_app. split; [exact H0 | constructor; [exact I | constructor]].
    + exact H0.
  - apply (handle_segmentClosure clock now); [exact Hle | | exact IH].
    intros now' K. rewrite He in K. injection K as <-. reflexivity.
  - apply (handle_segmentClosure clock clock); [lra | | exact IH].
    intros now' K. rewrite He in K. discriminate K.
Qed.

(** In a reachable state every pending closure gives way on a segment by a
    second after the clock reading. *)
Lemma pending_yieldsBy (clock now : R) (next : ref) (mo ch : option ref)
  (r : ref) (cb : Callback) :
  clock <= now -> (r < 2)%nat ->
  reunionClosure clock next mo ch cb -> segmentClosure clock cb ->
  yieldsBy r (now + 1000) cb.
Proof.
  intros Hle Hr. destruct cb; simpl; try tauto.
  - intros (Hc & _) _. lia.
  - intros _ (Hx & Hy & Ht) _. repeat split; try assumption. lra.
Qed.

Lemma racing_character_started (r : ref) (start : Vector3)
  (goalz startTime px py : R) (c : ref) (st v : Vector3) (target : Target.t)
  (t0 : R) (onComplete : option string) (a : App) :
  c <> r ->
  racing r start goalz startTime px py a ->
  racing r start goalz startTime px py
    (requestAnimationFrame (CharacterAnimate c st target t0 onComplete)
       (setStore (write (store a) c v) a)).
Proof.
  intros Hne (Hlast & Hall & Hx & Hy). unfold racing. simpl.
  split; [| split; [| split]].
  - apply lastWriter_snoc; [| exact Hlast].
    simpl. intro K. injection K as K. contradiction.
  - apply Forall_app. split; [exact Hall | constructor; [exact Hne | constructor]].
  - rewrite write_other by (intro K; apply Hne; symmetry; exact K). exact Hx.
  - rewrite write_other by (intro K; apply Hne; symmetry; exact K). exact Hy.
Qed.

Lemma triggerReunion_racing (r : ref) (start : Vector3)
  (goalz startTime px py now : R) (a : App) :
  mother (sceneManager a) <> Some r -> child (sceneManager a) <> Some r ->
  racing r start goalz startTime px py a ->
  racing r start goalz startTime px py (triggerReunion now a).
Proof.
  intros Hm Hc H. unfold triggerReunion.
  destruct (mother (sceneManager a)) as [m |] eqn:Em; [| exact H].
  destruct (child (sceneManager a)) as [c |] eqn:Ec; [| exact H].
  rewrite !animateCharacter_started.
  apply racing_character_started; [intro K; apply Hc; rewrite K; reflexivity |].
  apply racing_character_started; [intro K; apply Hm; rewrite K; reflexivity |].
  exact H.
Qed.

(** A trigger in a reachable state with the flag set puts its own two tweens
    last on the segments, whatever is pending on them already. *)
Lemma triggerBridgeMovement_racing (clock now : R) (w : App) :
  wellFormed clock w -> Forall (segmentClosure clock) (rafQueue w) ->
  clock <= now ->
  bridgeIsAligned (sceneManager w) = true ->
  forall s, (s < 2)%nat ->
    racing s (store w s) (z (store w s) + 0.3) now (x (store w s)) (y (store w s))
      (triggerBridgeMovement now w) /\
    z (store (triggerBridgeMovement now w) s) = z (store w s).
Proof.
  intros Hwf Hseg Hle Hflag s Hs.
  pose proof Hwf as ([flag Hb] & _ & Hm & Hc & _ & Hall).
  unfold bridgeIsAligned in Hflag. rewrite Hb in Hflag. simpl in Hflag. subst flag.
  assert (Hy : Forall (yieldsBy s (now + 1000)) (rafQueue w)).
  { rewrite Forall_forall in Hall, Hseg |- *. intros cb Hin.
    apply (pending_yieldsBy clock now _ _ _ s cb Hle Hs (Hall cb Hin) (Hseg cb Hin)). }
  assert (Hms : mother (sceneManager w) <> Some s)
    by (intro K; specialize (Hm s K); lia).
  assert (Hcs : child (sceneManager w) <> Some s)
    by (intro K; specialize (Hc s K); lia).
  unfold triggerBridgeMovement. rewrite Hb. cbn [isAligned bridge_left bridge_right].
  assert (Hstore : forall a, store (triggerReunion now a) s = store a s \/
                             mother (sceneManager a) = Some s \/
                             child (sceneManager a) = Some s).
  { intro a. unfold triggerReunion.
    destruct (mother (sceneManager a)) as [m |] eqn:Em; [| left; reflexivity].
    destruct (child (sceneManager a)) as [c |] eqn:Ec; [| left; reflexivity].
    destruct (Nat.eq_dec m s) as [-> | Hne1]; [right; left; reflexivity |].
    destruct (Nat.eq_dec c s) as [-> | Hne2]; [right; right; reflexivity |].
    left. rewrite !animateCharacter_started. simpl.
    rewrite !write_other by (intro K; symmetry in K; contradiction). reflexivity. }
  split.
  - apply triggerReunion_racing;
      [rewrite !animateBridgeSegment_started; exact Hms
      | rewrite !animateBridgeSegment_started; exact Hcs |].
    rewrite !animateBridgeSegment_started.
    assert (Hcase : s = 0%nat \/ s = 1%nat) by lia.
    unfold racing. simpl.
    destruct Hcase as [-> | ->].
    + split; [| split; [| split]].
      * exists (rafQueue w). eexists.
        split; [rewrite <- app_assoc; reflexivity |].
        intros cb [<- | []]. simpl. discriminate.
      * repeat (apply Forall_app; split); try exact Hy;
          (constructor; [| constructor]); simpl.
        -- intros _. repeat split. lra.
        -- intro K. discriminate K.
      * reflexivity.
      * reflexivity.
    + split; [| split; [| split]].
      * eexists. exists []. split; [reflexivity | intros cb []].
      * repeat (apply Forall_app; split); try exact Hy;
          (constructor; [| constructor]); simpl.
        -- intro K. discriminate K.
        -- intros _. repeat split. lra.
      * reflexivity.
      * reflexivity.
  - destruct (Hstore (animateBridgeSegment 1%nat
                        (Target.mk None None (Some (z (store w 1%nat) + 0.3))) now
                        (animateBridgeSegment 0%nat
                           (Target.mk None None (Some (z (store w 0%nat) + 0.3)))
                           now w))) as [-> | K].
    + rewrite !animateBridgeSegment_started.
      assert (Hcase : s = 0%nat \/ s = 1%nat) by lia.
      destruct Hcase as [-> | ->]; simpl; rewrite ?write_other by lia; lra.
    + rewrite !animateBridgeSegment_started in K. simpl in K.
      destruct K as [K | K]; contradiction.
Qed.

(** X13. The last trigger decides where the segments stop.  In a reachable
    state with the bridge's flag set, a trigger followed by display frames of
    which one samples the clock 1000 ms or more after it leaves each segment
    0.3 along z from where it was when the trigger came, and where it was
    along x and y, with nothing pending on it: also when tweens of earlier
    triggers were still moving the segment.  Such a segment ends 0.3 from
    the point at which the later trigger caught it, not 0.3 further than the
    earlier trigger was taking it. *)
Theorem last_trigger_decides_where_segments_stop :
  forall (clock now : R) (times : list R) (w : App),
    reachableAt clock w -> clock <= now ->
    bridgeIsAligned (sceneManager w) = true ->
    (exists t, In t times /\ now + 1000 <= t) ->
    let w' := frames times (triggerBridgeMechanism now w) in
    forall s, (s < 2)%nat ->
      store w' s = mkVector3 (x (store w s)) (y (store w s)) (z (store w s) + 0.3) /\
      (forall cb, In cb (rafQueue w') -> writesTo cb <> Some s).
Proof.
  intros clock now times w Hreach Hle Hflag Hlate w' s Hs.
  pose proof (reachableAt_wellFormed clock w Hreach) as Hwf.
  pose proof (reachableAt_segmentClosure clock w Hreach) as Hseg.
  destruct (triggerBridgeMovement_racing clock now w Hwf Hseg Hle Hflag s Hs)
    as [Hrace _].
  assert (E : triggerBridgeMechanism now w = triggerBridgeMovement now w).
  { unfold triggerBridgeMechanism. rewrite Hflag, orb_true_r. reflexivity. }
  unfold w'. rewrite E.
  destruct (frames_racing s _ _ now _ _ times _ Hrace Hlate) as [Hquiet Hat].
  split; [exact Hat | exact Hquiet].
Qed.

Lemma last_trigger_decides_where_segments_stop_witness :
  let w := frame 400 (triggerBridgeMechanism 0 alignedAtStart) in
  z (store (frames [900; 1400] (triggerBridgeMechanism 400 w)) 0%nat)
  = z (store w 0%nat) + 0.3.
Proof.
  intro w.
  assert (Hreach : reachableAt 400 w).
  { apply (reachableAt_timed 0 400 (AnimationFrame 400)); [| reflexivity | lra].
    apply (reachableAt_timed 0 0 (Click BtnTriggerBridge 0)); [| reflexivity | lra].
    apply (reachableAt_timed 0 0 (Click BtnEmotionalView 0)); [| reflexivity | lra].
    apply reachableAt_new. }
  assert (Hflag : bridgeIsAligned (sceneManager w) = true).
  { unfold w. rewrite frame_sceneManager, triggerBridgeMechanism_sceneManager.
    destruct alignedAtStart_state as (Hsm & _). unfold bridgeIsAligned.
    rewrite Hsm. reflexivity. }
  assert (Hlate : exists t, In t [900; 1400] /\ 400 + 1000 <= t).
  { exists 1400. split; [right; left; reflexivity | lra]. }
  destruct (last_trigger_decides_where_segments_stop 400 400 [900; 1400] w
              Hreach (Rle_refl 400) Hflag Hlate 0%nat) as [Hat _]; [lia |].
  rewrite Hat. reflexivity.
Defined.


(** ** The lights *)

Lemma findIndex_first (p : Lighting.Light -> bool) (array : list Lighting.Light)
  (i : nat) :
  Lighting.findIndex p array = Some i ->
  (exists light, nth_error array i = Some light /\ p light = true) /\
  (forall j light, (j < i)%nat -> nth_error array j = Some light ->
                   p light = false).
Proof.
  revert i. induction array as [| l rest IH]; intros i H; simpl in H.
  - discriminate H.
  - destruct (p l) eqn:Hp.
    + injection H as <-. split.
      * exists l. split; [reflexivity | exact Hp].
      * intros j light Hj. lia.
    + destruct (Lighting.findIndex p rest) as [k |] eqn:Hk; [| discriminate H].
      injection H as <-. destruct (IH k eq_refl) as [Hat Hbefore]. split.
      * exact Hat.
      * intros [| j] light Hj Hnth; simpl in Hnth.
        -- injection Hnth as <-. exact Hp.
        -- apply (Hbefore j); [lia | exact Hnth].
Qed.

Lemma assignIntensity_length (i : nat) (intensity : R)
  (array : list Lighting.Light) :
  List.length (Lighting.assignIntensity i intensity array) = List.length array.
Proof.
  revert i. induction array as [| l rest IH]; intros [| i]; simpl;
    try rewrite IH; reflexivity.
Qed.

Lemma assignIntensity_other (i j : nat) (intensity : R)
  (array : list Lighting.Light) :
  j <> i ->
  nth_error (Lighting.assignIntensity i intensity array) j = nth_error array j.
Proof.
  revert i j. induction array as [| l rest IH]; intros [| i] [| j] H; simpl;
    try reflexivity; try contradiction.
  apply IH. lia.
Qed.

Lemma assignIntensity_same (i : nat) (intensity : R)
  (array : list Lighting.Light) (light : Lighting.Light) :
  nth_error array i = Some light ->
  exists light',
    nth_error (Lighting.assignIntensity i intensity array) i = Some light' /\
    Lighting.intensity light' = intensity /\
    Lighting.sameButIntensity light' light.
Proof.
  revert i. induction array as [| l rest IH]; intros [| i] H; simpl in *;
    try discriminate H.
  - injection H as <-. eexists. split; [reflexivity |].
    split; [reflexivity |]. repeat split.
  - apply IH, H.
Qed.

Lemma findIndex_assignIntensity (c : Z) (i : nat) (intensity : R)
  (array : list Lighting.Light) :
  Lighting.findIndex (fun light => Z.eqb (Lighting.color light) c)
    (Lighting.assignIntensity i intensity array)
  = Lighting.findIndex (fun light => Z.eqb (Lighting.color light) c) array.
Proof.
  revert i. induction array as [| l rest IH]; intros [| i]; simpl;
    try reflexivity.
  rewrite IH. reflexivity.
Qed.

Lemma findIndex_app (p : Lighting.Light -> bool) (array more : list Lighting.Light)
  (i : nat) :
  Lighting.findIndex p array = Some i ->
  Lighting.findIndex p (array ++ more) = Some i.
Proof.
  revert i. induction array as [| l rest IH]; intros i H; simpl in *.
  - discriminate H.
  - destruct (p l); [exact H |].
    destruct (Lighting.findIndex p rest) as [k |]; [| discriminate H].
    rewrite (IH k eq_refl). exact H.
Qed.

Lemma assignIntensity_twice (i : nat) (a b : R) (array : list Lighting.Light) :
  Lighting.assignIntensity i b (Lighting.assignIntensity i a array)
  = Lighting.assignIntensity i b array.
Proof.
  revert i. induction array as [| l rest IH]; intros [| i]; simpl;
    try reflexivity.
  rewrite IH. reflexivity.
Qed.

Lemma assignIntensity_swap (i j : nat) (a b : R) (array : list Lighting.Light) :
  i <> j ->
  Lighting.assignIntensity i a (Lighting.assignIntensity j b array)
  = Lighting.assignIntensity j b (Lighting.assignIntensity i a array).
Proof.
  revert i j. induction array as [| l rest IH]; intros [| i] [| j] H; simpl;
    try reflexivity; try contradiction.
  rewrite IH by lia. reflexivity.
Qed.

(** What [setLightIntensity] comes to: the intensity is assigned at the place
    of the first light of the colour the type stands for, if there is one. *)
Lemma setLightIntensity_cases (lightType : string) (intensity : R)
  (lm : Lighting.LightingManager) :
  Lighting.setLightIntensity lightType intensity lm = lm \/
  exists c i,
    (lightType = "warm"%string /\ c = 0xffb6c1%Z \/
     lightType = "cool"%string /\ c = 0xadd8e6%Z) /\
    Lighting.findIndex (fun light => Z.eqb (Lighting.color light) c)
      (Lighting.lights lm) = Some i /\
    Lighting.setLightIntensity lightType intensity lm
    = Lighting.mkLightingManager
        (Lighting.assignIntensity i intensity (Lighting.lights lm)).
Proof.
  unfold Lighting.setLightIntensity.
  destruct (String.eqb_spec lightType "warm") as [-> | Hw].
  - destruct (Lighting.findIndex _ (Lighting.lights lm)) as [i |] eqn:E;
      [| left; reflexivity].
    right. exists 0xffb6c1%Z, i. split; [left; split; reflexivity |].
    split; [exact E | reflexivity].
  - destruct (String.eqb_spec lightType "cool") as [-> | Hc]; [| left; reflexivity].
    destruct (Lighting.findIndex _ (Lighting.lights lm)) as [i |] eqn:E;
      [| left; reflexivity].
    right. exists 0xadd8e6%Z, i. split; [right; split; reflexivity |].
    split; [exact E | reflexivity].
Qed.

Lemma sameButIntensity_refl (light : Lighting.Light) :
  Lighting.sameButIntensity light light.
Proof. repeat split. Qed.

(** X14. [setLightIntensity] changes one number at most: the array keeps its
    length, every light keeps its kind, colour, position and shadow settings,
    and a light whose intensity is not what it was is the first one of the
    colour that the type names ('warm' 0xffb6c1, 'cool' 0xadd8e6) and has
    the intensity asked for.  With any other type, or with no light of the
    colour, nothing changes at all. *)
Theorem setLightIntensity_changes_one_intensity_at_most :
  forall (lightType : string) (intensity : R) (lm : Lighting.LightingManager),
    let lm' := Lighting.setLightIntensity lightType intensity lm in
    List.length (Lighting.lights lm') = List.length (Lighting.lights lm) /\
    (forall j light,
       nth_error (Lighting.lights lm) j = Some light ->
       exists light',
         nth_error (Lighting.lights lm') j = Some light' /\
         Lighting.sameButIntensity light' light /\
         (light' = light \/
          Lighting.intensity light' = intensity /\
          (lightType = "warm"%string /\ Lighting.color light = 0xffb6c1%Z \/
           lightType = "cool"%string /\ Lighting.color light = 0xadd8e6%Z) /\
          (forall k other, (k < j)%nat ->
             nth_error (Lighting.lights lm) k = Some other ->
             Lighting.color other <> Lighting.color light))) /\
    (lightType <> "warm"%string -> lightType <> "cool"%string -> lm' = lm) /\
    ((forall light, In light (Lighting.lights lm) ->
        Lighting.color light <> 0xffb6c1%Z /\ Lighting.color light <> 0xadd8e6%Z) ->
     lm' = lm).
Proof.
  intros lightType intensity lm lm'.
  destruct (setLightIntensity_cases lightType intensity lm)
    as [E | (c & i & Hc & Hfind & E)]; fold lm' in E; rewrite E.
  - split; [reflexivity |]. split; [| split; reflexivity].
    intros j light Hnth. exists light.
    split; [exact Hnth |]. split; [apply sameButIntensity_refl | left; reflexivity].
  - destruct (findIndex_first _ _ _ Hfind) as [[found [Hat Hcol]] Hbefore].
    apply Z.eqb_eq in Hcol.
    split; [apply assignIntensity_length |]. split; [| split].
    + intros j light Hnth. simpl.
      destruct (Nat.eq_dec j i) as [-> | Hne].
      * destruct (assignIntensity_same i intensity _ _ Hnth)
          as (light' & Hnth' & Hint & Hsame).
        exists light'. split; [exact Hnth' |]. split; [exact Hsame |].
        right. split; [exact Hint |].
        assert (light = found) by congruence. subst light.
        split; [rewrite Hcol; tauto |].
        intros k other Hk Hother Heq.
        pose proof (Hbefore k other Hk Hother) as K.
        apply Z.eqb_neq in K. apply K. rewrite Heq. exact Hcol.
      * exists light. rewrite assignIntensity_other by exact Hne.
        split; [exact Hnth |].
        split; [apply sameButIntensity_refl | left; reflexivity].
    + intros Hw Hcl. exfalso.
      destruct Hc as [[K _] | [K _]]; contradiction.
    + intro Hnone. exfalso.
      assert (Hin : In found (Lighting.lights lm))
        by (apply (nth_error_In _ i); exact Hat).
      destruct (Hnone found Hin) as [K1 K2].
      destruct Hc as [[_ K] | [_ K]]; subst c; contradiction.
Qed.

(** The first light of the warm colour is at place 1 and the first of the
    cool colour at place 2. *)
Lemma calls_keep_first_lights (cs : list Lighting.Call)
  (lm : Lighting.LightingManager) :
  Lighting.findIndex (fun light => Z.eqb (Lighting.color light) 0xffb6c1%Z)
    (Lighting.lights lm) = Some 1%nat ->
  Lighting.findIndex (fun light => Z.eqb (Lighting.color light) 0xadd8e6%Z)
    (Lighting.lights lm) = Some 2%nat ->
  Lighting.findIndex (fun light => Z.eqb (Lighting.color light) 0xffb6c1%Z)
    (Lighting.lights (Lighting.calls cs lm)) = Some 1%nat /\
  Lighting.findIndex (fun light => Z.eqb (Lighting.color light) 0xadd8e6%Z)
    (Lighting.lights (Lighting.calls cs lm)) = Some 2%nat /\
  (forall j, j <> 1%nat -> j <> 2%nat -> (j < List.length (Lighting.lights lm))%nat ->
     nth_error (Lighting.lights (Lighting.calls cs lm)) j
     = nth_error (Lighting.lights lm) j).
Proof.
  revert lm. induction cs as [| c cs IH]; intros lm Hw Hc.
  - split; [exact Hw |]. split; [exact Hc | reflexivity].
  - change (Lighting.calls (c :: cs) lm)
      with (Lighting.calls cs (Lighting.call c lm)).
    assert (Hstep :
      Lighting.findIndex (fun light => Z.eqb (Lighting.color light) 0xffb6c1%Z)
        (Lighting.lights (Lighting.call c lm)) = Some 1%nat /\
      Lighting.findIndex (fun light => Z.eqb (Lighting.color light) 0xadd8e6%Z)
        (Lighting.lights (Lighting.call c lm)) = Some 2%nat /\
      (List.length (Lighting.lights lm)
         <= List.length (Lighting.lights (Lighting.call c lm)))%nat /\
      (forall j, j <> 1%nat -> j <> 2%nat ->
         (j < List.length (Lighting.lights lm))%nat ->
         nth_error (Lighting.lights (Lighting.call c lm)) j
         = nth_error (Lighting.lights lm) j)).
    { destruct c as [lightType intensity | position color intensity distance].
      - change (Lighting.call (Lighting.CallSetLightIntensity lightType intensity) lm)
          with (Lighting.setLightIntensity lightType intensity lm).
        destruct (setLightIntensity_cases lightType intensity lm)
          as [-> | (k & i & Hk & Hfind & ->)].
        + split; [exact Hw |]. split; [exact Hc |]. split; [lia | reflexivity].
        + simpl. rewrite !findIndex_assignIntensity, assignIntensity_length.
          split; [exact Hw |]. split; [exact Hc |]. split; [lia |].
          intros j H1 H2 _. apply assignIntensity_other.
          destruct Hk as [[_ ->] | [_ ->]]; congruence.
      - simpl. split; [apply findIndex_app, Hw |].
        split; [apply findIndex_app, Hc |].
        split; [rewrite length_app; lia |].
        intros j _ _ Hj. apply nth_error_app1, Hj. }
    destruct Hstep as (Hw' & Hc' & Hlen & Hsame).
    destruct (IH _ Hw' Hc') as (Hw'' & Hc'' & Hsame').
    split; [exact Hw'' |]. split; [exact Hc'' |].
    intros j H1 H2 Hj. rewrite Hsame' by (try assumption; lia).
    apply Hsame; assumption.
Qed.

(** X15. Whatever calls to [setLightIntensity] and [addPointLight] have been
    made on a manager since its construction, and whatever calls follow, a
    light that [addPointLight] adds stays as it was added: 'warm' and 'cool'
    go on finding the two point lights that [init] made, also when the added
    light has one of their colours.  The ambient light and the light from
    above, both white, keep their intensities 0.4 and 0.3 as well. *)
Theorem added_lights_are_out_of_reach :
  forall (before after : list Lighting.Call) (position : Vector3) (color : Z)
         (intensity distance : option R),
    let lm := Lighting.calls before Lighting.constructor in
    let added := Lighting.addPointLight position color intensity distance lm in
    let lm' := Lighting.calls after (snd added) in
    nth_error (Lighting.lights lm') (List.length (Lighting.lights lm))
      = Some (fst added) /\
    nth_error (Lighting.lights lm') 0%nat
      = nth_error (Lighting.lights Lighting.constructor) 0%nat /\
    nth_error (Lighting.lights lm') 3%nat
      = nth_error (Lighting.lights Lighting.constructor) 3%nat.
Proof.
  intros before after position color intensity distance lm added lm'.
  assert (H0w : Lighting.findIndex
                  (fun light => Z.eqb (Lighting.color light) 0xffb6c1%Z)
                  (Lighting.lights Lighting.constructor) = Some 1%nat)
    by reflexivity.
  assert (H0c : Lighting.findIndex
                  (fun light => Z.eqb (Lighting.color light) 0xadd8e6%Z)
                  (Lighting.lights Lighting.constructor) = Some 2%nat)
    by reflexivity.
  destruct (calls_keep_first_lights before _ H0w H0c) as (Hw & Hc & Hsame).
  fold lm in Hw, Hc, Hsame.
  assert (Hlen : (4 <= List.length (Lighting.lights lm))%nat).
  { assert (K : nth_error (Lighting.lights lm) 3%nat <> None).
    { rewrite Hsame; [discriminate | lia | lia | simpl; lia]. }
    apply nth_error_Some in K. lia. }
  assert (Hw1 : Lighting.findIndex
                  (fun light => Z.eqb (Lighting.color light) 0xffb6c1%Z)
                  (Lighting.lights (snd added)) = Some 1%nat)
    by (apply findIndex_app, Hw).
  assert (Hc1 : Lighting.findIndex
                  (fun light => Z.eqb (Lighting.color light) 0xadd8e6%Z)
                  (Lighting.lights (snd added)) = Some 2%nat)
    by (apply findIndex_app, Hc).
  destruct (calls_keep_first_lights after _ Hw1 Hc1) as (_ & _ & Hsame1).
  fold lm' in Hsame1.
  assert (Hlen1 : List.length (Lighting.lights (snd added))
                  = S (List.length (Lighting.lights lm))).
  { simpl. rewrite length_app. simpl. lia. }
  assert (Hadded : Lighting.lights (snd added) = Lighting.lights lm ++ [fst added])
    by reflexivity.
  split; [| split].
  - rewrite Hsame1 by lia. rewrite Hadded.
    rewrite nth_error_app2 by lia. rewrite Nat.sub_diag. reflexivity.
  - rewrite Hsame1 by lia. rewrite Hadded. rewrite nth_error_app1 by lia.
    apply Hsame; simpl; lia.
  - rewrite Hsame1 by lia. rewrite Hadded. rewrite nth_error_app1 by lia.
    apply Hsame; simpl; lia.
Qed.

(** X16. Calls to [setLightIntensity] compose as assignments to two separate
    numbers: of two calls with the same type the later one decides, whatever
    the type and the lights, and a call for 'warm' and a call for 'cool' can
    be made in either order. *)
Theorem setLightIntensity_later_call_decides :
  forall (lightType : string) (a b warm cool : R) (lm : Lighting.LightingManager),
    Lighting.setLightIntensity lightType b
      (Lighting.setLightIntensity lightType a lm)
    = Lighting.setLightIntensity lightType b lm /\
    Lighting.setLightIntensity "warm" warm
      (Lighting.setLightIntensity "cool" cool lm)
    = Lighting.setLightIntensity "cool" cool
        (Lighting.setLightIntensity "warm" warm lm).
Proof.
  intros lightType a b warm cool lm. split.
  - unfold Lighting.setLightIntensity.
    destruct (String.eqb lightType "warm").
    + destruct (Lighting.findIndex _ (Lighting.lights lm)) as [i |] eqn:E.
      * simpl. rewrite findIndex_assignIntensity, E, assignIntensity_twice.
        reflexivity.
      * rewrite E. reflexivity.
    + destruct (String.eqb lightType "cool"); [| reflexivity].
      destruct (Lighting.findIndex _ (Lighting.lights lm)) as [i |] eqn:E.
      * simpl. rewrite findIndex_assignIntensity, E, assignIntensity_twice.
        reflexivity.
      * rewrite E. reflexivity.
  - unfold Lighting.setLightIntensity. simpl.
    destruct (Lighting.findIndex
                (fun light => Z.eqb (Lighting.color light) 0xadd8e6%Z)
                (Lighting.lights lm)) as [j |] eqn:Ec;
      destruct (Lighting.findIndex
                  (fun light => Z.eqb (Lighting.color light) 0xffb6c1%Z)
                  (Lighting.lights lm)) as [i |] eqn:Ew;
      simpl; rewrite ?findIndex_assignIntensity, ?Ec, ?Ew; try reflexivity.
    f_equal. apply assignIntensity_swap.
    destruct (findIndex_first _ _ _ Ew) as [[lw [Hw Kw]] _].
    destruct (findIndex_first _ _ _ Ec) as [[lc [Hc Kc]] _].
    intros ->. rewrite Hw in Hc. injection Hc as <-.
    apply Z.eqb_eq in Kw, Kc. rewrite Kw in Kc. discriminate Kc.
Qed.


(** ** The name an image is saved under *)

Lemma occurrences_app (c : Ascii.ascii) (s s' : string) :
  SaveImage.occurrences c (s ++ s')%string
  = (SaveImage.occurrences c s + SaveImage.occurrences c s')%nat.
Proof.
  induction s as [| c' s IH]; simpl; [reflexivity | rewrite IH; lia].
Qed.

Lemma replaceColonsAndDots_clean (s : string) :
  SaveImage.occurrences ":"%char (SaveImage.replaceColonsAndDots s) = 0%nat /\
  SaveImage.occurrences "."%char (SaveImage.replaceColonsAndDots s) = 0%nat /\
  String.length (SaveImage.replaceColonsAndDots s) = String.length s.
Proof.
  induction s as [| c s (IH1 & IH2 & IH3)]; simpl; [repeat split |].
  rewrite IH1, IH2, IH3.
  destruct (Ascii.eqb c ":"%char) eqn:E1; [repeat split |].
  destruct (Ascii.eqb c "."%char) eqn:E2; [repeat split |].
  rewrite E1, E2. repeat split.
Qed.

Lemma save_namedFor (mime : string) (quality : option R) (extension : string)
  (canvas : SaveImage.Canvas) (dataURL : string) (filename : option string)
  (now : string) (page : SaveImage.Page) :
  SaveImage.occurrences ":"%char extension = 0%nat ->
  SaveImage.occurrences "."%char extension = 0%nat ->
  SaveImage.toDataURL canvas mime quality = Some dataURL ->
  exists name,
    SaveImage.savedAs dataURL name page
      (SaveImage.save mime quality extension
         (Some (SaveImage.mkRenderer (Some canvas))) filename now page) /\
    SaveImage.namedFor extension filename now name.
Proof.
  intros Hec Hed Hurl.
  unfold SaveImage.save, SaveImage.savedAs, SaveImage.namedFor. simpl.
  rewrite Hurl.
  destruct (replaceColonsAndDots_clean now) as (Hc & Hd & _).
  assert (Hgen : SaveImage.occurrences ":"%char
                   (SaveImage.generatedName extension now) = 0%nat /\
                 SaveImage.occurrences "."%char
                   (SaveImage.generatedName extension now) = 1%nat).
  { unfold SaveImage.generatedName. simpl.
    rewrite !occurrences_app, Hc, Hd. simpl. rewrite Hec, Hed.
    split; reflexivity. }
  destruct filename as [given |]; simpl.
  - destruct (String.eqb given EmptyString) eqn:E.
    + eexists. split; [reflexivity |]. split; [discriminate |].
      intros _. split; [reflexivity | exact Hgen].
    + exists given. split; [reflexivity |]. split; [reflexivity | discriminate].
  - eexists. split; [reflexivity |]. split; [discriminate |].
    intros _. split; [reflexivity | exact Hgen].
Qed.

(** X17. The name an image is saved under.  When the canvas gives its data
    URL, [saveCurrentView] and [saveCurrentViewAsJPG] click one link to it,
    log its name and return the name.  Called without a file name, or with
    the empty one, they make the name from the time stamp, and whatever the
    time stamp holds the name has no colon and a single dot, the one before
    [png] or [jpg]; a file name the caller gives is used as it is, colons
    and all.  The JPG function asks for quality 0.9 unless told otherwise. *)
Theorem saved_name_has_no_colon_and_one_dot :
  forall (canvas : SaveImage.Canvas) (filename : option string) (now : string)
         (page : SaveImage.Page),
    (forall dataURL,
       SaveImage.toDataURL canvas "image/png" None = Some dataURL ->
       exists name,
         SaveImage.savedAs dataURL name page
           (SaveImage.saveCurrentView
              (Some (SaveImage.mkRenderer (Some canvas))) filename now page) /\
         SaveImage.namedFor "png" filename now name) /\
    (forall quality dataURL,
       SaveImage.toDataURL canvas "image/jpeg"
         (Some (match quality with Some q => q | None => 0.9 end)) = Some dataURL ->
       exists name,
         SaveImage.savedAs dataURL name page
           (SaveImage.saveCurrentViewAsJPG
              (Some (SaveImage.mkRenderer (Some canvas))) filename quality now
              page) /\
         SaveImage.namedFor "jpg" filename now name).
Proof.
  intros canvas filename now page. split.
  - intros dataURL Hurl. apply save_namedFor; [reflexivity | reflexivity | exact Hurl].
  - intros quality dataURL Hurl.
    apply save_namedFor; [reflexivity | reflexivity | exact Hurl].
Qed.

Lemma saved_name_has_no_colon_and_one_dot_witness :
  exists name,
    SaveImage.savedAs "data:image/png;base64,iVBOR" name (SaveImage.mkPage [] [])
      (SaveImage.saveCurrentView
         (Some (SaveImage.mkRenderer
                  (Some (SaveImage.mkCanvas
                           (fun _ _ => Some "data:image/png;base64,iVBOR"%string)))))
         (Some EmptyString) "2026-11-03T06:24:22.446Z" (SaveImage.mkPage [] [])) /\
    name = "情境折影-2026-11-03T06-24-22-446Z.png"%string.
Proof.
  destruct (proj1 (saved_name_has_no_colon_and_one_dot
                     (SaveImage.mkCanvas
                        (fun _ _ => Some "data:image/png;base64,iVBOR"%string))
                     (Some EmptyString) "2026-11-03T06:24:22.446Z"
                     (SaveImage.mkPage [] []))
                  "data:image/png;base64,iVBOR"%string eq_refl)
    as (name & Hsave & _ & Hname).
  exists name. split; [exact Hsave |].
  destruct (Hname eq_refl) as [-> _]. reflexivity.
Defined.


(** ** The models an ObjectsManager holds *)

Lemma deliver_isModelLoaded (type : string) (r : Objects.Report)
  (om om' : Objects.ObjectsManager) :
  Objects.deliver r om = Some om' ->
  Objects.isModelLoaded type om'
  = Objects.settles type r || Objects.isModelLoaded type om.
Proof.
  destruct r as [t onLoad onError outcome].
  unfold Objects.deliver, Objects.settles, Objects.isModelLoaded,
    Objects.loadModel, Objects.assign.
  simpl. rewrite (String.eqb_sym t type).
  destruct outcome; simpl;
    try (destruct (String.eqb t "__proto__"); [discriminate |]);
    intro H; injection H as <-; simpl;
    destruct (String.eqb type t); simpl; rewrite ?andb_false_r; reflexivity.
Qed.

Lemma deliverAll_isModelLoaded (type : string) (rs : list Objects.Report)
  (om om' : Objects.ObjectsManager) :
  Objects.deliverAll rs om = Some om' ->
  Objects.isModelLoaded type om'
  = existsb (Objects.settles type) rs || Objects.isModelLoaded type om.
Proof.
  revert om. induction rs as [| r rs IH]; intros om H; simpl in H.
  - injection H as <-. reflexivity.
  - destruct (Objects.deliver r om) as [om1 |] eqn:E; [| discriminate H].
    rewrite (IH om1 H), (deliver_isModelLoaded type r om om1 E). simpl.
    destruct (Objects.settles type r), (existsb (Objects.settles type) rs);
      reflexivity.
Qed.

(** The reports go through unless one of them ends a request for
    [__proto__]. *)
Lemma deliverAll_defined (rs : list Objects.Report) (om : Objects.ObjectsManager) :
  (forall r, In r rs -> Objects.settles "__proto__" r = false) ->
  exists om', Objects.deliverAll rs om = Some om'.
Proof.
  revert om. induction rs as [| r rs IH]; intros om H; simpl.
  - exists om. reflexivity.
  - assert (Hr : exists om1, Objects.deliver r om = Some om1).
    { specialize (H r (or_introl eq_refl)).
      destruct r as [t onLoad onError outcome].
      unfold Objects.settles in H. simpl in H.
      unfold Objects.deliver, Objects.loadModel, Objects.assign. simpl.
      destruct outcome; simpl in H; rewrite ?andb_true_r in H; rewrite ?H;
        eexists; reflexivity. }
    destruct Hr as [om1 ->]. apply IH. intros r' Hin. apply H. right. exact Hin.
Qed.

(** X18. What [isModelLoaded] tells.  As long as no request for the name
    [__proto__] has ended (the model says nothing about the manager after
    that), and whatever else the loader has reported since the manager was
    made, [isModelLoaded(type)] is false in one case only: the type is
    'mother' or 'child' and no request for it has ended yet.  So a load
    that failed counts as loaded (the placeholder is stored), a type that is
    loaded stays loaded, progress reports change nothing, and for any other
    type the answer is true from the start, with nothing stored under it:
    [getModel] gives undefined, or for a name every object inherits
    ('constructor', 'toString', ...) what is inherited. *)
Theorem isModelLoaded_false_only_before_first_outcome :
  forall (reports : list Objects.Report) (type : string),
    (forall r, In r reports -> Objects.settles "__proto__" r = false) ->
    exists om,
      Objects.deliverAll reports Objects.constructor = Some om /\
      (Objects.isModelLoaded type om = false <->
       (type = "mother"%string \/ type = "child"%string) /\
       forall r, In r reports -> Objects.settles type r = false) /\
      (type <> "mother"%string -> type <> "child"%string ->
       Objects.isModelLoaded type Objects.constructor = true /\
       Objects.getModel type Objects.constructor
       = if inheritedProperty type then Objects.Inherited else Objects.Undefined).
Proof.
  intros reports type Hplain.
  destruct (deliverAll_defined reports Objects.constructor Hplain) as [om Hom].
  exists om. split; [exact Hom |]. split.
  - rewrite (deliverAll_isModelLoaded type reports _ om Hom).
    assert (H0 : Objects.isModelLoaded type Objects.constructor = false <->
                 type = "mother"%string \/ type = "child"%string).
    { unfold Objects.isModelLoaded, Objects.constructor. simpl.
      destruct (String.eqb_spec type "mother") as [-> | Hm]; [tauto |].
      destruct (String.eqb_spec type "child") as [-> | Hc]; [tauto |].
      destruct (inheritedProperty type);
        (split; [discriminate | intros [K | K]; contradiction]). }
    rewrite orb_false_iff, H0. split.
    + intros [He Ht]. split; [exact Ht |].
      intros r Hin. destruct (Objects.settles type r) eqn:E; [| reflexivity].
      assert (K : existsb (Objects.settles type) reports = true)
        by (apply existsb_exists; exists r; split; assumption).
      rewrite K in He. discriminate He.
    + intros [Ht Hall]. split; [| exact Ht].
      destruct (existsb (Objects.settles type) reports) eqn:E; [| reflexivity].
      apply existsb_exists in E. destruct E as (r & Hin & Hr).
      rewrite (Hall r Hin) in Hr. discriminate Hr.
  - intros Hm Hc.
    unfold Objects.isModelLoaded, Objects.getModel, Objects.constructor. simpl.
    destruct (String.eqb_spec type "mother") as [-> | _]; [contradiction |].
    destruct (String.eqb_spec type "child") as [-> | _]; [contradiction |].
    destruct (inheritedProperty type); split; reflexivity.
Qed.

Lemma isModelLoaded_false_only_before_first_outcome_witness :
  exists om,
    Objects.deliverAll
      [Objects.mkReport "mother" true true (Objects.Progress 10 100);
       Objects.mkReport "mother" true true Objects.Failed]
      Objects.constructor = Some om /\
    Objects.isModelLoaded "mother" om = true /\
    Objects.isModelLoaded "child" om = false.
Proof.
  destruct (isModelLoaded_false_only_before_first_outcome
              [Objects.mkReport "mother" true true (Objects.Progress 10 100);
               Objects.mkReport "mother" true true Objects.Failed] "child")
    as (om & Hom & Hiff & _).
  - intros r [<- | [<- | []]]; reflexivity.
  - exists om. split; [exact Hom |]. split.
    + injection Hom as <-. reflexivity.
    + apply Hiff. split; [right; reflexivity |].
      intros r [<- | [<- | []]]; reflexivity.
Defined.

Lemma Object3D_nested_ind (P : Objects.Object3D -> Prop) :
  (forall geometry material castShadow receiveShadow,
     P (Objects.Mesh geometry material castShadow receiveShadow)) ->
  (forall children, Forall P children -> P (Objects.Group children)) ->
  forall o, P o.
Proof.
  intros Hmesh Hgroup. fix IH 1. intros [geometry material cast receive | children].
  - apply Hmesh.
  - apply Hgroup. induction children as [| child rest IHrest]; constructor.
    + apply IH.
    + exact IHrest.
Qed.

Lemma traverseShadows_spec (o : Objects.Object3D) :
  Objects.shadowed (Objects.traverseShadows o) /\
  Objects.shape (Objects.traverseShadows o) = Objects.shape o.
Proof.
  induction o as [geometry material cast receive | children IH]
    using Object3D_nested_ind.
  - simpl. split; [split; reflexivity |]. destruct material; reflexivity.
  - simpl. split.
    + induction IH as [| child rest [Hchild _] _ IHrest]; simpl.
      * exact I.
      * split; [exact Hchild | exact IHrest].
    + f_equal. rewrite map_map. induction IH as [| child rest [_ Hchild] _ IHrest];
        simpl; [reflexivity |].
      rewrite Hchild, IHrest. reflexivity.
Qed.

(** X19. What a finished request leaves under its type, for any type but
    [__proto__].  After a file has loaded, [getModel(type)] is the file's
    scene with every mesh in it, at any depth, casting and receiving
    shadows, and otherwise the tree that was loaded; [onLoad], if given, has
    been called once more, with that object, and [onError] not.  After a
    failure it is the placeholder for the type, which casts shadows but does
    not receive them, and [onError], if given, has been called once more.
    What the manager answers for another type has not changed. *)
Theorem finished_request_stores_model_or_placeholder :
  forall (type : string) (onLoad onError : bool) (scene : Objects.Object3D)
         (om : Objects.ObjectsManager),
    type <> "__proto__"%string ->
    (exists om' model,
       Objects.loadModel type onLoad onError (Objects.Loaded scene) om = Some om' /\
       Objects.getModel type om' = Objects.Object model /\
       Objects.shadowed model /\ Objects.shape model = Objects.shape scene /\
       Objects.called om'
       = Objects.called om ++ (if onLoad then [Objects.OnLoad model type] else []) /\
       (forall other, other <> type ->
          Objects.getModel other om' = Objects.getModel other om)) /\
    (exists om',
       Objects.loadModel type onLoad onError Objects.Failed om = Some om' /\
       Objects.getModel type om' = Objects.Object (Objects.createPlaceholder type) /\
       (exists geometry material,
          Objects.createPlaceholder type
          = Objects.Mesh geometry material true false) /\
       Objects.called om'
       = Objects.called om ++ (if onError then [Objects.OnError] else []) /\
       (forall other, other <> type ->
          Objects.getModel other om' = Objects.getModel other om)).
Proof.
  intros type onLoad onError scene om Hplain.
  apply String.eqb_neq in Hplain.
  split.
  - eexists. exists (Objects.traverseShadows scene).
    destruct (traverseShadows_spec scene) as [Hsh Hshape].
    unfold Objects.getModel, Objects.loadModel, Objects.assign. rewrite Hplain.
    split; [reflexivity |]. simpl. rewrite String.eqb_refl.
    split; [reflexivity |]. split; [exact Hsh |]. split; [exact Hshape |].
    split; [destruct onLoad; [reflexivity | rewrite app_nil_r; reflexivity] |].
    intros other Hne. apply String.eqb_neq in Hne. rewrite Hne. reflexivity.
  - eexists.
    unfold Objects.getModel, Objects.loadModel, Objects.assign. rewrite Hplain.
    split; [reflexivity |]. simpl. rewrite String.eqb_refl.
    split; [reflexivity |]. split.
    + unfold Objects.createPlaceholder.
      destruct (String.eqb type "mother"); [eexists; eexists; reflexivity |].
      destruct (String.eqb type "child"); eexists; eexists; reflexivity.
    + split; [destruct onError; [reflexivity | rewrite app_nil_r; reflexivity] |].
      intros other Hne. apply String.eqb_neq in Hne. rewrite Hne. reflexivity.
Qed.

Lemma finished_request_stores_model_or_placeholder_witness :
  exists om',
    Objects.loadModel "child" false true Objects.Failed Objects.constructor
    = Some om' /\
    Objects.getModel "child" om'
    = Objects.Object (Objects.createPlaceholder "child").
Proof.
  destruct (proj2 (finished_request_stores_model_or_placeholder
                     "child" false true (Objects.Group []) Objects.constructor
                     ltac:(discriminate)))
    as (om' & Hload & Hget & _).
  exists om'. split; assumption.
Defined.

(** ** How many applications a page starts *)

(** What is still to come bounds what can be constructed. *)
Lemma handle_apps_budget (e : Boot.Event) (p : Boot.Page) :
  (Boot.budget (Boot.handle e p) <= Boot.budget p)%nat /\
  (List.length (Boot.apps p) <= List.length (Boot.apps (Boot.handle e p)))%nat.
Proof.
  destruct p as [w listener timer apps console].
  unfold Boot.budget.
  destruct e as [globals | now | now]; simpl.
  - lia.
  - destruct listener; simpl; [| lia].
    unfold Boot.construct. simpl. destruct (Boot.THREE w); simpl;
      rewrite ?length_app; simpl; lia.
  - destruct timer as [due |]; simpl; [| lia].
    destruct (Rltb now due); simpl; [lia |].
    unfold Boot.construct. simpl. destruct (Boot.THREE w); simpl;
      rewrite ?length_app; simpl; lia.
Qed.

Lemma run_apps_budget (events : list Boot.Event) (p : Boot.Page) :
  (List.length (Boot.apps (Boot.run events p)) <= Boot.budget p)%nat /\
  (List.length (Boot.apps p) <= List.length (Boot.apps (Boot.run events p)))%nat.
Proof.
  revert p. induction events as [| e events IH]; intro p.
  - unfold Boot.budget. simpl. lia.
  - change (Boot.run (e :: events) p) with (Boot.run events (Boot.handle e p)).
    pose proof (handle_apps_budget e p) as H.
    specialize (IH (Boot.handle e p)). lia.
Qed.

(** X20. How many applications a page starts.  If the library is ready when
    the document has loaded, [initApp] constructs the application and
    nothing later constructs another.  If it is not, [initApp] leaves both a
    one-time listener and a two-second timer behind, and each of the two
    constructs an application when it finds the library: a library that
    arrives, with its 'three-loaded' event, before the timer fires gives the
    page two applications, the second made by the timer; never more than
    two. *)
Theorem late_library_starts_two_applications :
  forall (globals : Boot.Window) (now : R) (events : list Boot.Event),
    let p := Boot.initApp now (Boot.loading globals) in
    (Boot.THREE globals && Boot.THREE_LOADED globals = true ->
     Boot.apps (Boot.run events p) = [newApp now (Boot.GLTFLoader globals)]) /\
    (List.length (Boot.apps (Boot.run events p)) <= 2)%nat /\
    (Boot.THREE globals && Boot.THREE_LOADED globals = false ->
     forall arrived later t1 t2,
       Boot.THREE arrived = true -> Boot.THREE later = true ->
       now + 2000 <= t2 ->
       Boot.apps
         (Boot.run (Boot.ScriptRuns arrived :: Boot.ThreeLoaded t1
                    :: Boot.ScriptRuns later :: Boot.TimerFires t2 :: events) p)
       = [newApp t1 (Boot.GLTFLoader arrived); newApp t2 (Boot.GLTFLoader later)]).
Proof.
  intros globals now events p.
  assert (Hlength : forall a b : list App,
            (List.length a <= List.length b)%nat ->
            (List.length b <= List.length a)%nat ->
            (exists c, b = a ++ c) -> b = a).
  { intros a b H1 H2 [c ->]. rewrite length_app in H2.
    destruct c; [apply app_nil_r | simpl in H2; lia]. }
  assert (Hgrow : forall es q, exists c,
            Boot.apps (Boot.run es q) = Boot.apps q ++ c).
  { induction es as [| e es IH]; intro q.
    - exists []. symmetry. apply app_nil_r.
    - change (Boot.run (e :: es) q) with (Boot.run es (Boot.handle e q)).
      destruct (IH (Boot.handle e q)) as [c ->].
      assert (Hstep : exists d, Boot.apps (Boot.handle e q) = Boot.apps q ++ d).
      { destruct q as [w listener timer apps console].
        destruct e as [g | t | t]; simpl.
        - exists []. symmetry. apply app_nil_r.
        - destruct listener; simpl; [| exists []; symmetry; apply app_nil_r].
          unfold Boot.construct. simpl. destruct (Boot.THREE w); simpl;
            [eexists; reflexivity | exists []; symmetry; apply app_nil_r].
        - destruct timer as [due |]; simpl;
            [| exists []; symmetry; apply app_nil_r].
          destruct (Rltb t due); simpl; [exists []; symmetry; apply app_nil_r |].
          unfold Boot.construct. simpl. destruct (Boot.THREE w); simpl;
            [eexists; reflexivity | exists []; symmetry; apply app_nil_r]. }
      destruct Hstep as [d ->]. exists (d ++ c). rewrite app_assoc. reflexivity. }
  split; [| split].
  - intro Hready.
    assert (Hp : p = Boot.mkPage globals false None
                       [newApp now (Boot.GLTFLoader globals)]
                       ["初始化情境折影..."%string; "应用初始化完成"%string]).
    { unfold p, Boot.initApp, Boot.loading. simpl. rewrite Hready.
      apply andb_true_iff in Hready. destruct Hready as [Ht _].
      unfold Boot.construct. simpl. rewrite Ht. reflexivity. }
    destruct (run_apps_budget events p) as [Hup Hlow].
    rewrite Hp in Hup, Hlow |- *. unfold Boot.budget in Hup. simpl in Hup, Hlow.
    apply Hlength; [simpl; lia | simpl; lia |].
    destruct (Hgrow events (Boot.mkPage globals false None
                       [newApp now (Boot.GLTFLoader globals)]
                       ["初始化情境折影..."%string; "应用初始化完成"%string]))
      as [c Hc].
    exists c. exact Hc.
  - destruct (run_apps_budget events p) as [Hup _].
    unfold Boot.budget, p, Boot.initApp, Boot.loading in Hup |- *.
    simpl in Hup |- *.
    destruct (Boot.THREE globals && Boot.THREE_LOADED globals) eqn:E.
    + apply andb_true_iff in E. destruct E as [Ht _].
      unfold Boot.construct in Hup |- *. simpl in Hup |- *.
      rewrite Ht in Hup |- *. simpl in Hup |- *. lia.
    + simpl in Hup. lia.
  - intros Hnot arrived later t1 t2 Ha Hl Ht2.
    assert (Hp : p = Boot.mkPage globals true (Some (now + 2000)) [] []).
    { unfold p, Boot.initApp, Boot.loading. simpl. rewrite Hnot. reflexivity. }
    rewrite Hp.
    assert (Hlate : Rltb t2 (now + 2000) = false) by (apply Rltb_false; lra).
    set (q := Boot.run [Boot.ScriptRuns arrived; Boot.ThreeLoaded t1;
                        Boot.ScriptRuns later; Boot.TimerFires t2]
                (Boot.mkPage globals true (Some (now + 2000)) [] [])).
    assert (Hq : Boot.apps q = [newApp t1 (Boot.GLTFLoader arrived);
                                newApp t2 (Boot.GLTFLoader later)] /\
                 Boot.threeLoadedListener q = false /\
                 Boot.fallbackTimer q = None).
    { unfold q. simpl. unfold Boot.construct. simpl. rewrite Ha. simpl.
      rewrite Hlate. simpl. rewrite Hl. simpl. repeat split. }
    destruct Hq as (Hq1 & Hq2 & Hq3).
    change (Boot.run (Boot.ScriptRuns arrived :: Boot.ThreeLoaded t1
                      :: Boot.ScriptRuns later :: Boot.TimerFires t2 :: events)
              (Boot.mkPage globals true (Some (now + 2000)) [] []))
      with (Boot.run events q).
    destruct (run_apps_budget events q) as [Hup Hlow].
    unfold Boot.budget in Hup. rewrite Hq2, Hq3 in Hup. rewrite <- Hq1.
    apply Hlength; [lia | lia | apply Hgrow].
Qed.

Lemma late_library_starts_two_applications_witness :
  Boot.apps
    (Boot.run [Boot.ScriptRuns (Boot.mkWindow true true true);
               Boot.ThreeLoaded 300;
               Boot.ScriptRuns (Boot.mkWindow true true true);
               Boot.TimerFires 2000]
       (Boot.initApp 0 (Boot.loading (Boot.mkWindow false false false))))
  = [newApp 300 true; newApp 2000 true].
Proof.
  apply (proj2 (proj2 (late_library_starts_two_applications
                         (Boot.mkWindow false false false) 0 []))).
  - reflexivity.
  - reflexivity.
  - reflexivity.
  - lra.
Defined.


(** ** Dragging with the fallback controller *)

Lemma setFromVector3_radius (v : Vector3) :
  BasicControls.radius (BasicControls.setFromVector3 v) = THREE.length v.
Proof.
  unfold BasicControls.setFromVector3, THREE.length.
  destruct (Req_dec_T _ 0); reflexivity.
Qed.

(** A point given by spherical coordinates is as far from the origin as the
    radius says. *)
Lemma setFromSpherical_length (r phi theta : R) :
  0 <= r ->
  THREE.length (BasicControls.setFromSpherical (BasicControls.mkSpherical r phi theta))
  = r.
Proof.
  intro Hr. unfold THREE.length, BasicControls.setFromSpherical. simpl.
  pose proof (sin2_cos2 phi) as Hp. pose proof (sin2_cos2 theta) as Ht.
  unfold Rsqr in Hp, Ht.
  replace (sin phi * r * sin theta * (sin phi * r * sin theta)
           + cos phi * r * (cos phi * r)
           + sin phi * r * cos theta * (sin phi * r * cos theta))
    with (r * r * (sin phi * sin phi * (sin theta * sin theta + cos theta * cos theta)
                   + cos phi * cos phi))
    by ring.
  rewrite Ht, Rmult_1_r, Hp, Rmult_1_r. apply sqrt_square, Hr.
Qed.

Lemma length_nonneg (v : Vector3) : 0 <= THREE.length v.
Proof. unfold THREE.length. apply sqrt_pos. Qed.

Lemma PI_above_1 : 1 < PI.
Proof. pose proof PI2_1. lra. Qed.

(** The cosine of a polar angle kept off the poles. *)
Lemma cos_capped (phi : R) :
  let capped := Rmax 0.1 (Rmin (PI - 0.1) phi) in
  0.1 <= capped <= PI - 0.1 /\ - cos 0.1 <= cos capped <= cos 0.1.
Proof.
  intro capped. pose proof PI_above_1 as HPI.
  assert (Hrange : 0.1 <= capped <= PI - 0.1).
  { unfold capped. split; [apply Rmax_l |].
    apply Rmax_lub; [lra | apply Rmin_l]. }
  split; [exact Hrange |]. split.
  - replace (- cos 0.1) with (cos (PI - 0.1)) by (rewrite Rtrigo_facts.cos_pi_minus; reflexivity).
    apply cos_decr_1; lra.
  - apply cos_decr_1; lra.
Qed.

Lemma mousemove_dragging (e : BasicControls.MouseEvent) (s : BasicControls.State) :
  BasicControls.isDragging s = true ->
  exists phi theta,
    0.1 <= phi <= PI - 0.1 /\ - cos 0.1 <= cos phi <= cos 0.1 /\
    position (BasicControls.camera (BasicControls.mousemove e s))
    = BasicControls.setFromSpherical
        (BasicControls.mkSpherical
           (THREE.length (position (BasicControls.camera s))) phi theta) /\
    direction (BasicControls.camera (BasicControls.mousemove e s))
    = directionTo (position (BasicControls.camera (BasicControls.mousemove e s)))
                  (mkVector3 0 0 0) /\
    BasicControls.isDragging (BasicControls.mousemove e s) = true.
Proof.
  intro Hd. unfold BasicControls.mousemove. rewrite Hd. simpl.
  rewrite setFromVector3_radius.
  match goal with
  | |- context [Rmax 0.1 (Rmin (PI - 0.1) ?p)] =>
      destruct (cos_capped p) as [Hrange Hcos]
  end.
  eexists. eexists. split; [exact Hrange |]. split; [exact Hcos |].
  split; [reflexivity |]. split; reflexivity.
Qed.

(** X21. Dragging with the fallback controller turns the camera about the
    origin.  Whatever mouse-down, mouse-move and mouse-up events come, the
    camera stays as far from the origin as it was.  Either it has not moved
    at all (no move came with the button down), or it looks at the origin
    and its height is at most cos 0.1 times that distance, above or below:
    the polar angle is kept 0.1 rad off the vertical. *)
Theorem dragging_keeps_the_distance :
  forall (events : list BasicControls.Event) (s : BasicControls.State),
    forallb (fun e => negb (BasicControls.isWheel e)) events = true ->
    let s' := BasicControls.run events s in
    let r := THREE.length (position (BasicControls.camera s)) in
    THREE.length (position (BasicControls.camera s')) = r /\
    (BasicControls.camera s' = BasicControls.camera s \/
     (Rabs (y (position (BasicControls.camera s'))) <= cos 0.1 * r /\
      direction (BasicControls.camera s')
      = directionTo (position (BasicControls.camera s')) (mkVector3 0 0 0))).
Proof.
  intros events s Hev s' r. unfold s'. clear s'.
  assert (Hgen : forall a,
            THREE.length (position (BasicControls.camera a)) = r ->
            (BasicControls.camera a = BasicControls.camera s \/
             (Rabs (y (position (BasicControls.camera a))) <= cos 0.1 * r /\
              direction (BasicControls.camera a)
              = directionTo (position (BasicControls.camera a)) (mkVector3 0 0 0))) ->
            THREE.length (position (BasicControls.camera (BasicControls.run events a)))
            = r /\
            (BasicControls.camera (BasicControls.run events a)
             = BasicControls.camera s \/
             (Rabs (y (position (BasicControls.camera (BasicControls.run events a))))
              <= cos 0.1 * r /\
              direction (BasicControls.camera (BasicControls.run events a))
              = directionTo
                  (position (BasicControls.camera (BasicControls.run events a)))
                  (mkVector3 0 0 0)))).
  { induction events as [| e events IH]; intros a Hlen Hcase.
    - split; assumption.
    - change (BasicControls.run (e :: events) a)
        with (BasicControls.run events (BasicControls.handle e a)).
      simpl in Hev. apply andb_true_iff in Hev. destruct Hev as [He Hev].
      apply (IH Hev).
      + destruct e as [m | m | | deltaY]; simpl; try exact Hlen;
          [| discriminate He].
        destruct (BasicControls.isDragging a) eqn:Hd.
        * destruct (mousemove_dragging m a Hd) as (phi & theta & _ & _ & -> & _).
          rewrite Hlen. apply setFromSpherical_length.
          rewrite <- Hlen. apply length_nonneg.
        * unfold BasicControls.mousemove. rewrite Hd. exact Hlen.
      + destruct e as [m | m | | deltaY]; simpl; try exact Hcase;
          [| discriminate He].
        destruct (BasicControls.isDragging a) eqn:Hd.
        * right.
          destruct (mousemove_dragging m a Hd)
            as (phi & theta & _ & Hcos & Hpos & Hdir & _).
          split; [| exact Hdir].
          rewrite Hpos, Hlen. simpl.
          assert (Hr : 0 <= r) by (rewrite <- Hlen; apply length_nonneg).
          apply Rabs_le. split; nra.
        * unfold BasicControls.mousemove. rewrite Hd. exact Hcase. }
  apply Hgen; [reflexivity | left; reflexivity].
Qed.

Lemma dragging_keeps_the_distance_witness :
  let start := BasicControls.setupBasicControls
                 (mkCamera (mkVector3 0 5 20) (mkVector3 0 0 (-1))) in
  THREE.length
    (position
       (BasicControls.camera
          (BasicControls.run
             [BasicControls.MouseDown (BasicControls.mkMouseEvent 100 100);
              BasicControls.MouseMove (BasicControls.mkMouseEvent 130 90);
              BasicControls.MouseUp]
             start)))
  = THREE.length (mkVector3 0 5 20).
Proof.
  intro start.
  apply (dragging_keeps_the_distance
           [BasicControls.MouseDown (BasicControls.mkMouseEvent 100 100);
            BasicControls.MouseMove (BasicControls.mkMouseEvent 130 90);
            BasicControls.MouseUp] start).
  reflexivity.
Defined.

Lemma square_root_unique (u v : R) : 0 <= u -> 0 <= v -> u * u = v * v -> u = v.
Proof. intros Hu Hv H. nra. Qed.

(** With [s / c = a / b], [s] and [c] a sine and cosine, [c] positive. *)
Lemma scaled_sin_cos (a b h s c : R) :
  0 <= h -> h * h = a * a + b * b -> b <> 0 -> 0 < c ->
  s * s + c * c = 1 -> s / c = a / b ->
  h * c = Rabs b /\ h * s * b = a * Rabs b.
Proof.
  intros Hh Hhh Hb Hc H1 Htan.
  assert (Hs : b * s = a * c).
  { apply (f_equal (fun v => v * (b * c))) in Htan.
    field_simplify in Htan; lra. }
  assert (Hhc : h * c = Rabs b).
  { apply square_root_unique; [nra | apply Rabs_pos |].
    replace (Rabs b * Rabs b) with (b * b)
      by (unfold Rabs; destruct (Rcase_abs b); ring).
    replace (h * c * (h * c)) with (h * h * (c * c)) by ring.
    rewrite Hhh.
    replace ((a * a + b * b) * (c * c)) with (a * c * (a * c) + b * b * (c * c))
      by ring.
    rewrite <- Hs.
    replace (b * s * (b * s) + b * b * (c * c)) with (b * b * (s * s + c * c))
      by ring.
    rewrite H1. ring. }
  split; [exact Hhc |].
  replace (h * s * b) with (h * (b * s)) by ring. rewrite Hs.
  replace (h * (a * c)) with (a * (h * c)) by ring. rewrite Hhc. reflexivity.
Qed.

(** Sine and cosine of [atan2]. *)
Lemma atan2_sin_cos (a b : R) :
  sqrt (a * a + b * b) * sin (BasicControls.atan2 a b) = a /\
  sqrt (a * a + b * b) * cos (BasicControls.atan2 a b) = b.
Proof.
  set (h := sqrt (a * a + b * b)).
  assert (Hh : 0 <= h) by apply sqrt_pos.
  assert (Hhh : h * h = a * a + b * b) by (apply sqrt_sqrt; nra).
  destruct (Req_dec_T b 0) as [Hb0 | Hb0].
  - assert (Ha : h * h = a * a) by nra.
    unfold BasicControls.atan2.
    destruct (Rlt_dec 0 b); [lra |]. destruct (Rlt_dec b 0); [lra |].
    destruct (Rlt_dec 0 a) as [Ha1 | Ha1]; [| destruct (Rlt_dec a 0) as [Ha2 | Ha2]].
    + rewrite sin_PI2, cos_PI2. split; nra.
    + replace (- PI / 2) with (- (PI / 2)) by field.
      rewrite sin_neg, cos_neg, sin_PI2, cos_PI2. split; nra.
    + rewrite sin_0, cos_0. split; nra.
  - pose proof (atan_bound (a / b)) as Hbound.
    pose proof (tan_atan (a / b)) as Htan. unfold tan in Htan.
    pose proof (sin2_cos2 (atan (a / b))) as H1. unfold Rsqr in H1.
    assert (Hc : 0 < cos (atan (a / b))) by (apply cos_gt_0; lra).
    destruct (scaled_sin_cos a b h _ _ Hh Hhh Hb0 Hc H1 Htan) as [Kc Ks].
    unfold BasicControls.atan2.
    destruct (Rlt_dec 0 b) as [Hb | Hb].
    + rewrite Rabs_right in Kc, Ks by lra. split; [| exact Kc].
      apply Rmult_eq_reg_r with b; [| lra]. rewrite Ks. reflexivity.
    + destruct (Rlt_dec b 0) as [Hb' | Hb']; [| lra].
      rewrite Rabs_left in Kc, Ks by lra.
      assert (Hsin : forall t, (t = atan (a / b) + PI \/ t = atan (a / b) - PI) ->
                sin t = - sin (atan (a / b)) /\ cos t = - cos (atan (a / b))).
      { intros t [-> | ->].
        - split; [apply neg_sin | apply neg_cos].
        - replace (atan (a / b) - PI) with (- (PI - atan (a / b))) by ring.
          rewrite sin_neg, cos_neg, Rtrigo_facts.sin_pi_minus,
            Rtrigo_facts.cos_pi_minus.
          split; ring. }
      assert (Ht : sin (if Rle_dec 0 a then atan (a / b) + PI else atan (a / b) - PI)
                   = - sin (atan (a / b)) /\
                   cos (if Rle_dec 0 a then atan (a / b) + PI else atan (a / b) - PI)
                   = - cos (atan (a / b))).
      { apply Hsin. destruct (Rle_dec 0 a); [left | right]; reflexivity. }
      destruct Ht as [-> ->]. split; [| lra].
      apply Rmult_eq_reg_r with b; [| lra].
      replace (h * - sin (atan (a / b)) * b) with (- (h * sin (atan (a / b)) * b))
        by ring.
      rewrite Ks. ring.
Qed.

(** Going to spherical coordinates and back gives the point again. *)
Lemma setFromSpherical_setFromVector3 (v : Vector3) :
  BasicControls.setFromSpherical (BasicControls.setFromVector3 v) = v /\
  (THREE.length v <> 0 ->
   forall bound, 0 <= bound <= PI ->
     Rabs (y v) <= cos bound * THREE.length v ->
     bound <= BasicControls.phi (BasicControls.setFromVector3 v) <= PI - bound).
Proof.
  destruct v as [vx vy vz].
  unfold BasicControls.setFromVector3, BasicControls.setFromSpherical, THREE.length.
  simpl.
  set (r := sqrt (vx * vx + vy * vy + vz * vz)).
  assert (Hr : 0 <= r) by apply sqrt_pos.
  assert (Hrr : r * r = vx * vx + vy * vy + vz * vz) by (apply sqrt_sqrt; nra).
  destruct (Req_dec_T r 0) as [H0 | H0]; simpl.
  - split; [| intro K; contradiction].
    assert (vx = 0 /\ vy = 0 /\ vz = 0) as (-> & -> & ->) by (rewrite H0 in Hrr; nra).
    rewrite H0, sin_0. f_equal; ring.
  - assert (Hpos : 0 < r) by lra.
    assert (Hy : - r <= vy <= r) by nra.
    assert (Hu : -1 <= vy / r <= 1).
    { split.
      - apply Rmult_le_reg_r with r; [exact Hpos |].
        unfold Rdiv. rewrite Rmult_assoc, Rinv_l by lra. lra.
      - apply Rmult_le_reg_r with r; [exact Hpos |].
        unfold Rdiv. rewrite Rmult_assoc, Rinv_l by lra. lra. }
    assert (Hclamp : BasicControls.clamp (vy / r) (-1) 1 = vy / r).
    { unfold BasicControls.clamp. rewrite Rmin_right by lra.
      apply Rmax_right. lra. }
    rewrite Hclamp.
    assert (Hcos : cos (acos (vy / r)) * r = vy).
    { rewrite cos_acos by exact Hu. field. lra. }
    split.
    + assert (Hsin : sin (acos (vy / r)) * r = sqrt (vx * vx + vz * vz)).
      { apply square_root_unique.
        - apply Rmult_le_pos; [| exact Hr]. rewrite sin_acos by exact Hu.
          apply sqrt_pos.
        - apply sqrt_pos.
        - rewrite sqrt_sqrt by nra.
          pose proof (sin2_cos2 (acos (vy / r))) as H1. unfold Rsqr in H1.
          replace (sin (acos (vy / r)) * r * (sin (acos (vy / r)) * r))
            with (r * r * (sin (acos (vy / r)) * sin (acos (vy / r)))) by ring.
          replace (sin (acos (vy / r)) * sin (acos (vy / r)))
            with (1 - cos (acos (vy / r)) * cos (acos (vy / r))) by lra.
          replace (r * r * (1 - cos (acos (vy / r)) * cos (acos (vy / r))))
            with (r * r - cos (acos (vy / r)) * r * (cos (acos (vy / r)) * r))
            by ring.
          rewrite Hcos. lra. }
      rewrite Hsin, Hcos.
      destruct (atan2_sin_cos vx vz) as [-> ->]. reflexivity.
    + intros _ bound Hbound Hband.
      pose proof (acos_bound (vy / r)) as Hphi.
      assert (Hc : - cos bound <= cos (acos (vy / r)) <= cos bound).
      { rewrite cos_acos by exact Hu.
        assert (Hb2 : - (cos bound * r) <= vy <= cos bound * r)
          by (unfold Rabs in Hband; destruct (Rcase_abs vy); lra).
        split.
        - apply Rmult_le_reg_r with r; [exact Hpos |].
          unfold Rdiv. rewrite Rmult_assoc, Rinv_l by lra. lra.
        - apply Rmult_le_reg_r with r; [exact Hpos |].
          unfold Rdiv. rewrite Rmult_assoc, Rinv_l by lra. lra. }
      split.
      * destruct (Rle_dec bound (acos (vy / r))) as [K | K]; [exact K |].
        exfalso.
        assert (cos bound < cos (acos (vy / r)))
          by (apply cos_decreasing_1; lra).
        lra.
      * destruct (Rle_dec (acos (vy / r)) (PI - bound)) as [K | K]; [exact K |].
        exfalso.
        assert (cos (acos (vy / r)) < cos (PI - bound))
          by (apply cos_decreasing_1; lra).
        rewrite Rtrigo_facts.cos_pi_minus in H. lra.
Qed.

Lemma mousemove_still (e : BasicControls.MouseEvent) (s : BasicControls.State) :
  BasicControls.isDragging s = true ->
  BasicControls.clientX e = fst (BasicControls.previousMousePosition s) ->
  BasicControls.clientY e = snd (BasicControls.previousMousePosition s) ->
  Rabs (y (position (BasicControls.camera s)))
    <= cos 0.1 * THREE.length (position (BasicControls.camera s)) ->
  position (BasicControls.camera (BasicControls.mousemove e s))
  = position (BasicControls.camera s).
Proof.
  intros Hd Hx Hy Hband.
  destruct (setFromSpherical_setFromVector3 (position (BasicControls.camera s)))
    as [Hback Hphi].
  unfold BasicControls.mousemove. rewrite Hd, Hx, Hy. simpl.
  replace (BasicControls.theta
             (BasicControls.setFromVector3 (position (BasicControls.camera s)))
           - (fst (BasicControls.previousMousePosition s)
              - fst (BasicControls.previousMousePosition s)) * 0.01)
    with (BasicControls.theta
            (BasicControls.setFromVector3 (position (BasicControls.camera s))))
    by ring.
  replace (BasicControls.phi
             (BasicControls.setFromVector3 (position (BasicControls.camera s)))
           + (snd (BasicControls.previousMousePosition s)
              - snd (BasicControls.previousMousePosition s)) * 0.01)
    with (BasicControls.phi
            (BasicControls.setFromVector3 (position (BasicControls.camera s))))
    by ring.
  destruct (Req_dec_T (THREE.length (position (BasicControls.camera s))) 0)
    as [H0 | H0].
  - (* at the origin every point of the sphere is the origin *)
    rewrite setFromVector3_radius, H0.
    unfold BasicControls.setFromSpherical. simpl.
    assert (Hv : position (BasicControls.camera s) = mkVector3 0 0 0).
    { destruct (position (BasicControls.camera s)) as [vx vy vz].
      unfold THREE.length in H0. simpl in H0.
      apply sqrt_eq_0 in H0; [| nra].
      assert (vx = 0 /\ vy = 0 /\ vz = 0) as (-> & -> & ->) by nra.
      reflexivity. }
    rewrite Hv. f_equal; ring.
  - pose proof PI_above_1 as HPI.
    assert (Hb : 0 <= 0.1 <= PI) by lra.
    destruct (Hphi H0 0.1 Hb Hband) as [Hlo Hhi].
    rewrite Rmin_right by exact Hhi. rewrite Rmax_right by exact Hlo.
    etransitivity; [| exact Hback].
    destruct (BasicControls.setFromVector3 (position (BasicControls.camera s)));
      reflexivity.
Qed.

(** X22. A mouse move that reports no displacement.  While the button is
    down, such a move leaves the camera where it is whenever its height is
    at most cos 0.1 times its distance from the origin: turning the position
    into spherical coordinates and back gives the position again.  That is
    so after any move of a drag, so a move repeated at the same pointer
    position changes nothing.  From straight above the origin a move without
    displacement does move the camera, down to 0.1 rad off the vertical,
    towards +z. *)
Theorem still_pointer_moves_the_camera_only_off_the_pole :
  forall (s : BasicControls.State),
    BasicControls.isDragging s = true ->
    let v := position (BasicControls.camera s) in
    let still (e : BasicControls.MouseEvent) :=
      BasicControls.clientX e = fst (BasicControls.previousMousePosition s) /\
      BasicControls.clientY e = snd (BasicControls.previousMousePosition s) in
    (forall e, still e -> Rabs (y v) <= cos 0.1 * THREE.length v ->
       position (BasicControls.camera (BasicControls.mousemove e s)) = v) /\
    (forall e, still e -> x v = 0 -> z v = 0 -> 0 < y v ->
       position (BasicControls.camera (BasicControls.mousemove e s))
       = mkVector3 0 (cos 0.1 * y v) (sin 0.1 * y v)) /\
    (forall e1 e2,
       BasicControls.clientX e2 = BasicControls.clientX e1 ->
       BasicControls.clientY e2 = BasicControls.clientY e1 ->
       position (BasicControls.camera
                   (BasicControls.mousemove e2 (BasicControls.mousemove e1 s)))
       = position (BasicControls.camera (BasicControls.mousemove e1 s))).
Proof.
  intros s Hd v still. split; [| split].
  - intros e [Hx Hy] Hband. apply mousemove_still; assumption.
  - intros e [Hx Hy] Hvx Hvz Hvy.
    pose proof PI_above_1 as HPI.
    unfold BasicControls.mousemove. rewrite Hd, Hx, Hy. simpl.
    fold v. destruct v as [vx vy vz]. simpl in *. subst vx vz.
    unfold BasicControls.setFromVector3, BasicControls.setFromSpherical. simpl.
    replace (0 * 0 + vy * vy + 0 * 0) with (vy * vy) by ring.
    rewrite sqrt_square by lra.
    destruct (Req_dec_T vy 0) as [K | _]; [lra |]. simpl.
    assert (Hc : BasicControls.clamp (vy / vy) (-1) 1 = 1).
    { unfold BasicControls.clamp. replace (vy / vy) with 1 by (field; lra).
      rewrite Rmin_left by lra. apply Rmax_right. lra. }
    rewrite Hc, acos_1.
    assert (Ht : BasicControls.atan2 0 0 = 0).
    { unfold BasicControls.atan2.
      destruct (Rlt_dec 0 0); [lra |]. reflexivity. }
    rewrite Ht.
    replace (0 + (snd (BasicControls.previousMousePosition s)
                  - snd (BasicControls.previousMousePosition s)) * 0.01)
      with 0 by ring.
    replace (0 - (fst (BasicControls.previousMousePosition s)
                  - fst (BasicControls.previousMousePosition s)) * 0.01)
      with 0 by ring.
    rewrite Rmin_right by lra. rewrite Rmax_left by lra.
    rewrite sin_0, cos_0. f_equal; ring.
  - intros e1 e2 Ex Ey.
    destruct (mousemove_dragging e1 s Hd)
      as (phi & theta & _ & Hcos & Hpos & _ & Hd').
    apply mousemove_still.
    + exact Hd'.
    + unfold BasicControls.mousemove. rewrite Hd. simpl. exact Ex.
    + unfold BasicControls.mousemove. rewrite Hd. simpl. exact Ey.
    + rewrite Hpos.
      rewrite setFromSpherical_length by apply length_nonneg.
      simpl. pose proof (length_nonneg (position (BasicControls.camera s))).
      apply Rabs_le. split; nra.
Qed.

Lemma still_pointer_moves_the_camera_only_off_the_pole_witness :
  let s := BasicControls.mousedown (BasicControls.mkMouseEvent 100 100)
             (BasicControls.setupBasicControls
                (mkCamera (mkVector3 0 8 0) (mkVector3 0 (-1) 0))) in
  position (BasicControls.camera
              (BasicControls.mousemove (BasicControls.mkMouseEvent 100 100) s))
  = mkVector3 0 (cos 0.1 * 8) (sin 0.1 * 8).
Proof.
  intro s.
  apply (proj1 (proj2 (still_pointer_moves_the_camera_only_off_the_pole
                         s eq_refl))).
  - split; reflexivity.
  - reflexivity.
  - reflexivity.
  - simpl. lra.
Defined.

Lemma length_scaled_any (d : Vector3) (k : R) :
  THREE.length (multiplyScalar d k) = Rabs k * THREE.length d.
Proof.
  unfold THREE.length, multiplyScalar. simpl.
  replace (x d * k * (x d * k) + y d * k * (y d * k) + z d * k * (z d * k))
    with ((k * k) * (x d * x d + y d * y d + z d * z d)) by ring.
  rewrite sqrt_mult; [| nra | nra].
  replace (k * k) with (Rsqr k) by reflexivity. rewrite sqrt_Rsqr_abs.
  reflexivity.
Qed.

Lemma step_towards_origin (v : Vector3) (r delta : R) :
  r <> 0 ->
  add v (multiplyScalar (multiplyScalar (sub (mkVector3 0 0 0) v) (/ r)) delta)
  = multiplyScalar v (1 - delta / r).
Proof.
  intro Hr. destruct v as [vx vy vz]. unfold add, multiplyScalar, sub. simpl.
  f_equal; field; exact Hr.
Qed.

(** A point off the poles of its sphere is off the vertical axis. *)
Lemma off_the_pole_off_the_axis (r phi theta : R) :
  0 < r -> 0.1 <= phi <= PI - 0.1 ->
  let v := BasicControls.setFromSpherical (BasicControls.mkSpherical r phi theta) in
  x v <> 0 \/ z v <> 0.
Proof.
  intros Hr Hphi v. unfold v, BasicControls.setFromSpherical. simpl.
  pose proof PI_above_1 as HPI.
  assert (Hsin : 0 < sin phi) by (apply sin_gt_0; lra).
  pose proof (sin2_cos2 theta) as Ht. unfold Rsqr in Ht.
  assert (Hk : 0 < sin phi * r) by nra.
  destruct (Req_dec (sin theta) 0) as [Hs | Hs].
  - right. rewrite Hs in Ht. assert (cos theta <> 0) by nra. nra.
  - left. nra.
Qed.

(** X23. The wheel of the fallback controller has no stop.  After a move of
    a drag the camera looks at the origin from a distance r > 0, and a wheel
    event then takes it along that line by deltaY / 100: it ends at distance
    |r - deltaY / 100|, on the far side of the origin when deltaY / 100
    exceeds r.  With deltaY = 100 r it sits on the origin, and no drag moves
    it from there. *)
Theorem wheel_zooms_without_a_stop :
  forall (s : BasicControls.State) (e : BasicControls.MouseEvent) (deltaY : R),
    BasicControls.isDragging s = true ->
    let s1 := BasicControls.mousemove e s in
    let v := position (BasicControls.camera s1) in
    let r := THREE.length v in
    0 < r ->
    let s2 := BasicControls.wheel deltaY s1 in
    position (BasicControls.camera s2)
      = multiplyScalar v (1 - deltaY * 0.01 / r) /\
    THREE.length (position (BasicControls.camera s2)) = Rabs (r - deltaY * 0.01) /\
    (deltaY = 100 * r ->
     position (BasicControls.camera s2) = mkVector3 0 0 0 /\
     forall e',
       position (BasicControls.camera (BasicControls.mousemove e' s2))
       = mkVector3 0 0 0).
Proof.
  intros s e deltaY Hd s1 v r Hr s2.
  destruct (mousemove_dragging e s Hd)
    as (phi & theta & Hphi & _ & Hv & Hdir & Hd1).
  fold s1 in Hv, Hdir, Hd1. fold v in Hv, Hdir.
  assert (Hsub : THREE.length (sub (mkVector3 0 0 0) v) = r).
  { unfold r, THREE.length, sub. simpl. f_equal. ring. }
  assert (Hr0 : THREE.length (position (BasicControls.camera s)) = r).
  { unfold r. rewrite Hv. symmetry. apply setFromSpherical_length, length_nonneg. }
  assert (Hlevel : x (mkVector3 0 0 0) <> x v \/ z (mkVector3 0 0 0) <> z v).
  { rewrite Hr0 in Hv.
    pose proof (off_the_pole_off_the_axis r phi theta Hr Hphi) as K.
    cbv zeta in K. rewrite <- Hv in K. simpl.
    destruct K as [K | K]; [left | right]; intro E; apply K; symmetry; exact E. }
  assert (Hpos : position (BasicControls.camera s2)
                 = multiplyScalar v (1 - deltaY * 0.01 / r)).
  { unfold s2, BasicControls.wheel. simpl. rewrite Hdir.
    rewrite (directionTo_level v (mkVector3 0 0 0) Hlevel), Hsub.
    apply step_towards_origin. lra. }
  split; [exact Hpos |]. split.
  - rewrite Hpos, length_scaled_any. fold r.
    assert (E : forall d q : R, 0 < q -> q - d = (1 - d / q) * q)
      by (intros d q Hq; field; lra).
    rewrite (E (deltaY * 0.01) r Hr).
    rewrite Rabs_mult, (Rabs_right r) by lra. reflexivity.
  - intros ->.
    assert (H0 : position (BasicControls.camera s2) = mkVector3 0 0 0).
    { rewrite Hpos.
      assert (E : forall q : R, 0 < q -> 1 - 100 * q * 0.01 / q = 0)
        by (intros q Hq; replace (100 * q * 0.01) with q by lra; field; lra).
      rewrite (E r Hr).
      unfold multiplyScalar. f_equal; ring. }
    split; [exact H0 |].
    intro e'.
    assert (Hd2 : BasicControls.isDragging s2 = true) by exact Hd1.
    destruct (mousemove_dragging e' s2 Hd2) as (phi' & theta' & _ & _ & -> & _).
    rewrite H0. unfold BasicControls.setFromSpherical, THREE.length. simpl.
    replace (0 * 0 + 0 * 0 + 0 * 0) with 0 by ring. rewrite sqrt_0.
    f_equal; ring.
Qed.

Lemma wheel_zooms_without_a_stop_witness :
  let s := BasicControls.mousedown (BasicControls.mkMouseEvent 100 100)
             (BasicControls.setupBasicControls
                (mkCamera (mkVector3 0 0 20) (mkVector3 0 0 (-1)))) in
  let s1 := BasicControls.mousemove (BasicControls.mkMouseEvent 100 100) s in
  THREE.length (position (BasicControls.camera (BasicControls.wheel 500 s1)))
  = Rabs (THREE.length (position (BasicControls.camera s1)) - 500 * 0.01).
Proof.
  intros s s1.
  apply (wheel_zooms_without_a_stop s (BasicControls.mkMouseEvent 100 100) 500
           eq_refl).
  fold s1.
  assert (E : position (BasicControls.camera s1) = mkVector3 0 0 20).
  { unfold s1. apply mousemove_still; try reflexivity.
    simpl. rewrite Rabs_R0. apply Rmult_le_pos; [| apply length_nonneg].
    pose proof PI_above_1 as HPI.
    apply Rlt_le, cos_gt_0; lra. }
  rewrite E. unfold THREE.length. simpl. apply sqrt_lt_R0. lra.
Defined.


(** ** Temporary elements are taken away again *)

Lemma takeTimer_split (n : nat) (pending : list Dom.Timer) (t : Dom.Timer)
  (rest : list Dom.Timer) :
  Dom.takeTimer n pending = Some (t, rest) ->
  exists l1 l2, pending = l1 ++ t :: l2 /\ rest = l1 ++ l2.
Proof.
  revert n rest. induction pending as [| t0 pending IH]; intros [| n] rest H;
    simpl in H; try discriminate H.
  - injection H as <- <-. exists [], pending. split; reflexivity.
  - destruct (Dom.takeTimer n pending) as [[t' rest'] |] eqn:E; [| discriminate H].
    injection H as <- <-. destruct (IH n rest' E) as (l1 & l2 & -> & ->).
    exists (t0 :: l1), l2. split; reflexivity.
Qed.

Lemma removeNode_temp (id : nat) (children temps : list Dom.Node) :
  (forall n, In n children -> Dom.node_id n <> id) ->
  NoDup (map Dom.node_id temps) ->
  In id (map Dom.node_id temps) ->
  exists temps',
    Dom.removeNode id (children ++ temps) = Some (children ++ temps') /\
    NoDup (map Dom.node_id temps') /\
    (forall id', In id' (map Dom.node_id temps') <->
                 id' <> id /\ In id' (map Dom.node_id temps)).
Proof.
  intros Hch Hnd Hin.
  induction children as [| c children IH]; simpl.
  - clear Hch. induction temps as [| n temps IHt]; simpl in *; [destruct Hin |].
    inversion Hnd as [| ? ? Hnotin Hnd']; subst.
    destruct (Nat.eqb_spec (Dom.node_id n) id) as [E | E].
    + exists temps. split; [reflexivity |]. split; [exact Hnd' |].
      intro id'. split.
      * intro K. split; [| right; exact K].
        intros ->. apply Hnotin. rewrite E. exact K.
      * intros [Hne [K | K]]; [congruence | exact K].
    + destruct Hin as [K | K]; [contradiction |].
      destruct (IHt Hnd' K) as (temps' & -> & Hnd'' & Hiff).
      exists (n :: temps'). split; [reflexivity |]. split.
      * simpl. constructor; [| exact Hnd''].
        intro K'. apply Hiff in K'. apply Hnotin, K'.
      * intro id'. simpl. rewrite Hiff. split.
        -- intros [<- | [Hne K']]; [split; [exact E | left; reflexivity] |].
           split; [exact Hne | right; exact K'].
        -- intros [Hne [K' | K']]; [left; exact K' | right; split; assumption].
  - destruct (Nat.eqb_spec (Dom.node_id c) id) as [E | E].
    + exfalso. apply (Hch c); [left; reflexivity | exact E].
    + destruct IH as (temps' & -> & Hrest);
        [intros n Hn; apply Hch; right; exact Hn |].
      exists temps'. split; [reflexivity | exact Hrest].
Qed.

Lemma fade_ids (id : nat) (children : list Dom.Node) :
  map Dom.node_id (Dom.fade id children) = map Dom.node_id children.
Proof.
  unfold Dom.fade. rewrite map_map. apply map_ext. intro n.
  destruct (Nat.eqb (Dom.node_id n) id); [| reflexivity].
  destruct (Dom.element n); reflexivity.
Qed.

Lemma fade_children (id : nat) (children : list Dom.Node) :
  (forall n, In n children -> Dom.node_id n <> id) ->
  Dom.fade id children = children.
Proof.
  intro H. unfold Dom.fade. rewrite <- (map_id children) at 2.
  apply map_ext_in. intros n Hn.
  destruct (Nat.eqb_spec (Dom.node_id n) id) as [E | E]; [| reflexivity].
  exfalso. apply (H n Hn E).
Qed.

Section Tidy.

Variables (children : list Dom.Node) (firstFreeId : nat).

Hypothesis children_ids :
  forall n, In n children -> (Dom.node_id n < firstFreeId)%nat.

(** A new temporary element with the timer that will deal with it. *)
Lemma tidy_new (e : Dom.Element) (make : nat -> Dom.TimerAction) (delay now : R)
  (doc : Dom.Document) :
  (forall id, Dom.target (Dom.mkTimer (now + delay) (make id)) = id) ->
  Dom.tidy children firstFreeId doc ->
  Dom.tidy children firstFreeId
    (Dom.setTimeout (make (Dom.nextId doc)) delay now
       (snd (Dom.appendChild e doc))).
Proof.
  intros Hmake (temps & Hbody & Herr & Hnd & Hndt & Hiff & Hrange & Hbase).
  exists (temps ++ [Dom.mkNode (Dom.nextId doc) e]). simpl.
  rewrite Hbody, <- app_assoc, !map_app. simpl. rewrite Hmake.
  assert (Hfresh : ~ In (Dom.nextId doc) (map Dom.node_id temps))
    by (intro K; apply Hrange in K; lia).
  split; [reflexivity |]. split; [exact Herr |].
  split; [| split; [| split; [| split]]].
  - apply NoDup_app; [exact Hnd | repeat constructor; intros [] |].
    intros id K [<- | []]. contradiction.
  - apply NoDup_app; [exact Hndt | repeat constructor; intros [] |].
    intros id K [<- | []]. apply Hfresh, Hiff, K.
  - intro id. rewrite !in_app_iff, Hiff. reflexivity.
  - intros id K. apply in_app_iff in K. destruct K as [K | [<- | []]].
    + apply Hrange in K. lia.
    + lia.
  - lia.
Qed.

Lemma saveCurrentView_tidy (renderer : option SaveImage.Renderer)
  (filename : option string) (iso : string) (now : R) (doc : Dom.Document) :
  Dom.tidy children firstFreeId doc ->
  Dom.tidy children firstFreeId
    (Dom.saveCurrentView renderer filename iso now doc).
Proof.
  intro H. unfold Dom.saveCurrentView.
  destruct (SaveImage.clicked _) as [| link rest]; [exact H |].
  apply (tidy_new _ Dom.RemoveLink); [reflexivity | exact H].
Qed.

Lemma showTemporaryMessage_tidy (message : string) (duration : option R)
  (now : R) (doc : Dom.Document) :
  Dom.tidy children firstFreeId doc ->
  Dom.tidy children firstFreeId
    (Dom.showTemporaryMessage message duration now doc).
Proof.
  intro H. unfold Dom.showTemporaryMessage.
  apply (tidy_new _ Dom.FadeHint); [reflexivity | exact H].
Qed.

Lemma removeChild_tidy (id : nat) (due : R) (action : Dom.TimerAction)
  (l1 l2 : list Dom.Timer) (doc : Dom.Document) :
  Dom.target (Dom.mkTimer due action) = id ->
  Dom.timers doc = l1 ++ Dom.mkTimer due action :: l2 ->
  Dom.tidy children firstFreeId doc ->
  Dom.tidy children firstFreeId
    (Dom.removeChild id
       (Dom.mkDocument (Dom.body doc) (l1 ++ l2) (Dom.nextId doc)
          (Dom.errors doc))).
Proof.
  intros Ht Htimers (temps & Hbody & Herr & Hnd & Hndt & Hiff & Hrange & Hbase).
  rewrite Htimers, map_app in Hndt, Hiff. simpl in Hndt, Hiff.
  rewrite Ht in Hndt, Hiff.
  assert (Hin : In id (map Dom.node_id temps))
    by (apply Hiff, in_app_iff; right; left; reflexivity).
  assert (Hch : forall n, In n children -> Dom.node_id n <> id).
  { intros n Hn E. apply children_ids in Hn. apply Hrange in Hin. lia. }
  destruct (removeNode_temp id children temps Hch Hnd Hin)
    as (temps' & Hrem & Hnd' & Hiff').
  unfold Dom.removeChild. simpl. rewrite Hbody, Hrem.
  exists temps'. simpl.
  pose proof (NoDup_remove_1 _ _ _ Hndt) as Hnd1.
  pose proof (NoDup_remove_2 _ _ _ Hndt) as Hnot.
  split; [reflexivity |]. split; [exact Herr |]. split; [exact Hnd' |].
  rewrite map_app. split; [exact Hnd1 |]. split; [| split].
  - intro id'. rewrite Hiff', Hiff, !in_app_iff. simpl. split.
    + intros [Hne [K | [K | K]]]; [left; exact K | congruence | right; exact K].
    + intro K. split.
      * intros ->. apply Hnot, in_app_iff, K.
      * destruct K as [K | K]; [left; exact K | right; right; exact K].
  - intros id' K. apply Hiff' in K. apply Hrange, K.
  - exact Hbase.
Qed.

Lemma handle_tidy (e : Dom.Event) (doc : Dom.Document) :
  Dom.tidy children firstFreeId doc ->
  Dom.tidy children firstFreeId (Dom.handle e doc).
Proof.
  intro H.
  destruct e as [renderer iso now | renderer filename iso now
                 | message duration now | n now]; simpl.
  - apply showTemporaryMessage_tidy, saveCurrentView_tidy, H.
  - apply saveCurrentView_tidy, H.
  - apply showTemporaryMessage_tidy, H.
  - destruct (Dom.takeTimer n (Dom.timers doc)) as [[t rest] |] eqn:E; [| exact H].
    destruct (Rltb now (Dom.due t)); [exact H |].
    destruct (takeTimer_split _ _ _ _ E) as (l1 & l2 & Htimers & ->).
    destruct t as [due [link | tempHint | tempHint]]; simpl.
    + apply (removeChild_tidy link due (Dom.RemoveLink link));
        [reflexivity | exact Htimers | exact H].
    + destruct H as (temps & Hbody & Herr & Hnd & Hndt & Hiff & Hrange & Hbase).
      rewrite Htimers, map_app in Hndt, Hiff. simpl in Hndt, Hiff.
      unfold Dom.target in Hndt, Hiff. simpl in Hndt, Hiff.
      fold Dom.target in Hndt, Hiff.
      exists (Dom.fade tempHint temps). simpl.
      assert (Hin : In tempHint (map Dom.node_id temps))
        by (apply Hiff, in_app_iff; right; left; reflexivity).
      split; [| split; [exact Herr | split; [| split; [| split; [| split]]]]].
      * rewrite Hbody. unfold Dom.fade at 1. rewrite map_app.
        fold (Dom.fade tempHint children). fold (Dom.fade tempHint temps).
        rewrite fade_children; [reflexivity |].
        intros c Hc K. apply children_ids in Hc. apply Hrange in Hin. lia.
      * rewrite fade_ids. exact Hnd.
      * rewrite map_app. simpl.
        pose proof (NoDup_remove_1 _ _ _ Hndt) as Hnd1.
        pose proof (NoDup_remove_2 _ _ _ Hndt) as Hnot.
        rewrite <- map_app in Hnd1, Hnot.
        apply NoDup_app; [exact Hnd1 | repeat constructor; intros [] |].
        intros id K [<- | []]. contradiction.
      * intro id. rewrite fade_ids, Hiff, !map_app, !in_app_iff. simpl.
        unfold Dom.target at 3. simpl. tauto.
      * intros id K. rewrite fade_ids in K. apply Hrange, K.
      * exact Hbase.
    + apply (removeChild_tidy tempHint due (Dom.RemoveHint tempHint));
        [reflexivity | exact Htimers | exact H].
Qed.

Lemma run_tidy (events : list Dom.Event) (doc : Dom.Document) :
  Dom.tidy children firstFreeId doc ->
  Dom.tidy children firstFreeId (Dom.run events doc).
Proof.
  revert doc. induction events as [| e events IH]; intros doc H.
  - exact H.
  - apply (IH (Dom.handle e doc)), handle_tidy, H.
Qed.

End Tidy.

(** X24. Temporary elements are taken away again.  Starting from a page
    without temporary elements, whatever clicks on the save button, calls to
    [saveCurrentView] and [showTemporaryMessage] and timer runs follow, in
    whatever order the due timers run: [removeChild] never throws, the body
    holds the page's own children followed by one temporary element for each
    pending timer, and once no timer is pending the body is what it was.  A
    click on the save button shows its message whether or not an image was
    saved: when [saveCurrentView] gives up, the message is all the click
    adds. *)
Theorem temporary_elements_never_leak :
  forall (children : list Dom.Node) (firstFreeId : nat) (events : list Dom.Event),
    (forall n, In n children -> (Dom.node_id n < firstFreeId)%nat) ->
    let doc := Dom.run events (Dom.page children firstFreeId) in
    Dom.errors doc = 0%nat /\
    (exists temps,
       Dom.body doc = children ++ temps /\
       List.length temps = List.length (Dom.timers doc)) /\
    (Dom.timers doc = [] -> Dom.body doc = children) /\
    (forall renderer iso now,
       SaveImage.clicked
         (snd (SaveImage.saveCurrentView renderer None iso (SaveImage.mkPage [] [])))
       = [] ->
       Dom.body (Dom.clickSaveMemory renderer iso now doc)
       = Dom.body doc ++ [Dom.mkNode (Dom.nextId doc) (Dom.Div "记忆已保存" None)]).
Proof.
  intros children firstFreeId events Hids doc.
  assert (H : Dom.tidy children firstFreeId doc).
  { apply run_tidy; [exact Hids |].
    exists []. simpl. rewrite app_nil_r.
    split; [reflexivity |]. split; [reflexivity |].
    split; [constructor |]. split; [constructor |].
    split; [tauto |]. split; [intros id [] | lia]. }
  destruct H as (temps & Hbody & Herr & Hnd & Hndt & Hiff & _).
  assert (Hlen : List.length temps = List.length (Dom.timers doc)).
  { rewrite <- (length_map Dom.node_id temps),
      <- (length_map Dom.target (Dom.timers doc)).
    apply Nat.le_antisymm; apply NoDup_incl_length; try assumption;
      intros id K; apply Hiff, K. }
  split; [exact Herr |]. split; [exists temps; split; assumption |]. split.
  - intro Hnone. rewrite Hnone in Hlen. simpl in Hlen.
    destruct temps; [| discriminate Hlen].
    rewrite Hbody. apply app_nil_r.
  - intros renderer iso now Hgaveup.
    unfold Dom.clickSaveMemory, Dom.saveCurrentView. rewrite Hgaveup.
    reflexivity.
Qed.

Lemma temporary_elements_never_leak_witness :
  Dom.errors
    (Dom.run [Dom.ClickSaveMemory None "2026-11-03T06:24:22.446Z" 0;
              Dom.TimerFires 0 2000; Dom.TimerFires 0 2500]
       (Dom.page [Dom.mkNode 0 (Dom.Div "canvas-container" None)] 1))
  = 0%nat.
Proof.
  apply (temporary_elements_never_leak
           [Dom.mkNode 0 (Dom.Div "canvas-container" None)] 1).
  intros n [<- | []]. simpl. lia.
Defined.
